(** * IntrusiveListN.h: the intrusive doubly linked list

    A shallow embedding of [IntrusiveListHook], [IntrusiveListIterator] and
    [IntrusiveList] of [src/containers/include/IntrusiveListN.h].

    Pointers are [option addr] ([None] is [nullptr]).  The memory holds the
    caller-owned [Node]s by address and the list objects by identity, so
    that two lists sharing a node, or one list passed twice, are expressible.
    [Node] has its hook as first member: the address of a node and the
    address of its hook coincide, which is what [get_value] computes with an
    offset of zero. *)

From stdpp Require Import gmap list sorting.

#[local] Set Warnings "-clear-no-such-hyp".
Local Open Scope Z_scope.

(** ** Data model *)

Abbreviation addr := positive (only parsing).
Abbreviation lid := positive (only parsing).
Abbreviation ptr := (option positive) (only parsing).

Record IntrusiveListHook := mkHook {
  prev : ptr;
  next : ptr
}.

Record Node := mkNode {
  hook : IntrusiveListHook;
  data : Z
}.

Record IntrusiveList := mkList {
  m_head : ptr;
  m_tail : ptr;
  m_size : Z
}.

Record Memory := mkMem {
  nodes : gmap positive Node;
  lists : gmap positive IntrusiveList
}.

(** [size_type] is [std::size_t], taken as 64 bits wide. *)
Definition size_max : Z := 2 ^ 64.
Definition wrap (z : Z) : Z := z mod size_max.

(** [IntrusiveListHook::is_linked] *)
Definition nonnull (p : ptr) : bool :=
  match p with Some _ => true | None => false end.

Definition is_linked (h : IntrusiveListHook) : bool :=
  nonnull (prev h) || nonnull (next h).

(** [IntrusiveList()] *)
Definition empty_list : IntrusiveList := mkList None None 0.

(** ** Outcomes and the state monad

    The three [std::runtime_error]s are told apart by the operation that
    raises them.  A thrown exception leaves the memory as it is at the
    throw.  [Undefined] is the dereference of a null or dangling pointer,
    or the use of a list object that does not exist; [Diverge] is a loop
    that has not ended within the fuel given. *)

Inductive Error := AlreadyLinked | EmptyContainer | InvalidPosition.

Inductive Outcome (A : Type) :=
| Ok (a : A) (m : Memory)
| Throw (e : Error) (m : Memory)
| Undefined
| Diverge.
Arguments Ok {A} a m.
Arguments Throw {A} e m.
Arguments Undefined {A}.
Arguments Diverge {A}.

Definition M (A : Type) : Type := Memory → Outcome A.

Definition ret {A} (a : A) : M A := fun m => Ok a m.

Definition bind {A B} (c : M A) (k : A → M B) : M B :=
  fun m =>
    match c m with
    | Ok a m' => k a m'
    | Throw e m' => Throw e m'
    | Undefined => Undefined
    | Diverge => Diverge
    end.

Definition throw {A} (e : Error) : M A := fun m => Throw e m.
Definition undefined {A} : M A := fun _ => Undefined.
Definition diverge {A} : M A := fun _ => Diverge.

Notation "x <- c ;; k" := (bind c (fun x => k))
  (at level 100, c at next level, right associativity).
Notation "c ;;; k" := (bind c (fun _ => k))
  (at level 100, right associativity).

(** ** Memory accesses *)

Definition load_node (p : positive) : M Node :=
  fun m => match nodes m !! p with
           | Some nd => Ok nd m
           | None => Undefined
           end.

Definition load_hook (p : positive) : M IntrusiveListHook :=
  nd <- load_node p ;; ret (hook nd).

Definition with_prev (v : ptr) (nd : Node) : Node :=
  mkNode (mkHook v (next (hook nd))) (data nd).

Definition with_next (v : ptr) (nd : Node) : Node :=
  mkNode (mkHook (prev (hook nd)) v) (data nd).

Definition store_node (p : positive) (f : Node → Node) : M unit :=
  fun m => match nodes m !! p with
           | Some nd => Ok tt (mkMem (<[p := f nd]> (nodes m)) (lists m))
           | None => Undefined
           end.

Definition set_prev (p : positive) (v : ptr) : M unit := store_node p (with_prev v).
Definition set_next (p : positive) (v : ptr) : M unit := store_node p (with_next v).

(** [q->prev = v] and [q->next = v] through a pointer that may be null *)
Definition set_prev_at (q : ptr) (v : ptr) : M unit :=
  match q with Some p => set_prev p v | None => undefined end.
Definition set_next_at (q : ptr) (v : ptr) : M unit :=
  match q with Some p => set_next p v | None => undefined end.
Definition load_hook_at (q : ptr) : M IntrusiveListHook :=
  match q with Some p => load_hook p | None => undefined end.

Definition load_list (l : positive) : M IntrusiveList :=
  fun m => match lists m !! l with
           | Some L => Ok L m
           | None => Undefined
           end.

Definition store_list (l : positive) (f : IntrusiveList → IntrusiveList) : M unit :=
  fun m => match lists m !! l with
           | Some L => Ok tt (mkMem (nodes m) (<[l := f L]> (lists m)))
           | None => Undefined
           end.

Definition get_head (l : positive) : M ptr := L <- load_list l ;; ret (m_head L).
Definition get_tail (l : positive) : M ptr := L <- load_list l ;; ret (m_tail L).
Definition get_size (l : positive) : M Z := L <- load_list l ;; ret (m_size L).

Definition set_head (l : positive) (v : ptr) : M unit :=
  store_list l (fun L => mkList v (m_tail L) (m_size L)).
Definition set_tail (l : positive) (v : ptr) : M unit :=
  store_list l (fun L => mkList (m_head L) v (m_size L)).
Definition set_size (l : positive) (v : Z) : M unit :=
  store_list l (fun L => mkList (m_head L) (m_tail L) v).

(** [++m_size], [--m_size] *)
Definition incr_size (l : positive) : M unit :=
  sz <- get_size l ;; set_size l (wrap (sz + 1)).
Definition decr_size (l : positive) : M unit :=
  sz <- get_size l ;; set_size l (wrap (sz - 1)).

(** ** IntrusiveListIterator

    An iterator is its [m_node]. *)

(** [operator++] *)
Definition incr (it : ptr) : M ptr :=
  match it with
  | Some p => h <- load_hook p ;; ret (next h)
  | None => ret None
  end.

(** [operator--] *)
Definition decr (it : ptr) : M ptr :=
  match it with
  | Some p => h <- load_hook p ;; ret (prev h)
  | None => ret None
  end.

(** [get_value]: the element that owns a hook, [nullptr] for [nullptr] *)
Definition get_value (hk : ptr) : ptr := hk.

(** [begin()], [end()] *)
Definition begin (this : positive) : M ptr := get_head this.
Definition end_ : ptr := None.

(** [empty()], [size()] *)
Definition empty (this : positive) : M bool :=
  sz <- get_size this ;; ret (sz =? 0).
Definition size (this : positive) : M Z := get_size this.

(** ** Core mutators *)

Definition push_front (this : positive) (value : positive) : M unit :=
  hk <- load_hook value ;;
  if is_linked hk then throw AlreadyLinked else
  set_prev value None ;;;
  (hd <- get_head this ;; set_next value hd) ;;;
  (hd <- get_head this ;;
   match hd with
   | Some h => set_prev h (Some value)
   | None => ret tt
   end) ;;;
  set_head this (Some value) ;;;
  (tl <- get_tail this ;;
   match tl with
   | Some _ => ret tt
   | None => set_tail this (Some value)
   end) ;;;
  incr_size this.

Definition push_back (this : positive) (value : positive) : M unit :=
  hk <- load_hook value ;;
  if is_linked hk then throw AlreadyLinked else
  set_next value None ;;;
  (tl <- get_tail this ;; set_prev value tl) ;;;
  (tl <- get_tail this ;;
   match tl with
   | Some t => set_next t (Some value)
   | None => ret tt
   end) ;;;
  set_tail this (Some value) ;;;
  (hd <- get_head this ;;
   match hd with
   | Some _ => ret tt
   | None => set_head this (Some value)
   end) ;;;
  incr_size this.

Definition insert (this : positive) (pos : ptr) (value : positive) : M unit :=
  hk <- load_hook value ;;
  if is_linked hk then throw AlreadyLinked else
  b <- begin this ;;
  if bool_decide (pos = b) then push_front this value else
  match pos with
  | None => push_back this value
  | Some posHook =>
      set_next value (Some posHook) ;;;
      (ph <- load_hook posHook ;; set_prev value (prev ph)) ;;;
      (ph <- load_hook posHook ;;
       match prev ph with
       | Some q => set_next q (Some value)
       | None => set_head this (Some value)
       end) ;;;
      set_prev posHook (Some value) ;;;
      incr_size this
  end.

Definition pop_front (this : positive) : M unit :=
  e <- empty this ;;
  if e then ret tt else
  oldHead <- get_head this ;;
  (h <- load_hook_at oldHead ;; set_head this (next h)) ;;;
  (hd <- get_head this ;;
   match hd with
   | Some h => set_prev h None
   | None => set_tail this None
   end) ;;;
  set_prev_at oldHead None ;;;
  set_next_at oldHead None ;;;
  decr_size this.

Definition pop_back (this : positive) : M unit :=
  e <- empty this ;;
  tl <- get_tail this ;;
  if e || negb (nonnull tl) then ret tt else
  oldTail <- get_tail this ;;
  (h <- load_hook_at oldTail ;; set_tail this (prev h)) ;;;
  (tl' <- get_tail this ;;
   match tl' with
   | Some t => set_next t None
   | None => ret tt
   end) ;;;
  set_prev_at oldTail None ;;;
  set_next_at oldTail None ;;;
  decr_size this.

Definition erase (this : positive) (pos : ptr) : M ptr :=
  match pos with
  | None => throw InvalidPosition
  | Some hk =>
      h0 <- load_hook hk ;;
      let nxt := next h0 in
      (h <- load_hook hk ;;
       match prev h with
       | Some q => set_next q (next h)
       | None => set_head this (next h)
       end) ;;;
      (h <- load_hook hk ;;
       match next h with
       | Some q => set_prev q (prev h)
       | None => set_tail this (prev h)
       end) ;;;
      set_next hk None ;;;
      set_prev hk None ;;;
      decr_size this ;;;
      ret nxt
  end.

(** [static void remove(T& value)]: it has no [this]. *)
Definition remove (value : positive) : M unit :=
  hk <- load_hook value ;;
  if negb (is_linked hk) then ret tt else
  (h <- load_hook value ;;
   match prev h with
   | Some q => set_next q (next h)
   | None => ret tt
   end) ;;;
  (h <- load_hook value ;;
   match next h with
   | Some q => set_prev q (prev h)
   | None => ret tt
   end) ;;;
  set_prev value None ;;;
  set_next value None.

(** ** Cross-list operations *)

Definition merge (this other : positive) : M unit :=
  e <- empty other ;;
  if e then ret tt else
  (tl <- get_tail this ;;
   match tl with
   | Some t =>
       (oh <- get_head other ;; set_next t oh) ;;;
       (oh <- get_head other ;; tl' <- get_tail this ;; set_prev_at oh tl') ;;;
       (ot <- get_tail other ;; set_tail this ot)
   | None =>
       (oh <- get_head other ;; set_head this oh) ;;;
       (ot <- get_tail other ;; set_tail this ot)
   end) ;;;
  (sz <- get_size this ;; osz <- get_size other ;; set_size this (wrap (sz + osz))) ;;;
  set_tail other None ;;;
  set_head other None ;;;
  set_size other 0.

(** [splice(iterator pos, IntrusiveList& other)] *)
Definition splice (this : positive) (pos : ptr) (other : positive) : M unit :=
  e <- empty other ;;
  if e then ret tt else
  (match pos with
   | None =>
       (tl <- get_tail this ;;
        match tl with
        | Some t =>
            (oh <- get_head other ;; set_next t oh) ;;;
            (oh <- get_head other ;; tl' <- get_tail this ;; set_prev_at oh tl')
        | None =>
            (oh <- get_head other ;; set_head this oh)
        end) ;;;
       (ot <- get_tail other ;; set_tail this ot)
   | Some posHook =>
       ph <- load_hook posHook ;;
       let prv := prev ph in
       (match prv with
        | Some q =>
            (oh <- get_head other ;; set_next q oh) ;;;
            (oh <- get_head other ;; set_prev_at oh prv)
        | None =>
            (oh <- get_head other ;; set_head this oh)
        end) ;;;
       (ot <- get_tail other ;; set_prev posHook ot) ;;;
       (ot <- get_tail other ;; set_next_at ot (Some posHook))
   end) ;;;
  (sz <- get_size this ;; osz <- get_size other ;; set_size this (wrap (sz + osz))) ;;;
  set_tail other None ;;;
  set_head other None ;;;
  set_size other 0.

(** The two loops of the range splice: [while (it != last)] recording the
    last hook passed, and the same loop counting. *)
Fixpoint block_tail (fuel : nat) (it last blockTail : ptr) : M ptr :=
  match fuel with
  | O => diverge
  | S f =>
      if bool_decide (it = last) then ret blockTail else
      it' <- incr it ;;
      block_tail f it' last it
  end.

Fixpoint count_run (fuel : nat) (it last : ptr) (count : Z) : M Z :=
  match fuel with
  | O => diverge
  | S f =>
      if bool_decide (it = last) then ret count else
      it' <- incr it ;;
      count_run f it' last (wrap (count + 1))
  end.

(** [splice(iterator pos, IntrusiveList& other, iterator first, iterator last)] *)
Definition splice_range (fuel : nat) (this : positive) (pos : ptr)
    (other : positive) (first last : ptr) : M unit :=
  if bool_decide (first = last) then ret tt else
  let firstHook := first in
  let posHook := pos in
  blockTail <- block_tail fuel first last None ;;
  (fh <- load_hook_at firstHook ;;
   match prev fh with
   | Some q => set_next q last
   | None => set_head other last
   end) ;;;
  (match last with
   | Some lh => fh <- load_hook_at firstHook ;; set_prev lh (prev fh)
   | None => fh <- load_hook_at firstHook ;; set_tail other (prev fh)
   end) ;;;
  count <- count_run fuel first last 0 ;;
  (osz <- get_size other ;; set_size other (wrap (osz - count))) ;;;
  (match posHook with
   | None =>
       (tl <- get_tail this ;;
        match tl with
        | Some t =>
            set_next t firstHook ;;;
            (tl' <- get_tail this ;; set_prev_at firstHook tl')
        | None =>
            set_head this firstHook ;;;
            set_prev_at firstHook None
        end) ;;;
       set_tail this blockTail ;;;
       set_next_at blockTail None
   | Some ph =>
       h <- load_hook ph ;;
       let prv := prev h in
       (match prv with
        | Some q =>
            set_next q firstHook ;;;
            set_prev_at firstHook prv
        | None =>
            set_head this firstHook ;;;
            set_prev_at firstHook None
        end) ;;;
       set_prev ph blockTail ;;;
       set_next_at blockTail (Some ph)
   end) ;;;
  (sz <- get_size this ;; set_size this (wrap (sz + count))).

(** ** Higher-level algorithms *)

(** [remove_if]: the body of the [for] loop, from the cursor [it]. *)
Fixpoint remove_if_from (fuel : nat) (this : positive) (p : Node → bool)
    (it : ptr) : M unit :=
  match fuel with
  | O => diverge
  | S f =>
      match it with
      | None => ret tt
      | Some a =>
          value <- load_node a ;;
          it1 <- incr it ;;
          let nxt := it1 in
          (if p value
           then it2 <- decr it1 ;; erase this it2 ;;; ret tt
           else ret tt) ;;;
          remove_if_from f this p nxt
      end
  end.

Definition remove_if (fuel : nat) (this : positive) (p : Node → bool) : M unit :=
  b <- begin this ;; remove_if_from fuel this p b.

(** ** Client loops

    [for (it = c; it != end(); ++it)] and [for (it = c; it != end(); --it)],
    collecting the elements the cursor passes. *)
Fixpoint forward_from (fuel : nat) (it : ptr) : M (list positive) :=
  match fuel with
  | O => diverge
  | S f =>
      match get_value it with
      | None => ret []
      | Some a => it' <- incr it ;; rest <- forward_from f it' ;; ret (a :: rest)
      end
  end.

Fixpoint backward_from (fuel : nat) (it : ptr) : M (list positive) :=
  match fuel with
  | O => diverge
  | S f =>
      match get_value it with
      | None => ret []
      | Some a => it' <- decr it ;; rest <- backward_from f it' ;; ret (a :: rest)
      end
  end.

(** [k] increments, [k] decrements *)
Fixpoint advance (k : nat) (it : ptr) : M ptr :=
  match k with
  | O => ret it
  | S k' => it' <- incr it ;; advance k' it'
  end.

Fixpoint retreat (k : nat) (it : ptr) : M ptr :=
  match k with
  | O => ret it
  | S k' => it' <- decr it ;; retreat k' it'
  end.

(** A sequence of [push_back]s *)
Fixpoint push_back_all (this : positive) (es : list positive) : M unit :=
  match es with
  | [] => ret tt
  | e :: es' => push_back this e ;;; push_back_all this es'
  end.

(** ** The remaining operations of [IntrusiveList] *)

(** [front()] and [back()]: the element behind [*begin()] and behind
    [*get_value(m_tail)]; dereferencing a null pointer is undefined. *)
Definition front (this : positive) : M positive :=
  e <- empty this ;;
  if e then throw EmptyContainer else
  b <- begin this ;;
  match get_value b with
  | Some a => ret a
  | None => undefined
  end.

Definition back (this : positive) : M positive :=
  e <- empty this ;;
  if e then throw EmptyContainer else
  tl <- get_tail this ;;
  match get_value tl with
  | Some a => ret a
  | None => undefined
  end.

(** [clear()]: [while (!empty()) pop_back();] *)
Fixpoint clear (fuel : nat) (this : positive) : M unit :=
  match fuel with
  | O => diverge
  | S f =>
      e <- empty this ;;
      if e then ret tt else
      pop_back this ;;;
      clear f this
  end.

(** [swap(other)]: three [std::swap]s, each [tmp = a; a = b; b = tmp]. *)
Definition swap (this other : positive) : M unit :=
  (a <- get_head this ;; b <- get_head other ;;
   set_head this b ;;; set_head other a) ;;;
  (a <- get_tail this ;; b <- get_tail other ;;
   set_tail this b ;;; set_tail other a) ;;;
  (a <- get_size this ;; b <- get_size other ;;
   set_size this b ;;; set_size other a).

(** [splice(iterator pos, IntrusiveList& other, iterator it)] *)
Definition splice_one (this : positive) (pos : ptr) (other : positive)
    (it : ptr) : M unit :=
  match it with
  | None => throw InvalidPosition
  | Some hk =>
      (h <- load_hook hk ;;
       match prev h with
       | Some q => set_next q (next h)
       | None => set_head other (next h)
       end) ;;;
      (h <- load_hook hk ;;
       match next h with
       | Some q => set_prev q (prev h)
       | None => set_tail other (prev h)
       end) ;;;
      decr_size other ;;;
      (match pos with
       | None =>
           (tl <- get_tail this ;; set_prev hk tl) ;;;
           set_next hk None ;;;
           (tl <- get_tail this ;;
            match tl with
            | Some t => set_next t (Some hk)
            | None => ret tt
            end) ;;;
           set_tail this (Some hk) ;;;
           (hd <- get_head this ;;
            match hd with
            | Some _ => ret tt
            | None => set_head this (Some hk)
            end)
       | Some posHook =>
           set_next hk (Some posHook) ;;;
           (ph <- load_hook posHook ;; set_prev hk (prev ph)) ;;;
           (ph <- load_hook posHook ;;
            match prev ph with
            | Some q => set_next q (Some hk)
            | None => set_head this (Some hk)
            end) ;;;
           set_prev posHook (Some hk)
       end) ;;;
      incr_size this
  end.

(** [*it] for a cursor that may be the end cursor *)
Definition load_node_at (q : ptr) : M Node :=
  match get_value q with
  | Some p => load_node p
  | None => undefined
  end.

(** [Node::operator==] *)
Definition node_eq (a b : Node) : bool := data a =? data b.

(** [unique()]: the [while (nextIt != end())] loop, then the function. *)
Fixpoint unique_from (fuel : nat) (this : positive) (it nextIt : ptr) : M unit :=
  match fuel with
  | O => diverge
  | S f =>
      match nextIt with
      | None => ret tt
      | Some _ =>
          a <- load_node_at it ;;
          b <- load_node_at nextIt ;;
          if node_eq a b
          then n <- erase this nextIt ;; unique_from f this it n
          else it' <- incr it ;; n <- incr nextIt ;; unique_from f this it' n
      end
  end.

Definition unique (fuel : nat) (this : positive) : M unit :=
  e <- empty this ;;
  if e then ret tt else
  it <- begin this ;;
  nextIt <- incr it ;;
  unique_from fuel this it nextIt.

(** ** Reading a chain against the elements

    [holds p m a]: the predicate [p] of the element at [a].
    [survivors p m xs]: the hooks of [xs] whose elements [p] does not hold
    of, in order.  [payload m a]: the [data] of the element at [a].
    [collapse m xs]: [xs] with every run of adjacent elements of equal
    [data] cut down to its first. *)
Definition holds (p : Node → bool) (m : Memory) (a : positive) : bool :=
  match nodes m !! a with
  | Some nd => p nd
  | None => false
  end.

Definition survivors (p : Node → bool) (m : Memory) (xs : list positive)
  : list positive :=
  List.filter (fun a => negb (holds p m a)) xs.

Definition payload (m : Memory) (a : positive) : Z :=
  match nodes m !! a with
  | Some nd => data nd
  | None => 0
  end.

Fixpoint collapse_after (m : Memory) (k : Z) (xs : list positive) : list positive :=
  match xs with
  | [] => []
  | x :: rest =>
      if k =? payload m x then collapse_after m k rest
      else x :: collapse_after m (payload m x) rest
  end.

Definition collapse (m : Memory) (xs : list positive) : list positive :=
  match xs with
  | [] => []
  | x :: rest => x :: collapse_after m (payload m x) rest
  end.

(** ** sort

    [sort()] is in the source:
    [void sort() { sort(std::less<T>()); }].
    The overload it calls is not. *)

(** Modelled from the spec: [sort(comparator)], which [sort()] calls and
    [IntrusiveListN.h] does not define.  The spec asks for a reordering of
    the chain "into non-descending order per the comparator, stable for
    equal elements, without reallocating or moving element storage, only
    relinking Links", and names merge sort over the chain as the algorithm
    that fits.  The model walks the chain, merge sorts the hooks it passed
    by the comparator on their elements, taking the left run on ties, and
    writes [prev] and [next] of every hook and the list's head and tail to
    spell the sorted order.  The count is not written. *)
Section MergeSort.
Context {A : Type} (le : A → A → bool).

Fixpoint merge_by (l1 : list A) : list A → list A :=
  fix merge_aux (l2 : list A) : list A :=
    match l1, l2 with
    | [], _ => l2
    | _, [] => l1
    | x1 :: l1', x2 :: l2' =>
        if le x1 x2 then x1 :: merge_by l1' l2 else x2 :: merge_aux l2'
    end.

Fixpoint msort_fuel (n : nat) (l : list A) : list A :=
  match n with
  | O => l
  | S n' =>
      match l with
      | [] => l
      | [_] => l
      | _ =>
          let k := (length l / 2)%nat in
          merge_by (msort_fuel n' (take k l)) (msort_fuel n' (drop k l))
      end
  end.

Definition msort (l : list A) : list A := msort_fuel (length l) l.
(** [le a b] as a proposition *)
Definition le_holds (a b : A) : Prop := le a b = true.

(** [x] is tied with [k]: each is at most the other. *)
Definition tied_le (k x : A) : bool := le k x && le x k.
End MergeSort.

(** Modelled from the spec: the elements behind the hooks of a chain, read
    for the comparator of [sort(comparator)]. *)
Fixpoint load_all (xs : list positive) : M (list (positive * Node)) :=
  match xs with
  | [] => ret []
  | x :: rest =>
      nd <- load_node x ;;
      els <- load_all rest ;;
      ret ((x, nd) :: els)
  end.

(** Modelled from the spec: "only relinking Links", the writes of
    [sort(comparator)] to the hooks. *)
Fixpoint relink (p : ptr) (xs : list positive) : M unit :=
  match xs with
  | [] => ret tt
  | x :: rest =>
      set_prev x p ;;;
      set_next x (head rest) ;;;
      relink (Some x) rest
  end.

(** Modelled from the spec: [sort(comparator)]. *)
Definition sort_by (fuel : nat) (comparator : Node → Node → bool)
    (this : positive) : M unit :=
  b <- begin this ;;
  xs <- forward_from fuel b ;;
  els <- load_all xs ;;
  let sorted := (msort (fun a b => negb (comparator (snd b) (snd a))) els).*1 in
  relink None sorted ;;;
  set_head this (head sorted) ;;;
  set_tail this (last sorted).

(** Modelled from the spec: [std::less<Node>].  [Node] declares no
    [operator<]; the default ordering is taken on [data], the member its
    [operator==] compares. *)
Definition less (a b : Node) : bool := data a <? data b.

(** [sort()] *)
Definition sort (fuel : nat) (this : positive) : M unit :=
  sort_by fuel less this.

(** What the spec asks of a comparator: a strict weak ordering of the
    elements, which looks at the elements and not at their links. *)
Record strict_weak (cmp : Node → Node → bool) : Prop := {
  sw_asym : ∀ a b, cmp a b = true → cmp b a = false;
  sw_negtrans : ∀ a b c, cmp a c = true → cmp a b = true ∨ cmp b c = true;
  sw_payload : ∀ a b a' b', data a = data a' → data b = data b' → cmp a b = cmp a' b'
}.

(** [a] and [b] are equal for the comparator: neither is before the other. *)
Definition tied (cmp : Node → Node → bool) (a b : Node) : bool :=
  negb (cmp a b) && negb (cmp b a).

(** The hooks of [xs] whose elements are tied with [k], in the order of [xs]. *)
Definition ties_of (cmp : Node → Node → bool) (h : gmap positive Node)
    (k : Node) (xs : list positive) : list positive :=
  List.filter (fun a => match h !! a with
                        | Some na => tied cmp k na
                        | None => false
                        end) xs.

(** ** The representation invariant

    [chain h p xs n]: the hooks at the addresses [xs] are linked to one
    another in that order, the first one's [prev] is [p] and the last one's
    [next] is [n]. *)

Definition hd_ptr (xs : list positive) (n : ptr) : ptr :=
  match xs with
  | [] => n
  | x :: _ => Some x
  end.

Definition last_ptr (p : ptr) (xs : list positive) : ptr :=
  match last xs with
  | Some x => Some x
  | None => p
  end.

Fixpoint chain (h : gmap positive Node) (p : ptr) (xs : list positive) (n : ptr) : Prop :=
  match xs with
  | [] => True
  | x :: xs' =>
      ∃ nd, h !! x = Some nd ∧ prev (hook nd) = p ∧
            next (hook nd) = hd_ptr xs' n ∧ chain h (Some x) xs' n
  end.

(** The list object [l] threads exactly the hooks [xs], whatever its count. *)
Definition threads (m : Memory) (l : positive) (xs : list positive) (sz : Z) : Prop :=
  lists m !! l = Some (mkList (head xs) (last xs) sz) ∧
  NoDup xs ∧
  chain (nodes m) None xs None.

(** The invariant of the data model: head, tail and count agree with the
    chain, and the count fits [size_type]. *)
Definition wf_list (m : Memory) (l : positive) (xs : list positive) : Prop :=
  threads m l xs (Z.of_nat (length xs)) ∧ Z.of_nat (length xs) < size_max.

(** The chain [ys] is in non-descending order for the comparator: no
    element is before an earlier one. *)
Definition sorted_chain (cmp : Node → Node → bool) (m : Memory)
    (ys : list positive) : Prop :=
  ∀ i j a b na nb, (i < j)%nat → ys !! i = Some a → ys !! j = Some b →
    nodes m !! a = Some na → nodes m !! b = Some nb → cmp nb na = false.

(** What [sort] owes: from the list [xs] in [m] to the list [ys] in [m'].
    The invariant holds of [ys]; [ys] is a reordering of [xs], in order
    for the comparator, with tied elements in their old order; payloads
    are where they were, and nothing outside the chain and the list object
    is written. *)
Definition sort_post (cmp : Node → Node → bool) (m : Memory) (l : positive)
    (xs : list positive) (m' : Memory) (ys : list positive) : Prop :=
  wf_list m' l ys ∧ ys ≡ₚ xs ∧
  sorted_chain cmp m' ys ∧
  (∀ k, ties_of cmp (nodes m') k ys = ties_of cmp (nodes m') k xs) ∧
  (∀ a, data <$> nodes m' !! a = data <$> nodes m !! a) ∧
  (∀ a, a ∉ xs → nodes m' !! a = nodes m !! a) ∧
  (∀ l', l' ≠ l → lists m' !! l' = lists m !! l').

(** A freshly constructed [Node]: its hook is [{nullptr, nullptr}]. *)
Definition fresh (m : Memory) (e : positive) : Prop :=
  ∃ nd, nodes m !! e = Some nd ∧ hook nd = mkHook None None.

(** The invariant as the data model words it: the count is zero exactly
    when the head is null, exactly when the tail is null; walking [next]
    from the head passes [m_size] hooks, the last of them the tail; walking
    [prev] from the tail passes [m_size] hooks, the last of them the head. *)
Definition list_invariant (m : Memory) (l : positive) : Prop :=
  ∃ L, lists m !! l = Some L ∧
    (m_size L = 0 ↔ m_head L = None) ∧
    (m_head L = None ↔ m_tail L = None) ∧
    (∃ fuel xs, forward_from fuel (m_head L) m = Ok xs m ∧
                Z.of_nat (length xs) = m_size L ∧ last xs = m_tail L) ∧
    (∃ fuel ys, backward_from fuel (m_tail L) m = Ok ys m ∧
                Z.of_nat (length ys) = m_size L ∧ last ys = m_head L).

(** [same_payloads m m']: node for node, [m'] holds the payloads of [m];
    in particular the two memories have the same nodes.
    [keeps_payloads c]: whatever memory [c] starts from, the memory it
    returns or throws in has the same payloads. *)
Definition same_payloads (m m' : Memory) : Prop :=
  ∀ b, data <$> nodes m' !! b = data <$> nodes m !! b.

Definition keeps_payloads {A} (c : M A) : Prop :=
  ∀ m, match c m with
       | Ok _ m' | Throw _ m' => same_payloads m m'
       | _ => True
       end.

(** ** A small memory for the concrete scenarios

    Four freshly constructed nodes at addresses 1 to 4, carrying 10, 20,
    30 and 40, and two empty lists, 1 and 2. *)
Definition fresh_node (d : Z) : Node := mkNode (mkHook None None) d.

Definition demo : Memory :=
  mkMem
    (list_to_map [(1%positive, fresh_node 10); (2%positive, fresh_node 20);
                  (3%positive, fresh_node 30); (4%positive, fresh_node 40)])
    (list_to_map [(1%positive, empty_list); (2%positive, empty_list)]).

(** The lists 1 = [1; 2] and 2 = [3; 4] over the same four nodes. *)
Definition two_lists : Memory :=
  mkMem
    (list_to_map
       [(1%positive, mkNode (mkHook None (Some 2%positive)) 10);
        (2%positive, mkNode (mkHook (Some 1%positive) None) 20);
        (3%positive, mkNode (mkHook None (Some 4%positive)) 30);
        (4%positive, mkNode (mkHook (Some 3%positive) None) 40)])
    (list_to_map
       [(1%positive, mkList (Some 1%positive) (Some 2%positive) 2);
        (2%positive, mkList (Some 3%positive) (Some 4%positive) 2)]).

(** The list 1 = [1; 2; 3; 4] over nodes carrying 20, 10, 20, 10. *)
Definition shuffled : Memory :=
  mkMem
    (list_to_map
       [(1%positive, mkNode (mkHook None (Some 2%positive)) 20);
        (2%positive, mkNode (mkHook (Some 1%positive) (Some 3%positive)) 10);
        (3%positive, mkNode (mkHook (Some 2%positive) (Some 4%positive)) 20);
        (4%positive, mkNode (mkHook (Some 3%positive) None) 10)])
    (list_to_map
       [(1%positive, mkList (Some 1%positive) (Some 4%positive) 4)]).

(** The list 1 = [1; 2; 3] over nodes carrying 10, 10, 20, the list 2
    empty, and a freshly constructed node 4 carrying 40. *)
Definition spare : Memory :=
  mkMem
    (list_to_map
       [(1%positive, mkNode (mkHook None (Some 2%positive)) 10);
        (2%positive, mkNode (mkHook (Some 1%positive) (Some 3%positive)) 10);
        (3%positive, mkNode (mkHook (Some 2%positive) None) 20);
        (4%positive, fresh_node 40)])
    (list_to_map
       [(1%positive, mkList (Some 1%positive) (Some 3%positive) 3);
        (2%positive, empty_list)]).

(** What a concrete run leaves behind, in a form that computes. *)
Definition outcome_view {A} (o : Outcome A)
  : option (A + Error) * list (positive * Node) * list (positive * IntrusiveList) :=
  match o with
  | Ok a m => (Some (inl a), map_to_list (nodes m), map_to_list (lists m))
  | Throw e m => (Some (inr e), map_to_list (nodes m), map_to_list (lists m))
  | Undefined => (None, [], [])
  | Diverge => (None, [], [])
  end.

Definition list_of (l : positive) {A} (o : Outcome A) : option IntrusiveList :=
  match o with
  | Ok _ m => lists m !! l
  | Throw _ m => lists m !! l
  | _ => None
  end.

Definition node_of (a : positive) {A} (o : Outcome A) : option Node :=
  match o with
  | Ok _ m => nodes m !! a
  | Throw _ m => nodes m !! a
  | _ => None
  end.

Definition thrown {A} (o : Outcome A) : option Error :=
  match o with
  | Throw e _ => Some e
  | _ => None
  end.

Definition returned {A} (o : Outcome A) : option A :=
  match o with
  | Ok a _ => Some a
  | _ => None
  end.

(** * Proofs *)

(** ** Running the monad *)

Ltac unfold_prims :=
  unfold incr_size, decr_size, begin, empty, size, set_head, set_tail, set_size,
    get_head, get_tail, get_size, get_value, incr, decr,
    set_prev_at, set_next_at, load_hook_at, set_prev, set_next, load_hook,
    load_node, store_node, load_list, store_list,
    bind, ret, throw, undefined, diverge in *.

Ltac lookup_step :=
  match goal with
  | |- context [ <[?a := _]> _ !! ?a ] => rewrite lookup_insert_eq
  | |- context [ <[?a := _]> _ !! ?b ] =>
      rewrite (lookup_insert_ne _ a b) by (first [done | congruence])
  | H : ?h !! ?k = Some _ |- context [ ?h !! ?k ] => rewrite H
  end.

Lemma prev_with_prev v nd : prev (hook (with_prev v nd)) = v.
Proof. done. Qed.
Lemma next_with_prev v nd : next (hook (with_prev v nd)) = next (hook nd).
Proof. done. Qed.
Lemma prev_with_next v nd : prev (hook (with_next v nd)) = prev (hook nd).
Proof. done. Qed.
Lemma next_with_next v nd : next (hook (with_next v nd)) = v.
Proof. done. Qed.
Lemma data_with_prev v nd : data (with_prev v nd) = data nd.
Proof. done. Qed.
Lemma data_with_next v nd : data (with_next v nd) = data nd.
Proof. done. Qed.

Ltac field_step :=
  match goal with
  | |- context [ prev (hook (with_prev ?v ?nd)) ] => rewrite (prev_with_prev v nd)
  | |- context [ next (hook (with_prev ?v ?nd)) ] => rewrite (next_with_prev v nd)
  | |- context [ prev (hook (with_next ?v ?nd)) ] => rewrite (prev_with_next v nd)
  | |- context [ next (hook (with_next ?v ?nd)) ] => rewrite (next_with_next v nd)
  | |- context [ data (with_prev ?v ?nd) ] => rewrite (data_with_prev v nd)
  | |- context [ data (with_next ?v ?nd) ] => rewrite (data_with_next v nd)
  end.

Ltac run :=
  repeat (cbn [nodes lists m_head m_tail m_size hook prev next data
               nonnull is_linked orb negb];
          try lookup_step; try field_step).

Lemma bind_Ok {A B} (c : M A) (k : A → M B) m a m' :
  c m = Ok a m' → bind c k m = k a m'.
Proof. unfold bind. by intros ->. Qed.

Lemma load_node_Ok m p nd :
  nodes m !! p = Some nd → load_node p m = Ok nd m.
Proof. unfold load_node. by intros ->. Qed.

Lemma load_hook_Ok m p nd :
  nodes m !! p = Some nd → load_hook p m = Ok (hook nd) m.
Proof. unfold load_hook, bind, load_node, ret. by intros ->. Qed.

Lemma store_node_Ok m p f nd :
  nodes m !! p = Some nd →
  store_node p f m = Ok tt (mkMem (<[p := f nd]> (nodes m)) (lists m)).
Proof. unfold store_node. by intros ->. Qed.

Lemma load_list_Ok m l L :
  lists m !! l = Some L → load_list l m = Ok L m.
Proof. unfold load_list. by intros ->. Qed.

Lemma store_list_Ok m l f L :
  lists m !! l = Some L →
  store_list l f m = Ok tt (mkMem (nodes m) (<[l := f L]> (lists m))).
Proof. unfold store_list. by intros ->. Qed.

(** ** Chains *)

Lemma chain_ext h h' p xs n :
  (∀ x, x ∈ xs → h' !! x = h !! x) → chain h p xs n → chain h' p xs n.
Proof.
  revert p. induction xs as [|x xs IH]; intros p Hagree; simpl; [done|].
  intros (nd & Hx & Hp & Hn & Hrest).
  exists nd. split_and!; try done.
  - rewrite Hagree; [done | left].
  - apply IH; [|done]. intros y Hy. apply Hagree. by right.
Qed.

Lemma chain_insert_fresh h p xs n a nd :
  a ∉ xs → chain h p xs n → chain (<[a := nd]> h) p xs n.
Proof.
  intros Ha. apply chain_ext. intros x Hx.
  apply lookup_insert_ne. intros ->. done.
Qed.

Lemma chain_is_Some h p xs n x :
  chain h p xs n → x ∈ xs → is_Some (h !! x).
Proof.
  revert p. induction xs as [|y xs IH]; intros p; simpl.
  - intros _ Hx. inversion Hx.
  - intros (nd & Hy & _ & _ & Hrest) Hx.
    apply elem_of_cons in Hx as [->|Hx]; [by eexists | by eapply IH].
Qed.

Lemma last_ptr_cons p x xs : last_ptr p (x :: xs) = last_ptr (Some x) xs.
Proof.
  unfold last_ptr. destruct xs as [|y ys]; [done|].
  rewrite last_cons_cons. destruct (last (y :: ys)) eqn:E; [done|].
  by apply last_None in E.
Qed.

Lemma chain_app h p xs ys n :
  chain h p (xs ++ ys) n ↔
  chain h p xs (hd_ptr ys n) ∧ chain h (last_ptr p xs) ys n.
Proof.
  revert p. induction xs as [|x xs IH]; intros p; simpl.
  - unfold last_ptr. simpl. tauto.
  - rewrite last_ptr_cons. setoid_rewrite IH.
    assert (hd_ptr (xs ++ ys) n = hd_ptr xs (hd_ptr ys n)) as ->
      by by destruct xs.
    split.
    + intros (nd & ? & ? & ? & ? & ?). split; [|done]. by exists nd.
    + intros [(nd & ? & ? & ? & ?) ?]. by exists nd.
Qed.

Lemma chain_set_prev h p p' x xs n nd :
  x ∉ xs → h !! x = Some nd →
  chain h p (x :: xs) n → chain (<[x := with_prev p' nd]> h) p' (x :: xs) n.
Proof.
  intros Hx Hnd. simpl. intros (nd' & Hx' & _ & Hn & Hrest).
  assert (nd' = nd) as -> by congruence.
  exists (with_prev p' nd). rewrite lookup_insert_eq. split_and!; try done.
  by apply chain_insert_fresh.
Qed.

Lemma chain_set_next h p x xs n n' nd :
  x ∉ xs → h !! x = Some nd →
  chain h p (xs ++ [x]) n → chain (<[x := with_next n' nd]> h) p (xs ++ [x]) n'.
Proof.
  intros Hx Hnd. rewrite !chain_app. simpl.
  intros [Hxs (nd' & Hx' & Hp & _ & _)].
  assert (nd' = nd) as -> by congruence.
  split; [by apply chain_insert_fresh|].
  exists (with_next n' nd). by rewrite lookup_insert_eq.
Qed.

Lemma last_ptr_snoc p xs x : last_ptr p (xs ++ [x]) = Some x.
Proof. unfold last_ptr. by rewrite last_snoc. Qed.

(** ** push_back on a threaded list *)

Lemma push_back_threads m l xs sz e :
  threads m l xs sz → e ∉ xs → fresh m e →
  ∃ m', push_back l e m = Ok tt m' ∧
        threads m' l (xs ++ [e]) (wrap (sz + 1)) ∧
        (∀ a, a ∉ xs → a ≠ e → nodes m' !! a = nodes m !! a) ∧
        (∀ l', l' ≠ l → lists m' !! l' = lists m !! l').
Proof.
  intros (HL & Hnd & Hch) He (nd & Hnode & Hhook).
  assert (NoDup (xs ++ [e])) as Hnd'.
  { apply NoDup_app. split_and!; [done| |apply NoDup_singleton].
    intros x Hx Hxe. apply list_elem_of_singleton in Hxe. by subst. }
  unfold push_back. unfold_prims. run. rewrite Hhook. run.
  destruct xs as [|t xs _] using rev_ind.
  - simpl in *. run. rewrite !insert_insert_eq.
    eexists. split; [reflexivity|]. unfold threads. simpl. split_and!.
    + by rewrite lookup_insert_eq.
    + done.
    + eexists. rewrite lookup_insert_eq. done.
    + intros a _ Ha. by rewrite lookup_insert_ne.
    + intros l' Hl'. by rewrite lookup_insert_ne.
  - rewrite last_snoc in HL. rewrite ?last_snoc. run.
    assert (t ≠ e) by set_solver.
    destruct (chain_is_Some _ _ _ _ t Hch) as [nt Hnt]; [set_solver|].
    apply NoDup_app in Hnd as (Hnd & Hdisj & _).
    assert (t ∉ xs) by set_solver.
    run.
    assert (head ((xs ++ [t]) ++ [e]) = head (xs ++ [t])) as Hhd by by destruct xs.
    destruct (head (xs ++ [t])) as [hd|] eqn:Hhead; [|by destruct xs].
    run. rewrite !insert_insert_eq.
    eexists. split; [reflexivity|]. unfold threads. simpl. split_and!.
    + by rewrite lookup_insert_eq, Hhd, last_snoc.
    + done.
    + apply chain_app. split.
      * apply chain_set_next with (n := None); [done| by rewrite lookup_insert_ne |].
        by apply chain_insert_fresh.
      * rewrite last_ptr_snoc. simpl.
        eexists. rewrite lookup_insert_ne by done. rewrite lookup_insert_eq.
        done.
    + intros a Ha Hae. rewrite !lookup_insert_ne; [done|congruence|set_solver].
    + intros l' Hl'. by rewrite lookup_insert_ne.
Qed.

(** ** The already-linked guard *)

(** A hook with a non-null [prev] or [next] is refused by the three
    inserting operations, and nothing is written. *)
Lemma linked_element_rejected m l pos e nd :
  nodes m !! e = Some nd → is_linked (hook nd) = true →
  push_front l e m = Throw AlreadyLinked m ∧
  push_back l e m = Throw AlreadyLinked m ∧
  insert l pos e m = Throw AlreadyLinked m.
Proof.
  intros Hnd Hlinked.
  unfold push_front, push_back, insert. unfold_prims.
  by rewrite Hnd, Hlinked.
Qed.

(** C1, at its failing input.  List 1 holds node 1 as its only element;
    [push_back], [push_front] and [insert] of that node into list 2 all
    return normally instead of throwing, and list 2 ends up threading a
    node that list 1 still threads. *)
Theorem sole_element_of_A_enters_B :
  let A := 1%positive in
  let B := 2%positive in
  let e := 1%positive in
  let both := Some (mkList (Some e) (Some e) 1) in
  returned (push_back A e demo) = Some tt ∧
  list_of A (push_back A e demo) = both ∧
  (∀ o, o ∈ [ (push_back A e ;;; push_back B e) demo;
              (push_back A e ;;; push_front B e) demo;
              (push_back A e ;;; insert B end_ e) demo ] →
        thrown o = None ∧ returned o = Some tt ∧
        list_of A o = both ∧ list_of B o = both).
Proof.
  split_and!; [done..|].
  intros o Ho. repeat (apply elem_of_cons in Ho as [->|Ho]; [by vm_compute|]).
  inversion Ho.
Qed.

(** C6.  An unlinked element pushed into an empty list by [push_back] or
    by [push_front] becomes the only element of the list, its hook keeps
    [prev = nullptr] and [next = nullptr], and [is_linked] answers false. *)
Theorem sole_element_reports_unlinked m l e nd :
  lists m !! l = Some empty_list →
  nodes m !! e = Some nd →
  is_linked (hook nd) = false →
  ∀ push, push ∈ [push_back; push_front] →
  ∃ m' nd', push l e m = Ok tt m' ∧
    lists m' !! l = Some (mkList (Some e) (Some e) 1) ∧
    (b <- begin l ;; forward_from 2 b) m' = Ok [e] m' ∧
    nodes m' !! e = Some nd' ∧
    prev (hook nd') = None ∧ next (hook nd') = None ∧
    is_linked (hook nd') = false.
Proof.
  intros HL Hnd Hun push Hpush. unfold empty_list in HL.
  apply elem_of_cons in Hpush as [->|Hpush];
    [|apply elem_of_cons in Hpush as [->|Hpush]; [|inversion Hpush]].
  - unfold push_back. unfold_prims. run. rewrite Hun. run.
    eexists _, (with_prev None (with_next None nd)).
    split; [reflexivity|]. simpl. unfold_prims. run. done.
  - unfold push_front. unfold_prims. run. rewrite Hun. run.
    eexists _, (with_next None (with_prev None nd)).
    split; [reflexivity|]. simpl. unfold_prims. run. done.
Qed.

Lemma sole_element_reports_unlinked_witness :
  ∃ m' nd', push_back 1 1 demo = Ok tt m' ∧
    lists m' !! 1%positive = Some (mkList (Some 1%positive) (Some 1%positive) 1) ∧
    (b <- begin 1 ;; forward_from 2 b) m' = Ok [1%positive] m' ∧
    nodes m' !! 1%positive = Some nd' ∧
    prev (hook nd') = None ∧ next (hook nd') = None ∧
    is_linked (hook nd') = false.
Proof.
  apply (sole_element_reports_unlinked demo 1 1 (fresh_node 10)).
  - reflexivity.
  - reflexivity.
  - reflexivity.
  - left.
Defined.

(** ** The static remove *)

Ltac conclude_remove :=
  eexists; split; [reflexivity|]; cbn [nodes lists]; split_and!;
  [ done
  | done
  | intros a ? ? ?; by rewrite ?lookup_insert_ne by congruence
  | intros a; rewrite ?lookup_insert;
    repeat case_decide; subst; simpl;
    repeat match goal with H : _ !! _ = Some _ |- _ => rewrite H end; done
  | by rewrite ?lookup_insert_eq
  | done ].

(** C9.  [remove(e)], for an element whose linked neighbours are live
    nodes: it returns; no list object is written, and none is read (the
    nodes it leaves are the same whatever the list objects are); outside
    [e] and its two neighbours no node changes; no payload changes; the
    hook of [e] ends [{nullptr, nullptr}].  So a list whose head or tail
    was [e] still has that field pointing at [e]. *)
Theorem remove_touches_no_list m e nd :
  nodes m !! e = Some nd →
  (∀ a, prev (hook nd) = Some a ∨ next (hook nd) = Some a → is_Some (nodes m !! a)) →
  ∃ m', remove e m = Ok tt m' ∧
    lists m' = lists m ∧
    (∀ ls, remove e (mkMem (nodes m) ls) = Ok tt (mkMem (nodes m') ls)) ∧
    (∀ a, a ≠ e → prev (hook nd) ≠ Some a → next (hook nd) ≠ Some a →
          nodes m' !! a = nodes m !! a) ∧
    (∀ a, data <$> nodes m' !! a = data <$> nodes m !! a) ∧
    hook <$> nodes m' !! e = Some (mkHook None None) ∧
    (∀ l L, lists m !! l = Some L → m_head L = Some e ∨ m_tail L = Some e →
            lists m' !! l = Some L).
Proof.
  intros Hnd Hvalid.
  destruct nd as [[p n] d]. simpl in Hvalid.
  unfold remove. unfold_prims. run.
  destruct p as [p|], n as [n|]; run.
  - destruct (Hvalid p) as [ndp Hp]; [by left|].
    destruct (Hvalid n) as [ndn Hn]; [by right|].
    destruct (decide (p = e)) as [->|Hpe]; destruct (decide (n = e)) as [->|Hne];
      try destruct (decide (p = n)) as [->|Hpn]; run.
    all: try (simplify_eq; run).
    all: conclude_remove.
  - destruct (Hvalid p) as [ndp Hp]; [by left|].
    destruct (decide (p = e)) as [->|Hpe]; run.
    all: try (simplify_eq; run).
    all: conclude_remove.
  - destruct (Hvalid n) as [ndn Hn]; [by right|].
    destruct (decide (n = e)) as [->|Hne]; run.
    all: try (simplify_eq; run).
    all: conclude_remove.
  - eexists. split; [reflexivity|]. split_and!; try done.
    by rewrite Hnd.
Qed.

(** The head of the list [1; 2] removed through the static [remove]: the
    list object still says head 1, tail 2, count 2, while node 1 is
    unlinked and the walk from the head passes one hook. *)
Example remove_head_leaves_list_object :
  let o := (push_back 1 1 ;;; push_back 1 2 ;;; remove 1 ;;;
            b <- begin 1 ;; forward_from 5 b) demo in
  returned o = Some [1%positive] ∧
  list_of 1 o = Some (mkList (Some 1%positive) (Some 2%positive) 2) ∧
  node_of 1 o = Some (fresh_node 10).
Proof. by vm_compute. Qed.

(** ** pop_back and the head *)

(** C4, at its failing input.  [push_back] of one element and then
    [pop_back]: the count is 0 and the tail is null, but the head still
    points at the popped element, so the invariant does not hold. *)
Theorem pop_back_of_sole_element_keeps_head :
  ∃ m', (push_back 1 1 ;;; pop_back 1) demo = Ok tt m' ∧
        lists m' !! 1%positive = Some (mkList (Some 1%positive) None 0) ∧
        ¬ list_invariant m' 1.
Proof.
  eexists. split; [by vm_compute|]. split; [by vm_compute|].
  intros (L & HL & Hsz & _). vm_compute in HL. injection HL as <-.
  simpl in Hsz. by destruct Hsz as [Hsz _]; specialize (Hsz eq_refl).
Qed.

(** [pop_front] of the same list resets both ends. *)
Example pop_front_of_sole_element :
  list_of 1 ((push_back 1 1 ;;; pop_front 1) demo) = Some empty_list.
Proof. by vm_compute. Qed.

(** ** remove_if and the last element *)

(** C2, at its failing input.  On the list [1; 2] with a predicate that
    holds of the last element only, [remove_if] throws the error of
    [erase] on the end cursor, and the element is still linked. *)
Theorem remove_if_throws_on_last :
  let p := fun n : Node => data n =? 20 in
  let o := (push_back 1 1 ;;; push_back 1 2 ;;; remove_if 10 1 p) demo in
  thrown o = Some InvalidPosition ∧
  list_of 1 o = Some (mkList (Some 1%positive) (Some 2%positive) 2) ∧
  node_of 2 o = Some (mkNode (mkHook (Some 1%positive) None) 20).
Proof. by vm_compute. Qed.

(** ** The end cursor *)

(** C10.  [++] and [--] leave the end cursor where it is, any number of
    times; no number of decrements takes it to an element. *)
Theorem end_cursor_is_fixed m :
  incr end_ m = Ok end_ m ∧
  decr end_ m = Ok end_ m ∧
  (∀ k, advance k end_ m = Ok end_ m) ∧
  (∀ k, retreat k end_ m = Ok end_ m) ∧
  (∀ k t m', retreat k end_ m ≠ Ok (Some t) m').
Proof.
  assert (∀ k, retreat k end_ m = Ok end_ m) as Hretreat.
  { induction k as [|k IH]; [done|]. simpl. by unfold bind. }
  split_and!; try done.
  - induction k as [|k IH]; [done|]. simpl. by unfold bind.
  - intros k t m'. by rewrite Hretreat.
Qed.

(** ** Walking a chain *)

Lemma forward_from_chain m p xs fuel :
  chain (nodes m) p xs None → (length xs < fuel)%nat →
  forward_from fuel (hd_ptr xs None) m = Ok xs m.
Proof.
  revert p fuel. induction xs as [|x xs IH]; intros p fuel Hch Hfuel.
  - destruct fuel; [simpl in Hfuel; lia|]. done.
  - destruct fuel as [|fuel]; [simpl in Hfuel; lia|].
    destruct Hch as (nd & Hx & _ & Hn & Hrest).
    simpl. unfold_prims. run. rewrite Hn.
    rewrite (IH (Some x) fuel Hrest); [done | simpl in Hfuel; lia].
Qed.

Lemma backward_from_chain m xs n fuel :
  chain (nodes m) None xs n → (length xs < fuel)%nat →
  backward_from fuel (last_ptr None xs) m = Ok (rev xs) m.
Proof.
  revert n fuel. induction xs as [|x xs IH] using rev_ind; intros n fuel Hch Hfuel.
  - destruct fuel; [simpl in Hfuel; lia|]. done.
  - rewrite length_app in Hfuel. simpl in Hfuel.
    destruct fuel as [|fuel]; [lia|].
    apply chain_app in Hch as [Hxs (nd & Hx & Hp & _ & _)].
    rewrite last_ptr_snoc, rev_unit.
    simpl. unfold_prims. run. rewrite Hp.
    rewrite (IH (Some x) fuel Hxs); [done | lia].
Qed.

Lemma advance_chain m p xs n k x :
  chain (nodes m) p xs n → xs !! k = Some x →
  advance k (hd_ptr xs n) m = Ok (Some x) m.
Proof.
  revert p xs. induction k as [|k IH]; intros p xs Hch Hk.
  - destruct xs as [|y ys]; simplify_eq/=. done.
  - destruct xs as [|y ys]; simplify_eq/=.
    destruct Hch as (nd & Hy & _ & Hn & Hrest).
    unfold_prims. run. rewrite Hn. by apply (IH (Some y)).
Qed.

(** ** A sequence of push_back *)

Lemma push_back_all_threads m l xs sz es :
  threads m l xs sz → NoDup (xs ++ es) → Forall (fresh m) es →
  ∃ m' sz', push_back_all l es m = Ok tt m' ∧ threads m' l (xs ++ es) sz'.
Proof.
  revert m xs sz. induction es as [|e es IH]; intros m xs sz Hth Hnd Hfresh.
  - exists m, sz. by rewrite app_nil_r.
  - apply Forall_cons in Hfresh as [He Hes].
    assert (e ∉ xs) as Hexs.
    { apply NoDup_app in Hnd as (_ & Hd & _). intros Hin. apply (Hd e Hin). left. }
    destruct (push_back_threads m l xs sz e Hth Hexs He) as (m1 & Hrun & Hth1 & Hframe & _).
    destruct (IH m1 (xs ++ [e]) (wrap (sz + 1))) as (m' & sz' & Hrun' & Hth').
    + done.
    + by rewrite <- app_assoc.
    + apply Forall_forall. intros a Ha.
      rewrite Forall_forall in Hes. destruct (Hes a Ha) as (nd & Hnd' & Hhook).
      exists nd. split; [|done]. rewrite Hframe; [done| |].
      * apply NoDup_app in Hnd as (_ & Hd & _). intros Hin. apply (Hd a Hin). by right.
      * apply NoDup_app in Hnd as (_ & _ & Hd). apply NoDup_cons in Hd as [Hd _].
        intros ->. done.
    + exists m', sz'. split; [|by rewrite <- app_assoc in Hth'].
      simpl. unfold bind. by rewrite Hrun.
Qed.

(** C8.  Distinct, freshly constructed elements [es] pushed in turn by
    [push_back] into an empty list: every push returns; the loop from
    [begin()] to [end()] passes [es] in order; the loop that starts at the
    position of the last element and decrements passes [es] reversed. *)
Theorem push_back_round_trip m l es fuel :
  lists m !! l = Some empty_list →
  NoDup es → Forall (fresh m) es → (length es < fuel)%nat →
  ∃ m', push_back_all l es m = Ok tt m' ∧
        (b <- begin l ;; forward_from fuel b) m' = Ok es m' ∧
        (b <- begin l ;; c <- advance (length es - 1) b ;; backward_from fuel c) m'
          = Ok (rev es) m'.
Proof.
  intros HL Hnd Hfresh Hfuel.
  destruct (push_back_all_threads m l [] 0 es) as (m' & sz' & Hrun & HL' & _ & Hch);
    [by split_and!; [done|constructor|] | done | done |].
  simpl in *. exists m'. split; [done|].
  unfold begin, get_head, load_list, bind, ret. rewrite HL'. cbn [m_head].
  assert (head es = hd_ptr es None) as -> by by destruct es.
  split; [by eapply forward_from_chain|].
  destruct es as [|e es _] using rev_ind.
  - simpl. destruct fuel; [simpl in Hfuel; lia|]. done.
  - rewrite length_app. simpl.
    rewrite (advance_chain m' None (es ++ [e]) None _ e Hch).
    + rewrite <- (last_ptr_snoc None es e). by eapply backward_from_chain.
    + rewrite lookup_app_r by lia. by replace (_ - _)%nat with 0%nat by lia.
Qed.

Lemma push_back_round_trip_witness :
  ∃ m', push_back_all 1 [1; 2; 3]%positive demo = Ok tt m' ∧
        (b <- begin 1 ;; forward_from 4 b) m' = Ok [1; 2; 3]%positive m' ∧
        (b <- begin 1 ;; c <- advance 2 b ;; backward_from 4 c) m'
          = Ok [3; 2; 1]%positive m'.
Proof.
  apply (push_back_round_trip demo 1 [1; 2; 3]%positive 4).
  - reflexivity.
  - by apply (bool_decide_unpack _).
  - repeat constructor; by eexists.
  - simpl. lia.
Defined.

(** ** merge and the whole-list splice *)

Lemma list_ends (ys : list positive) :
  ys = [] ∨ (∃ y, ys = [y]) ∨ (∃ y mid t, ys = y :: mid ++ [t]).
Proof.
  destruct ys as [|y ys]; [by left|right].
  destruct ys as [|t ys _] using rev_ind; [left|right]; eauto.
Qed.

Lemma wrap_small z : 0 ≤ z < size_max → wrap z = z.
Proof. intros. unfold wrap. by apply Z.mod_small. Qed.

Lemma merge_wf m this other xs ys :
  this ≠ other →
  wf_list m this xs → wf_list m other ys → xs ## ys →
  Z.of_nat (length xs + length ys) < size_max →
  ∃ m', merge this other m = Ok tt m' ∧
        wf_list m' this (xs ++ ys) ∧
        wf_list m' other [] ∧
        (∀ a, a ∉ xs → a ∉ ys → nodes m' !! a = nodes m !! a) ∧
        (∀ l, l ≠ this → l ≠ other → lists m' !! l = lists m !! l).
Proof.
  intros Hne ((HLx & Hndx & Hchx) & Hbx) ((HLy & Hndy & Hchy) & Hby) Hdisj Hsum.
  assert (NoDup (xs ++ ys)) as Hnd by (apply NoDup_app; split_and!; [done|set_solver|done]).
  unfold merge. unfold_prims. run.
  destruct ys as [|y ys].
  { simpl. exists m. rewrite app_nil_r. by split_and!. }
  assert ((Z.of_nat (length (y :: ys)) =? 0) = false) as -> by (simpl; lia).
  cbn [head] in HLy.
  destruct xs as [|t xs _] using rev_ind.
  - cbn [head last length app] in *. run. rewrite !insert_insert_eq.
    eexists. split; [reflexivity|]. unfold wf_list, threads. cbn [nodes lists].
    split; [|split; [|split]].
    + split; [split_and!|]; try done.
      rewrite lookup_insert_ne by done. rewrite lookup_insert_eq.
      rewrite wrap_small by lia. done.
    + split; [split_and!|]; try done; first [by rewrite lookup_insert_eq | constructor].
    + done.
    + intros l ? ?. by rewrite !lookup_insert_ne.
  - rewrite last_snoc in HLx. rewrite ?last_snoc. run.
    assert (t ≠ y) by set_solver.
    destruct (chain_is_Some _ _ _ _ t Hchx) as [nt Hnt]; [set_solver|].
    destruct (chain_is_Some _ _ _ _ y Hchy) as [ny Hny]; [set_solver|].
    run. rewrite !insert_insert_eq.
    eexists. split; [reflexivity|]. unfold wf_list, threads. cbn [nodes lists].
    split; [|split; [|split]].
    + split; [split_and!|].
      * rewrite lookup_insert_ne by done. rewrite lookup_insert_eq.
        rewrite wrap_small by (rewrite !length_app in *; simpl in *; lia).
        rewrite <- Nat2Z.inj_add, <- length_app.
        assert (head ((xs ++ [t]) ++ y :: ys) = head (xs ++ [t])) as -> by by destruct xs.
        assert (last ((xs ++ [t]) ++ y :: ys) = last (y :: ys)) as ->.
        { rewrite last_app. by destruct (last (y :: ys)) eqn:E; [|apply last_None in E]. }
        done.
      * done.
      * apply chain_app. rewrite last_ptr_snoc. cbn [hd_ptr]. split.
        -- apply chain_insert_fresh; [set_solver|].
           apply chain_set_next with (n := None); [|done|done].
           apply NoDup_app in Hndx as (_ & Hd & _). intros Hin. apply (Hd t Hin). left.
        -- apply chain_set_prev with (p := None); [by apply NoDup_cons in Hndy as [? _]| |].
           ++ by rewrite lookup_insert_ne.
           ++ apply chain_insert_fresh; [set_solver|done].
      * rewrite !length_app in *. simpl in *. lia.
    + split; [split_and!|]; try done; first [by rewrite lookup_insert_eq | constructor].
    + intros a Ha1 Ha2. rewrite !lookup_insert_ne; [done|set_solver..].
    + intros l ? ?. by rewrite !lookup_insert_ne.
Qed.

Lemma chain_set_head_prev h p p' x xs n nd :
  NoDup xs → head xs = Some x → h !! x = Some nd →
  chain h p xs n → chain (<[x := with_prev p' nd]> h) p' xs n.
Proof.
  intros Hnd Hhd Hx Hch. destruct xs as [|x' xs]; simplify_eq/=.
  apply NoDup_cons in Hnd as [Hnotin _]. by eapply chain_set_prev.
Qed.

Lemma chain_set_last_next h p x xs n n' nd :
  NoDup xs → last xs = Some x → h !! x = Some nd →
  chain h p xs n → chain (<[x := with_next n' nd]> h) p xs n'.
Proof.
  intros Hnd Hlast Hx Hch. destruct xs as [|x' xs _] using rev_ind; [done|].
  rewrite last_snoc in Hlast. simplify_eq.
  apply NoDup_app in Hnd as (_ & Hd & _).
  eapply chain_set_next; [|done|done]. intros Hin. apply (Hd x Hin). left.
Qed.

Lemma last_ptr_Some p xs x : last xs = Some x → last_ptr p xs = Some x.
Proof. unfold last_ptr. by intros ->. Qed.

Lemma hd_ptr_Some xs n x : head xs = Some x → hd_ptr xs n = Some x.
Proof. by destruct xs; intros; simplify_eq/=. Qed.

Lemma head_elem_of (xs : list positive) x : head xs = Some x → x ∈ xs.
Proof. destruct xs; intros; simplify_eq/=. left. Qed.

Lemma last_elem_of (xs : list positive) x : last xs = Some x → x ∈ xs.
Proof.
  destruct xs as [|y xs _] using rev_ind; [done|].
  rewrite last_snoc. intros; simplify_eq. apply elem_of_app. right. left.
Qed.

Ltac solve_is_Some :=
  repeat (apply lookup_insert_is_Some'; right);
  first [ assumption | eexists; eassumption ].

Ltac step_lookup :=
  match goal with
  | |- context [ match ?h !! ?p with _ => _ end ] =>
      lazymatch type of h with
      | gmap positive Node =>
          let nd := fresh "nd" in
          let H := fresh "Hnd" in
          assert (is_Some (h !! p)) as [nd H] by solve_is_Some;
          rewrite H
      end
  end.

Ltac solve_lookup :=
  first [ eassumption
        | rewrite !lookup_insert_ne by (first [done | congruence]);
          eassumption ].

Ltac chain_peel :=
  repeat first
    [ eassumption
    | apply chain_insert_fresh; [assumption|]
    | eapply chain_set_head_prev;
        [eassumption | first [eassumption | reflexivity] | solve_lookup |]
    | eapply chain_set_last_next;
        [eassumption | first [eassumption | apply last_snoc] | solve_lookup |] ].

Lemma splice_wf m this other xs1 xs2 ys :
  this ≠ other →
  wf_list m this (xs1 ++ xs2) → wf_list m other ys → (xs1 ++ xs2) ## ys →
  Z.of_nat (length (xs1 ++ xs2) + length ys) < size_max →
  ∃ m', splice this (hd_ptr xs2 None) other m = Ok tt m' ∧
        wf_list m' this (xs1 ++ ys ++ xs2) ∧
        wf_list m' other [] ∧
        (∀ a, a ∉ xs1 ++ xs2 → a ∉ ys → nodes m' !! a = nodes m !! a) ∧
        (∀ l, l ≠ this → l ≠ other → lists m' !! l = lists m !! l).
Proof.
  intros Hne ((HLx & Hndx & Hchx) & Hbx) ((HLy & Hndy & Hchy) & Hby) Hdisj Hsum.
  unfold splice. unfold_prims. run.
  destruct (decide (ys = [])) as [->|Hys].
  { simpl. exists m. by split_and!. }
  assert ((Z.of_nat (length ys) =? 0) = false) as -> by (destruct ys; [done|simpl; lia]).
  destruct xs2 as [|ph xs2]; cbn [hd_ptr].
  - rewrite !app_nil_r in *.
    destruct (merge_wf m this other xs1 ys) as (m' & Hrun & Hwf);
      [done| by repeat split | by repeat split | done | done |].
    exists m'. split; [|done]. rewrite <- Hrun.
    unfold merge. unfold_prims. run.
    assert ((Z.of_nat (length ys) =? 0) = false) as -> by (destruct ys; [done|simpl; lia]).
    destruct (last xs1) as [t|] eqn:Hlast; run; [|done].
    destruct (nodes m !! t) as [nt|] eqn:Hnt; run; [|done].
    done.
  - destruct (head ys) as [y|] eqn:Hhd; [|by destruct ys].
    destruct (last ys) as [yt|] eqn:Hlt; [|by apply last_None in Hlt].
    pose proof (head_elem_of _ _ Hhd) as Hyin.
    pose proof (last_elem_of _ _ Hlt) as Hytin.
    pose proof (chain_is_Some _ _ _ _ _ Hchy Hyin) as HyS.
    pose proof (chain_is_Some _ _ _ _ _ Hchy Hytin) as HytS.
    assert (NoDup (xs1 ++ ys ++ ph :: xs2)) as Hnd.
    { apply NoDup_app in Hndx as (Hnd1 & Hd & Hnd2).
      apply NoDup_app. split_and!; [done|set_solver|].
      apply NoDup_app. split_and!; [done|set_solver|done]. }
    assert (Z.of_nat (length (xs1 ++ ys ++ ph :: xs2)) =
            Z.of_nat (length (xs1 ++ ph :: xs2)) + Z.of_nat (length ys)) as Hlen.
    { rewrite !length_app. simpl. rewrite ?length_app. simpl. lia. }
    assert (last (xs1 ++ ys ++ ph :: xs2) = last (xs1 ++ ph :: xs2)) as Hlast.
    { rewrite !last_app. simpl. destruct (last (ph :: xs2)) eqn:E; [done|by apply last_None in E]. }
    apply chain_app in Hchx as [Hch1 Hch2].
    pose proof Hch2 as (nph & Hph & Hprev & _).
    assert (NoDup (ph :: xs2)) as Hnd2 by by apply NoDup_app in Hndx as (_ & _ & ?).
    assert (NoDup xs1) as Hnd1 by by apply NoDup_app in Hndx as (? & _ & _).
    run. rewrite Hprev.
    destruct xs1 as [|q xs1 _] using rev_ind.
    + cbn [last_ptr last app head] in *. run.
      assert (ph ≠ yt) by set_solver.
      assert (ph ∉ ys) by set_solver.
      assert (yt ∉ ph :: xs2) by set_solver.
      step_lookup. run. rewrite !insert_insert_eq.
      eexists. split; [reflexivity|]. unfold wf_list, threads. cbn [nodes lists].
      split; [|split; [|split]].
      * split; [split_and!|].
        -- rewrite lookup_insert_ne by done. rewrite lookup_insert_eq.
           rewrite wrap_small by lia. rewrite Hlen, Hlast.
           by assert (head (ys ++ ph :: xs2) = Some y) as -> by by destruct ys.
        -- done.
        -- apply (chain_app _ _ []). split; [done|]. cbn [last_ptr last].
           apply chain_app. cbn [hd_ptr]. rewrite (last_ptr_Some _ _ _ Hlt).
           split; chain_peel.
        -- lia.
      * split; [split_and!|]; try done; first [by rewrite lookup_insert_eq | constructor].
      * intros a Ha1 Ha2. rewrite !lookup_insert_ne; [done|set_solver..].
      * intros l ? ?. by rewrite !lookup_insert_ne.
    + rewrite last_ptr_snoc in *. run.
      assert (q ∈ xs1 ++ [q]) as Hqin by (apply elem_of_app; right; left).
      pose proof (chain_is_Some _ _ _ _ _ Hch1 Hqin) as [nq Hq].
      assert (q ≠ ph ∧ q ≠ y ∧ q ≠ yt ∧ ph ≠ y ∧ ph ≠ yt) as (? & ? & ? & ? & ?).
      { apply NoDup_app in Hndx as (_ & Hd & _). specialize (Hd q Hqin).
        split_and!; [|set_solver..]. intros ->. apply Hd. left. }
      assert ((y ∉ xs1 ++ [q]) ∧ (yt ∉ xs1 ++ [q]) ∧ (ph ∉ xs1 ++ [q])) as (? & ? & ?).
      { apply NoDup_app in Hndx as (_ & Hd & _).
        split_and!; [set_solver..|]. intros Hin. apply (Hd ph Hin). left. }
      assert ((q ∉ ys) ∧ (ph ∉ ys)) as [? ?] by set_solver.
      assert ((q ∉ ph :: xs2) ∧ (y ∉ ph :: xs2) ∧ (yt ∉ ph :: xs2)) as (? & ? & ?).
      { apply NoDup_app in Hndx as (_ & Hd & _). specialize (Hd q Hqin).
        split_and!; [done|set_solver..]. }
      run. step_lookup. run. step_lookup. run. rewrite !insert_insert_eq.
      eexists. split; [reflexivity|]. unfold wf_list, threads. cbn [nodes lists].
      split; [|split; [|split]].
      * split; [split_and!|].
        -- rewrite lookup_insert_ne by done. rewrite lookup_insert_eq.
           rewrite wrap_small by lia. rewrite Hlen, Hlast.
           by assert (head ((xs1 ++ [q]) ++ ys ++ ph :: xs2)
                      = head ((xs1 ++ [q]) ++ ph :: xs2)) as -> by by destruct xs1.
        -- done.
        -- apply chain_app. rewrite last_ptr_snoc.
           assert (hd_ptr (ys ++ ph :: xs2) None = Some y) as -> by by destruct ys.
           split; [chain_peel|].
           apply chain_app. cbn [hd_ptr]. rewrite (last_ptr_Some _ _ _ Hlt).
           split; chain_peel.
        -- lia.
      * split; [split_and!|]; try done; first [by rewrite lookup_insert_eq | constructor].
      * intros a Ha1 Ha2. rewrite !lookup_insert_ne; [done|set_solver..].
      * intros l ? ?. by rewrite !lookup_insert_ne.
Qed.

(** ** The range splice over a whole list *)

Lemma block_tail_chain m p xs fuel bt :
  chain (nodes m) p xs None → (length xs < fuel)%nat →
  block_tail fuel (hd_ptr xs None) None bt m = Ok (last_ptr bt xs) m.
Proof.
  revert p fuel bt. induction xs as [|x xs IH]; intros p fuel bt Hch Hfuel.
  - destruct fuel; [simpl in Hfuel; lia|]. done.
  - destruct fuel as [|fuel]; [simpl in Hfuel; lia|].
    destruct Hch as (nd & Hx & _ & Hn & Hrest).
    cbn [block_tail hd_ptr]. rewrite bool_decide_eq_false_2 by done.
    unfold_prims. run. rewrite Hn, last_ptr_cons.
    apply (IH (Some x)); [done | simpl in Hfuel; lia].
Qed.

Lemma count_run_chain m p xs fuel c :
  chain (nodes m) p xs None → (length xs < fuel)%nat →
  0 ≤ c → c + Z.of_nat (length xs) < size_max →
  count_run fuel (hd_ptr xs None) None c m = Ok (c + Z.of_nat (length xs)) m.
Proof.
  revert p fuel c. induction xs as [|x xs IH]; intros p fuel c Hch Hfuel Hc Hbound.
  - destruct fuel; [simpl in Hfuel; lia|]. simpl. unfold ret. f_equal. lia.
  - destruct fuel as [|fuel]; [simpl in Hfuel; lia|].
    destruct Hch as (nd & Hx & _ & Hn & Hrest).
    cbn [count_run hd_ptr]. rewrite bool_decide_eq_false_2 by done.
    unfold_prims. run. rewrite Hn.
    cbn [length] in Hbound, Hfuel.
    rewrite (IH (Some x)); [|done|lia|..].
    + f_equal. rewrite wrap_small by lia. cbn [length]. lia.
    + rewrite wrap_small; lia.
    + rewrite wrap_small; lia.
Qed.

Lemma with_prev_id v nd : prev (hook nd) = v → with_prev v nd = nd.
Proof. intros <-. by destruct nd as [[??]?]. Qed.

Lemma with_next_id v nd : next (hook nd) = v → with_next v nd = nd.
Proof. intros <-. by destruct nd as [[??]?]. Qed.

Lemma chain_head_node h p xs n x :
  chain h p xs n → head xs = Some x →
  ∃ nd, h !! x = Some nd ∧ prev (hook nd) = p.
Proof.
  destruct xs as [|x' xs]; intros Hch Hhd; simplify_eq/=.
  destruct Hch as (nd & ? & ? & _). by exists nd.
Qed.

Lemma chain_last_node h p xs n x :
  chain h p xs n → last xs = Some x →
  ∃ nd, h !! x = Some nd ∧ next (hook nd) = n.
Proof.
  destruct xs as [|x' xs _] using rev_ind; [done|].
  rewrite last_snoc. intros Hch ?; simplify_eq.
  apply chain_app in Hch as [_ (nd & ? & _ & ? & _)]. by exists nd.
Qed.

Ltac destruct_stuck :=
  match goal with
  | |- context [ match ?h !! ?p with _ => _ end ] =>
      let E := fresh "E" in destruct (h !! p) eqn:E
  | |- context [ match m_tail ?L with _ => _ end ] =>
      let E := fresh "E" in destruct (m_tail L) eqn:E
  | |- context [ match prev ?k with _ => _ end ] =>
      let E := fresh "E" in destruct (prev k) eqn:E
  end.

Ltac drop_noop :=
  match goal with
  | H : ?h !! ?k = Some ?nd, Hp : prev (hook ?nd) = ?v
    |- context [ <[?k := with_prev ?v ?nd]> ?h ] =>
      rewrite (with_prev_id v nd Hp), (insert_id h k nd H)
  | H : ?h !! ?k = Some ?nd, Hn : next (hook ?nd) = ?v
    |- context [ <[?k := with_next ?v ?nd]> ?h ] =>
      rewrite (with_next_id v nd Hn), (insert_id h k nd H)
  end.

Ltac lists_eq :=
  apply map_eq; intros ?; rewrite !lookup_insert;
  repeat case_decide; simplify_eq; done.

Lemma Ok_mem_eq (h h' : gmap positive Node) (ls ls' : gmap positive IntrusiveList) :
  h = h' → ls = ls' → Ok tt (mkMem h ls) = Ok tt (mkMem h' ls').
Proof. by intros -> ->. Qed.

Lemma splice_range_full_eq m this other pos ys fuel :
  this ≠ other →
  wf_list m other ys →
  (∀ L t, lists m !! this = Some L → m_tail L = Some t → t ∉ ys) →
  (length ys < fuel)%nat →
  splice_range fuel this pos other (head ys) end_ m = splice this pos other m.
Proof.
  intros Hne ((HLy & Hndy & Hchy) & Hby) Htail Hfuel.
  unfold splice_range, splice, end_.
  destruct (decide (ys = [])) as [->|Hys].
  { unfold_prims. run. done. }
  destruct (head ys) as [y|] eqn:Hhd; [|by destruct ys].
  destruct (last ys) as [yt|] eqn:Hlt; [|by apply last_None in Hlt].
  rewrite bool_decide_eq_false_2 by done.
  rewrite <- (hd_ptr_Some ys None y Hhd).
  rewrite (bind_Ok _ _ _ _ _ (block_tail_chain m None ys fuel None Hchy Hfuel)).
  rewrite (last_ptr_Some _ _ _ Hlt), (hd_ptr_Some ys None y Hhd).
  destruct (chain_head_node _ _ _ _ _ Hchy Hhd) as (ny & Hy & Hyp).
  destruct (chain_last_node _ _ _ _ _ Hchy Hlt) as (nyt & Hyt & Hytn).
  assert (∀ ls, count_run fuel (Some y) None 0 (mkMem (nodes m) ls)
                = Ok (Z.of_nat (length ys)) (mkMem (nodes m) ls)) as Hcount.
  { intros ls. rewrite <- (hd_ptr_Some ys None y Hhd).
    by rewrite (count_run_chain (mkMem (nodes m) ls) None ys fuel 0); [|done|done|lia|lia]. }
  assert ((Z.of_nat (length ys) =? 0) = false) as Hnz by (destruct ys; [done|simpl; lia]).
  unfold_prims. run. rewrite Hyp. run. rewrite Hyp, Hcount. run.
  rewrite Hnz, Z.sub_diag. change (wrap 0) with 0. rewrite !insert_insert_eq.
  destruct pos as [ph|]; repeat (run; first [drop_noop | destruct_stuck]); run; try done.
  all: rewrite ?insert_insert_eq.
  all: try match goal with
           | H : _ !! _ = None |- Undefined = _ =>
               exfalso; apply eq_None_not_Some in H; apply H; solve_is_Some
           end.
  all: apply Ok_mem_eq; [|lists_eq]; try reflexivity.
  assert (p ∉ ys) as Hp by (by eapply Htail).
  assert (p ≠ y) by (intros ->; by apply Hp, head_elem_of).
  assert (p ≠ yt) by (intros ->; by apply Hp, last_elem_of).
  rewrite lookup_insert_ne in E2 by done.
  apply insert_id. rewrite E3. f_equal. symmetry. apply with_next_id.
  rewrite lookup_insert in E3. case_decide as Hyyt.
  - subst yt. simplify_eq. by rewrite next_with_prev.
  - rewrite lookup_insert_ne in E3 by done. by simplify_eq.
Qed.

(** ** Merge sort: permutation, order, stability *)

Section MergeSortFacts.
Context {A : Type} (le : A → A → bool).
Hypothesis le_total : ∀ a b, le a b = true ∨ le b a = true.
Hypothesis le_trans : ∀ a b c, le a b = true → le b c = true → le a c = true.

Lemma merge_by_nil_l l : merge_by le [] l = l.
Proof. by destruct l. Qed.

Lemma merge_by_nil_r l : merge_by le l [] = l.
Proof. by destruct l. Qed.

Lemma merge_by_cons x1 l1 x2 l2 :
  merge_by le (x1 :: l1) (x2 :: l2) =
  if le x1 x2 then x1 :: merge_by le l1 (x2 :: l2)
  else x2 :: merge_by le (x1 :: l1) l2.
Proof. done. Qed.

Lemma merge_by_perm l1 l2 : merge_by le l1 l2 ≡ₚ l1 ++ l2.
Proof.
  revert l2. induction l1 as [|x1 l1 IH1]; intros l2; [by rewrite merge_by_nil_l|].
  induction l2 as [|x2 l2 IH2]; [by rewrite merge_by_nil_r, app_nil_r|].
  rewrite merge_by_cons. destruct (le x1 x2).
  - simpl. by rewrite IH1.
  - rewrite IH2. by rewrite <- Permutation_middle.
Qed.

Lemma msort_fuel_perm n l : msort_fuel le n l ≡ₚ l.
Proof.
  revert l. induction n as [|n IH]; intros l; [done|].
  destruct l as [|a [|b l]]; [done..|].
  cbn [msort_fuel]. rewrite merge_by_perm, !IH. by rewrite take_drop.
Qed.

Lemma merge_by_sorted l1 l2 :
  StronglySorted (le_holds le) l1 → StronglySorted (le_holds le) l2 →
  StronglySorted (le_holds le) (merge_by le l1 l2).
Proof.
  revert l2. induction l1 as [|x1 l1 IH1]; intros l2 Hs1 Hs2; [by rewrite merge_by_nil_l|].
  induction l2 as [|x2 l2 IH2]; [by rewrite merge_by_nil_r|].
  apply StronglySorted_inv in Hs1 as [Hs1 Hx1].
  apply StronglySorted_inv in Hs2 as [Hs2 Hx2].
  rewrite merge_by_cons. destruct (le x1 x2) eqn:Hle.
  - constructor; [by apply IH1; [|constructor]|].
    rewrite merge_by_perm. apply Forall_app. split; [done|].
    constructor; [done|]. eapply Forall_impl; [exact Hx2|].
    intros z Hz. unfold le_holds in *. eauto.
  - assert (le x2 x1 = true) as Hle' by (destruct (le_total x1 x2); congruence).
    constructor; [by apply IH2|].
    rewrite merge_by_perm. simpl. constructor; [done|]. apply Forall_app. split; [|done].
    eapply Forall_impl; [exact Hx1|]. intros z Hz. unfold le_holds in *. eauto.
Qed.

Lemma halves_shorter n (l : list A) :
  (2 ≤ length l ≤ S n)%nat →
  (length (take (length l / 2) l) ≤ n)%nat ∧
  (length (drop (length l / 2) l) ≤ n)%nat.
Proof.
  intros Hlen. rewrite length_take, length_drop.
  assert (1 ≤ length l / 2)%nat by (apply Nat.div_le_lower_bound; lia).
  assert (length l / 2 < length l)%nat by (apply Nat.div_lt; lia).
  lia.
Qed.

Lemma msort_fuel_sorted n l :
  (length l ≤ n)%nat → StronglySorted (le_holds le) (msort_fuel le n l).
Proof.
  revert l. induction n as [|n IH]; intros l Hlen.
  - destruct l; [constructor | simpl in Hlen; lia].
  - destruct l as [|a [|b l]]; [constructor | repeat constructor |].
    cbn [msort_fuel].
    destruct (halves_shorter n (a :: b :: l)) as [? ?]; [simpl in *; lia|].
    by apply merge_by_sorted; apply IH.
Qed.

Lemma filter_cons_eq (f : A → bool) x l :
  List.filter f (x :: l) = if f x then x :: List.filter f l else List.filter f l.
Proof. done. Qed.

(** Stability: the elements tied with [k] keep their order. *)
Lemma merge_by_ties k l1 l2 :
  StronglySorted (le_holds le) l1 → StronglySorted (le_holds le) l2 →
  List.filter (tied_le le k) (merge_by le l1 l2)
  = List.filter (tied_le le k) l1 ++ List.filter (tied_le le k) l2.
Proof.
  revert l2. induction l1 as [|x1 l1 IH1]; intros l2 Hs1 Hs2; [by rewrite merge_by_nil_l|].
  induction l2 as [|x2 l2 IH2]; [by rewrite merge_by_nil_r, app_nil_r|].
  pose proof Hs1 as Hs1'. pose proof Hs2 as Hs2'.
  apply StronglySorted_inv in Hs1' as [Hs1' Hx1].
  apply StronglySorted_inv in Hs2' as [Hs2' Hx2].
  rewrite merge_by_cons. destruct (le x1 x2) eqn:Hle.
  - cbn [List.filter]. rewrite IH1 by done. by destruct (tied_le le k x1).
  - rewrite !(filter_cons_eq _ x2), IH2 by done.
    destruct (tied_le le k x2) eqn:Hk2; [|done].
    assert (List.filter (tied_le le k) (x1 :: l1) = []) as Hnone; [|by rewrite Hnone].
    apply andb_prop in Hk2 as [Hk2 _].
    assert (Forall (fun z => tied_le le k z = false) (x1 :: l1)) as Hall.
    { assert (Forall (le_holds le x1) (x1 :: l1)) as Hge.
      { constructor; [|done]. unfold le_holds. destruct (le_total x1 x1); done. }
      eapply Forall_impl; [exact Hge|]. intros z Hz. unfold le_holds in Hz.
      unfold tied_le. destruct (le z k) eqn:Hzk; [|by rewrite andb_false_r].
      rewrite (le_trans x1 z x2 Hz (le_trans z k x2 Hzk Hk2)) in Hle. done. }
    clear -Hall. induction Hall as [|z l Hz _ IH]; [done|].
    cbn [List.filter]. by rewrite Hz.
Qed.

Lemma msort_fuel_ties k n l :
  (length l ≤ n)%nat →
  List.filter (tied_le le k) (msort_fuel le n l) = List.filter (tied_le le k) l.
Proof.
  revert l. induction n as [|n IH]; intros l Hlen; [done|].
  destruct l as [|a [|b l]]; [done..|].
  cbn [msort_fuel].
  destruct (halves_shorter n (a :: b :: l)) as [? ?]; [simpl in *; lia|].
  rewrite merge_by_ties by by apply msort_fuel_sorted.
  rewrite !IH by done. rewrite <- List.filter_app. by rewrite take_drop.
Qed.
End MergeSortFacts.

(** ** sort *)

Lemma StronglySorted_lookup {A} (R : A → A → Prop) l i j a b :
  StronglySorted R l → (i < j)%nat → l !! i = Some a → l !! j = Some b → R a b.
Proof.
  intros Hs. revert i j. induction Hs as [|x l Hs IH Hx]; intros i j Hij Hi Hj; [done|].
  destruct j as [|j]; [lia|]. destruct i as [|i]; simplify_eq/=.
  - rewrite Forall_forall in Hx. apply Hx. by eapply list_elem_of_lookup_2.
  - apply (IH i j); [lia|done..].
Qed.

Lemma load_all_Ok m xs :
  (∀ x, x ∈ xs → is_Some (nodes m !! x)) →
  ∃ els, load_all xs m = Ok els m ∧ els.*1 = xs ∧
         (∀ x nd, (x, nd) ∈ els → nodes m !! x = Some nd).
Proof.
  induction xs as [|x xs IH]; intros Hlive.
  - exists []. split_and!; [done..|]. intros ?? Hin. inversion Hin.
  - destruct (Hlive x) as [nd Hx]; [left|].
    destruct IH as (els & Hrun & Hfst & Hels); [intros; apply Hlive; by right|].
    exists ((x, nd) :: els). split_and!.
    + simpl. unfold bind, load_node, ret. by rewrite Hx, Hrun.
    + rewrite fmap_cons. simpl. by rewrite Hfst.
    + intros x' nd' Hin. apply elem_of_cons in Hin as [?|?]; [by simplify_eq|eauto].
Qed.

Lemma relink_chain m p xs :
  NoDup xs → (∀ x, x ∈ xs → is_Some (nodes m !! x)) →
  ∃ m', relink p xs m = Ok tt m' ∧
        chain (nodes m') p xs None ∧
        lists m' = lists m ∧
        (∀ a, a ∉ xs → nodes m' !! a = nodes m !! a) ∧
        (∀ a, data <$> nodes m' !! a = data <$> nodes m !! a).
Proof.
  revert m p. induction xs as [|x xs IH]; intros m p Hnd Hlive.
  - exists m. by split_and!.
  - apply NoDup_cons in Hnd as [Hx Hnd].
    destruct (Hlive x) as [nd Hnode]; [left|].
    cbn [relink]. unfold_prims. run.
    set (m1 := mkMem _ _).
    destruct (IH m1 (Some x) Hnd) as (m' & Hrun & Hch & Hls & Hframe & Hdata).
    { intros y Hy. subst m1. cbn [nodes]. rewrite !lookup_insert_is_Some'.
      right. right. apply Hlive. by right. }
    exists m'. rewrite Hrun. split_and!; [done| |done| |].
    + exists (with_next (head xs) (with_prev p nd)).
      rewrite (Hframe x Hx). subst m1. cbn [nodes]. rewrite lookup_insert_eq.
      split_and!; [done..| by destruct xs | done].
    + intros a Ha. rewrite Hframe by set_solver. subst m1. cbn [nodes].
      rewrite !lookup_insert_ne; [done|set_solver..].
    + intros a. rewrite Hdata. subst m1. cbn [nodes].
      destruct (decide (a = x)) as [->|Hne].
      * by rewrite lookup_insert_eq, Hnode.
      * by rewrite !lookup_insert_ne.
Qed.

Lemma filter_fst_agree {B} (f : positive → bool) (g : positive * B → bool) l :
  (∀ x, x ∈ l → f x.1 = g x) →
  List.filter f (l.*1) = (List.filter g l).*1.
Proof.
  induction l as [|x l IH]; intros Hfg; [done|].
  rewrite fmap_cons. cbn [List.filter]. rewrite (Hfg x) by left.
  rewrite IH by (intros; apply Hfg; by right). by destruct (g x).
Qed.

Lemma sort_by_spec m l xs cmp fuel :
  strict_weak cmp → wf_list m l xs → (length xs < fuel)%nat →
  ∃ m' ys, sort_by fuel cmp l m = Ok tt m' ∧ sort_post cmp m l xs m' ys.
Proof.
  intros [Hasym Hneg Hpay] ((HL & Hnd & Hch) & Hb) Hfuel.
  set (le := fun a b : positive * Node => negb (cmp (snd b) (snd a))).
  assert (∀ a b, le a b = true ∨ le b a = true) as le_total.
  { intros a b. unfold le. destruct (cmp b.2 a.2) eqn:E; [|by left].
    right. by rewrite (Hasym _ _ E). }
  assert (∀ a b c, le a b = true → le b c = true → le a c = true) as le_trans.
  { intros a b c. unfold le. rewrite !negb_true_iff. intros Hab Hbc.
    destruct (cmp c.2 a.2) eqn:E; [|done].
    destruct (Hneg _ b.2 _ E); congruence. }
  destruct (load_all_Ok m xs) as (els & Hload & Hfst & Hels);
    [intros; by eapply chain_is_Some|].
  set (srt := msort le els).
  assert (srt ≡ₚ els) as Hperm by apply msort_fuel_perm.
  assert (srt.*1 ≡ₚ xs) as Hperm1 by by rewrite Hperm, Hfst.
  assert (NoDup (srt.*1)) as Hnd' by by rewrite Hperm1.
  destruct (relink_chain m None (srt.*1) Hnd') as (m1 & Hrel & Hch1 & Hls1 & Hfr1 & Hdata1).
  { intros x Hx. rewrite Hperm1 in Hx. by eapply chain_is_Some. }
  exists (mkMem (nodes m1)
            (<[l := mkList (head (srt.*1)) (last (srt.*1)) (Z.of_nat (length xs))]> (lists m))),
         (srt.*1).
  assert (length (srt.*1) = length xs) as Hlen by by rewrite Hperm1.
  unfold sort_post. split_and!.
  - unfold sort_by, begin, get_head, bind, load_list, ret. rewrite HL. cbn [m_head].
    assert (head xs = hd_ptr xs None) as -> by by destruct xs.
    rewrite (forward_from_chain m None xs fuel Hch Hfuel), Hload.
    fold le. fold srt. rewrite Hrel.
    unfold set_head, set_tail, store_list. rewrite Hls1, HL. cbn [nodes lists m_head m_tail m_size].
    rewrite lookup_insert_eq. cbn [m_head m_size]. by rewrite insert_insert_eq.
  - split; [split_and!|].
    + cbn [lists]. by rewrite lookup_insert_eq, Hlen.
    + done.
    + done.
    + by rewrite Hlen.
  - done.
  - intros i j a b na nb Hij Hi Hj Ha Hb'. cbn [nodes] in *.
    rewrite list_lookup_fmap in Hi, Hj.
    destruct (srt !! i) as [[a' na0]|] eqn:Ei; simplify_eq/=.
    destruct (srt !! j) as [[b' nb0]|] eqn:Ej; simplify_eq/=.
    pose proof (StronglySorted_lookup _ _ _ _ _ _
                  (msort_fuel_sorted le le_total le_trans _ els (le_n _)) Hij Ei Ej) as Hle.
    unfold le_holds, le in Hle. simpl in Hle. apply negb_true_iff in Hle.
    assert (nodes m !! a = Some na0) as Ha0.
    { apply Hels. rewrite <- Hperm. by eapply list_elem_of_lookup_2. }
    assert (nodes m !! b = Some nb0) as Hb0.
    { apply Hels. rewrite <- Hperm. by eapply list_elem_of_lookup_2. }
    pose proof (Hdata1 a) as Hda. pose proof (Hdata1 b) as Hdb.
    rewrite Ha, Ha0 in Hda. rewrite Hb', Hb0 in Hdb. simplify_eq/=.
    by rewrite (Hpay nb na nb0 na0).
  - intros k. cbn [nodes]. unfold ties_of. rewrite <- Hfst.
    assert (∀ x, x ∈ els →
              match nodes m1 !! x.1 with
              | Some na => tied cmp k na
              | None => false
              end = tied_le le (1%positive, k) x) as Hagree.
    { intros [x nd] Hx. simpl. pose proof (Hdata1 x) as Hd.
      rewrite (Hels x nd Hx) in Hd.
      destruct (nodes m1 !! x) as [nd'|]; simplify_eq/=.
      unfold tied, tied_le, le. simpl.
      rewrite (Hpay k nd' k nd), (Hpay nd' k nd k) by done. apply andb_comm. }
    rewrite (filter_fst_agree _ (tied_le le (1%positive, k)) srt).
    + rewrite (filter_fst_agree _ (tied_le le (1%positive, k)) els Hagree).
      unfold srt, msort. by rewrite (msort_fuel_ties le le_total le_trans).
    + intros x Hx. apply Hagree. by rewrite <- Hperm.
  - done.
  - intros a Ha. cbn [nodes]. apply Hfr1. by rewrite Hperm1.
  - intros l' Hl'. cbn [lists]. by rewrite lookup_insert_ne.
Qed.

(** ** Concrete lists *)

Ltac concrete_wf :=
  split; [split_and!|];
  [ reflexivity
  | by apply (bool_decide_unpack _)
  | simpl; repeat (eexists; split_and!; try reflexivity)
  | by vm_compute ].

Lemma two_lists_wf :
  wf_list two_lists 1 [1; 2]%positive ∧ wf_list two_lists 2 [3; 4]%positive.
Proof. split; concrete_wf. Qed.

Lemma shuffled_wf : wf_list shuffled 1 [1; 2; 3; 4]%positive.
Proof. concrete_wf. Qed.

Lemma less_strict_weak : strict_weak less.
Proof.
  split; unfold less.
  - intros a b. rewrite Z.ltb_lt, Z.ltb_ge. lia.
  - intros a b c. rewrite !Z.ltb_lt. lia.
  - by intros a b a' b' -> ->.
Qed.

(** C3.  On a list that satisfies the invariant, [sort()] and
    [sort(comparator)], for a comparator that is a strict weak ordering of
    the elements, return, and leave a list that satisfies the invariant
    again, whose chain is a reordering of the old one, in non-descending
    order, with tied elements in their old order; no payload moves, and
    only hooks of the chain and the head and tail of the list are written. *)
Theorem sort_orders_the_chain m l xs fuel :
  wf_list m l xs → (length xs < fuel)%nat →
  (∃ m' ys, sort fuel l m = Ok tt m' ∧ sort_post less m l xs m' ys) ∧
  (∀ cmp, strict_weak cmp →
     ∃ m' ys, sort_by fuel cmp l m = Ok tt m' ∧ sort_post cmp m l xs m' ys).
Proof.
  intros Hwf Hfuel. split.
  - apply sort_by_spec; [apply less_strict_weak|done..].
  - intros cmp Hcmp. by apply sort_by_spec.
Qed.

Lemma sort_orders_the_chain_witness :
  (∃ m' ys, sort 5 1 shuffled = Ok tt m' ∧
            sort_post less shuffled 1 [1; 2; 3; 4]%positive m' ys) ∧
  (∀ cmp, strict_weak cmp →
     ∃ m' ys, sort_by 5 cmp 1 shuffled = Ok tt m' ∧
              sort_post cmp shuffled 1 [1; 2; 3; 4]%positive m' ys).
Proof.
  apply (sort_orders_the_chain shuffled 1 [1; 2; 3; 4]%positive 5).
  - exact shuffled_wf.
  - simpl. lia.
Defined.

(** The run itself: 10, 10, 20, 20, the two 10s and the two 20s in their
    old order, and the count still 4. *)
Example sort_shuffled :
  let o := (sort 5 1 ;;; b <- begin 1 ;; forward_from 5 b) shuffled in
  returned o = Some [2; 4; 1; 3]%positive ∧
  list_of 1 o = Some (mkList (Some 2%positive) (Some 3%positive) 4).
Proof. by vm_compute. Qed.

(** C5.  For two distinct lists that satisfy the invariant and share no
    element, whose counts add up within [size_type]: [merge(source)] and
    [splice(pos, source)], for [pos] the end or any element of the
    destination, return; the source is left with null head and tail and
    count 0; the destination's [size()] is the sum of the two sizes
    before; the destination satisfies the invariant with the source's
    chain after its own ([merge]) or before [pos] ([splice]). *)
Theorem merge_and_splice_empty_the_source m this other xs1 xs2 ys :
  this ≠ other →
  wf_list m this (xs1 ++ xs2) → wf_list m other ys → (xs1 ++ xs2) ## ys →
  Z.of_nat (length (xs1 ++ xs2) + length ys) < size_max →
  ∃ a b, size this m = Ok a m ∧ size other m = Ok b m ∧
    (∃ m', merge this other m = Ok tt m' ∧
           lists m' !! other = Some empty_list ∧
           size other m' = Ok 0 m' ∧
           size this m' = Ok (a + b) m' ∧
           wf_list m' this ((xs1 ++ xs2) ++ ys)) ∧
    (∃ m', splice this (hd_ptr xs2 None) other m = Ok tt m' ∧
           lists m' !! other = Some empty_list ∧
           size other m' = Ok 0 m' ∧
           size this m' = Ok (a + b) m' ∧
           wf_list m' this (xs1 ++ ys ++ xs2)).
Proof.
  intros Hne Hx Hy Hdisj Hsum.
  exists (Z.of_nat (length (xs1 ++ xs2))), (Z.of_nat (length ys)).
  assert (∀ m' l zs, wf_list m' l zs → size l m' = Ok (Z.of_nat (length zs)) m') as Hsize.
  { intros m' l zs ((HL & _) & _). unfold size. unfold_prims. by rewrite HL. }
  split_and!; [by apply Hsize..| |].
  - destruct (merge_wf m this other (xs1 ++ xs2) ys) as (m' & Hrun & Hd & Hs & _);
      [done..|].
    exists m'. split_and!; [done| | | |done].
    + by destruct Hs as ((? & _) & _).
    + by rewrite (Hsize _ _ _ Hs).
    + rewrite (Hsize _ _ _ Hd). f_equal. rewrite length_app. lia.
  - destruct (splice_wf m this other xs1 xs2 ys) as (m' & Hrun & Hd & Hs & _);
      [done..|].
    exists m'. split_and!; [done| | | |done].
    + by destruct Hs as ((? & _) & _).
    + by rewrite (Hsize _ _ _ Hs).
    + rewrite (Hsize _ _ _ Hd). f_equal. rewrite !length_app. lia.
Qed.

Lemma merge_and_splice_empty_the_source_witness :
  ∃ a b, size 1 two_lists = Ok a two_lists ∧ size 2 two_lists = Ok b two_lists ∧
    (∃ m', merge 1 2 two_lists = Ok tt m' ∧
           lists m' !! 2%positive = Some empty_list ∧
           size 2 m' = Ok 0 m' ∧
           size 1 m' = Ok (a + b) m' ∧
           wf_list m' 1 (([1%positive] ++ [2%positive]) ++ [3%positive; 4%positive])) ∧
    (∃ m', splice 1 (hd_ptr [2%positive] None) 2 two_lists = Ok tt m' ∧
           lists m' !! 2%positive = Some empty_list ∧
           size 2 m' = Ok 0 m' ∧
           size 1 m' = Ok (a + b) m' ∧
           wf_list m' 1 ([1%positive] ++ [3%positive; 4%positive] ++ [2%positive])).
Proof.
  apply (merge_and_splice_empty_the_source two_lists 1 2 [1%positive] [2%positive]
           [3; 4]%positive).
  - done.
  - exact (proj1 two_lists_wf).
  - exact (proj2 two_lists_wf).
  - simpl. set_solver.
  - by vm_compute.
Defined.

(** C7.  [splice(pos, other, other.begin(), other.end())] and
    [splice(pos, other)] have the same outcome, the same memory with it:
    for every destination other than the source whose tail is not an
    element of the source, every [pos], and every source that satisfies
    the invariant, once the fuel covers the walk over the source. *)
Theorem splice_full_range_is_whole_splice m this other pos ys fuel :
  this ≠ other →
  wf_list m other ys →
  (∀ L t, lists m !! this = Some L → m_tail L = Some t → t ∉ ys) →
  (length ys < fuel)%nat →
  (b <- begin other ;; splice_range fuel this pos other b end_) m
  = splice this pos other m.
Proof.
  intros Hne Hwf Htail Hfuel.
  rewrite <- (splice_range_full_eq m this other pos ys fuel Hne Hwf Htail Hfuel).
  destruct Hwf as ((HL & _) & _). unfold begin, get_head, load_list, bind, ret.
  by rewrite HL.
Qed.

Lemma splice_full_range_is_whole_splice_witness :
  (b <- begin 2 ;; splice_range 3 1 (Some 2%positive) 2 b end_) two_lists
  = splice 1 (Some 2%positive) 2 two_lists.
Proof.
  apply (splice_full_range_is_whole_splice two_lists 1 2 (Some 2%positive)
           [3; 4]%positive 3).
  - done.
  - exact (proj2 two_lists_wf).
  - intros L t HL Ht. vm_compute in HL. injection HL as <-. simpl in Ht.
    injection Ht as <-. by apply (bool_decide_unpack _).
  - simpl. lia.
Defined.

(** With a destination that satisfies the invariant and shares no element
    with the source, both return, and the destination satisfies the
    invariant with the source's chain before [pos]. *)
Lemma splice_full_range_wf m this other xs1 xs2 ys fuel :
  this ≠ other →
  wf_list m this (xs1 ++ xs2) → wf_list m other ys → (xs1 ++ xs2) ## ys →
  Z.of_nat (length (xs1 ++ xs2) + length ys) < size_max →
  (length ys < fuel)%nat →
  ∃ m', splice_range fuel this (hd_ptr xs2 None) other (head ys) end_ m = Ok tt m' ∧
        wf_list m' this (xs1 ++ ys ++ xs2) ∧ wf_list m' other [].
Proof.
  intros Hne Hx Hy Hdisj Hsum Hfuel.
  destruct (splice_wf m this other xs1 xs2 ys) as (m' & Hrun & Hd & Hs & _); [done..|].
  exists m'. split_and!; [|done..].
  rewrite splice_range_full_eq; [done..| |done].
  intros L t HL Ht. destruct Hx as ((HL' & _) & _). simplify_eq/=.
  intros Hin. apply (Hdisj t); [|done]. by apply last_elem_of.
Qed.

Lemma remove_touches_no_list_witness :
  ∃ m', remove 1 two_lists = Ok tt m' ∧
    lists m' = lists two_lists ∧
    (∀ ls, remove 1 (mkMem (nodes two_lists) ls) = Ok tt (mkMem (nodes m') ls)) ∧
    (∀ a, a ≠ 1%positive →
          prev (hook (mkNode (mkHook None (Some 2%positive)) 10)) ≠ Some a →
          next (hook (mkNode (mkHook None (Some 2%positive)) 10)) ≠ Some a →
          nodes m' !! a = nodes two_lists !! a) ∧
    (∀ a, data <$> nodes m' !! a = data <$> nodes two_lists !! a) ∧
    hook <$> nodes m' !! 1%positive = Some (mkHook None None) ∧
    (∀ l L, lists two_lists !! l = Some L →
            m_head L = Some 1%positive ∨ m_tail L = Some 1%positive →
            lists m' !! l = Some L).
Proof.
  apply (remove_touches_no_list two_lists 1 (mkNode (mkHook None (Some 2%positive)) 10)).
  - reflexivity.
  - intros a [Ha|Ha]; simpl in Ha; [discriminate|]. injection Ha as <-. by eexists.
Defined.

(** ** The invariant, in the words of the data model *)

Lemma wf_list_invariant m l xs : wf_list m l xs → list_invariant m l.
Proof.
  intros ((HL & Hnd & Hch) & Hb).
  eexists. split; [exact HL|]. cbn [m_head m_tail m_size]. split_and!.
  - destruct xs; [done|]. split; [simpl; lia|done].
  - destruct xs as [|x xs]; [done|]. split; [done|].
    intros Hlast. by apply last_None in Hlast.
  - exists (S (length xs)), xs. split_and!; [|done..].
    assert (head xs = hd_ptr xs None) as -> by by destruct xs.
    eapply forward_from_chain; [done|lia].
  - exists (S (length xs)), (rev xs). split_and!.
    + assert (last xs = last_ptr None xs) as ->.
      { unfold last_ptr. by destruct (last xs). }
      eapply backward_from_chain; [done|lia].
    + by rewrite length_rev.
    + destruct xs as [|x xs]; [done|]. simpl. by rewrite last_snoc.
Qed.

(** ** erase, pop_front, pop_back on a list that satisfies the invariant *)

Lemma wf_length_pos m l xs a ys :
  wf_list m l (xs ++ a :: ys) →
  wrap (Z.of_nat (length (xs ++ a :: ys)) - 1) = Z.of_nat (length (xs ++ ys)).
Proof.
  intros (_ & Hb). rewrite !length_app in *. cbn [length] in *.
  rewrite wrap_small; lia.
Qed.

Lemma erase_wf m l xs a ys :
  wf_list m l (xs ++ a :: ys) →
  ∃ m', erase l (Some a) m = Ok (hd_ptr ys None) m' ∧
        wf_list m' l (xs ++ ys) ∧
        hook <$> nodes m' !! a = Some (mkHook None None) ∧
        (∀ b, b ∉ xs ++ a :: ys → nodes m' !! b = nodes m !! b) ∧
        (∀ b, data <$> nodes m' !! b = data <$> nodes m !! b) ∧
        (∀ l', l' ≠ l → lists m' !! l' = lists m !! l').
Proof.
  intros Hwf. pose proof (wf_length_pos _ _ _ _ _ Hwf) as Hlen.
  destruct Hwf as ((HL & Hnd & Hch) & Hb).
  pose proof Hch as Hch0.
  apply chain_app in Hch as [Hch1 Hch2]. cbn [hd_ptr] in Hch1.
  destruct Hch2 as ([[pa nx] d] & Ha & Hap & Han & Hch2).
  cbn [prev next hook] in Hap, Han. subst pa nx.
  assert (NoDup xs ∧ NoDup ys ∧ (a ∉ xs) ∧ (a ∉ ys) ∧ xs ## ys) as (Hnx & Hny & Hax & Hay & Hxy).
  { apply NoDup_app in Hnd as (? & Hd & Hn). apply NoDup_cons in Hn as [? ?].
    split_and!; try done.
    - intros Hin. apply (Hd a Hin). left.
    - intros x Hx Hy. apply (Hd x Hx). by right. }
  assert (NoDup (xs ++ ys)) as Hnd' by (apply NoDup_app; split_and!; [done|set_solver|done]).
  unfold erase. unfold_prims. run.
  destruct xs as [|q xs _] using rev_ind; destruct ys as [|y ys].
  - cbn [last_ptr last hd_ptr app head length] in *. run.
    rewrite !insert_insert_eq.
    eexists. split; [reflexivity|]. cbn [nodes lists]. split_and!.
    + split; [split_and!|]; try done. cbn [lists]. by rewrite lookup_insert_eq, Hlen.
    + by rewrite lookup_insert_eq.
    + intros b Hb'. rewrite lookup_insert_ne; [done|set_solver].
    + intros b. destruct (decide (b = a)) as [->|?];
        [by rewrite lookup_insert_eq, Ha | by rewrite lookup_insert_ne].
    + intros l' ?. by rewrite lookup_insert_ne.
  - cbn [last_ptr last hd_ptr app head] in *.
    destruct (chain_is_Some _ _ _ _ y Hch2) as [ny Hy]; [left|].
    assert (a ≠ y) by (intros ->; apply Hay; left).
    run. rewrite !insert_insert_eq.
    eexists. split; [reflexivity|]. cbn [nodes lists]. split_and!.
    + split; [split_and!|]; try done.
      * cbn [lists]. by rewrite lookup_insert_eq, Hlen.
      * cbn [nodes]. chain_peel.
      * rewrite <- Hlen. unfold wrap, size_max. apply Z.mod_pos_bound. lia.
    + by rewrite lookup_insert_eq.
    + intros b Hb'. rewrite !lookup_insert_ne; [done|set_solver..].
    + intros b. rewrite !lookup_insert. repeat case_decide; subst; by rewrite ?Ha, ?Hy.
    + intros l' ?. by rewrite lookup_insert_ne.
  - rewrite last_ptr_snoc in *. rewrite !app_nil_r in *. cbn [hd_ptr] in *.
    rewrite last_snoc in HL.
    destruct (chain_is_Some _ _ _ _ q Hch1) as [nq Hq]; [set_solver|].
    assert (a ≠ q) by (intros ->; apply Hax; set_solver).
    assert (last (xs ++ [q]) = Some q) as Hlq by apply last_snoc.
    run. rewrite !insert_insert_eq.
    eexists. split; [reflexivity|]. cbn [nodes lists]. split_and!.
    + split; [split_and!|]; try done.
      * cbn [lists]. rewrite lookup_insert_eq, Hlen, last_snoc.
        by assert (head ((xs ++ [q]) ++ [a]) = head (xs ++ [q])) as -> by by destruct xs.
      * cbn [nodes]. chain_peel.
      * rewrite <- Hlen. unfold wrap, size_max. apply Z.mod_pos_bound. lia.
    + by rewrite lookup_insert_eq.
    + intros b Hb'. rewrite !lookup_insert_ne; [done|set_solver..].
    + intros b. rewrite !lookup_insert. repeat case_decide; subst; by rewrite ?Ha, ?Hq.
    + intros l' ?. by rewrite lookup_insert_ne.
  - rewrite last_ptr_snoc in *. cbn [hd_ptr] in *.
    destruct (chain_is_Some _ _ _ _ q Hch1) as [nq Hq]; [set_solver|].
    destruct (chain_is_Some _ _ _ _ y Hch2) as [ny Hy]; [left|].
    assert (a ≠ q) by (intros ->; apply Hax; set_solver).
    assert (a ≠ y) by (intros ->; apply Hay; left).
    assert (q ≠ y) by (intros ->; apply (Hxy y); set_solver).
    assert (q ∉ y :: ys) by (intros ?; apply (Hxy q); set_solver).
    assert (y ∉ xs ++ [q]) by (intros ?; apply (Hxy y); set_solver).
    assert (last (xs ++ [q]) = Some q) as Hlq by apply last_snoc.
    run. rewrite !insert_insert_eq.
    eexists. split; [reflexivity|]. cbn [nodes lists]. split_and!.
    + split; [split_and!|]; try done.
      * cbn [lists]. rewrite lookup_insert_eq, Hlen.
        assert (head ((xs ++ [q]) ++ a :: y :: ys) = head ((xs ++ [q]) ++ y :: ys)) as ->
          by by destruct xs.
        assert (last ((xs ++ [q]) ++ a :: y :: ys) = last ((xs ++ [q]) ++ y :: ys)) as ->
          by by rewrite !last_app.
        done.
      * cbn [nodes]. apply chain_app. rewrite last_ptr_snoc. cbn [hd_ptr].
        split; chain_peel.
      * rewrite <- Hlen. unfold wrap, size_max. apply Z.mod_pos_bound. lia.
    + by rewrite lookup_insert_eq.
    + intros b Hb'. rewrite !lookup_insert_ne; [done|set_solver..].
    + intros b. rewrite !lookup_insert. repeat case_decide; subst; by rewrite ?Ha, ?Hq, ?Hy.
    + intros l' ?. by rewrite lookup_insert_ne.
Qed.

(** ** remove_if on a list that satisfies the invariant *)

Section RemoveIf.
Context (p : Node → bool) (l : positive) (m0 : Memory).
Hypothesis p_payload : ∀ n n', data n = data n' → p n = p n'.

Lemma holds_preserved m a :
  (∀ b, data <$> nodes m !! b = data <$> nodes m0 !! b) →
  is_Some (nodes m !! a) →
  ∀ nd, nodes m !! a = Some nd → p nd = holds p m0 a.
Proof.
  intros Hdata _ nd Hnd. unfold holds. specialize (Hdata a). rewrite Hnd in Hdata.
  destruct (nodes m0 !! a) as [nd0|]; simplify_eq/=. by apply p_payload.
Qed.

Lemma remove_if_from_spec r ks m fuel :
  (∀ b, data <$> nodes m !! b = data <$> nodes m0 !! b) →
  wf_list m l (ks ++ r) → (length r < fuel)%nat →
  ∃ m', (∀ b, data <$> nodes m' !! b = data <$> nodes m0 !! b) ∧
    ((∃ r' t, r = r' ++ [t] ∧ holds p m0 t = true ∧
              remove_if_from fuel l p (hd_ptr r None) m = Throw InvalidPosition m' ∧
              wf_list m' l (ks ++ survivors p m0 r' ++ [t])) ∨
     ((∀ t, last r = Some t → holds p m0 t = false) ∧
      remove_if_from fuel l p (hd_ptr r None) m = Ok tt m' ∧
      wf_list m' l (ks ++ survivors p m0 r))).
Proof.
  revert ks m fuel. induction r as [|a r IH]; intros ks m fuel Hdata Hwf Hfuel.
  - exists m. split; [done|]. right. destruct fuel; [simpl in Hfuel; lia|].
    split_and!; [done..|]. by rewrite app_nil_r in *.
  - destruct fuel as [|fuel]; [simpl in Hfuel; lia|]. cbn [length] in Hfuel.
    pose proof Hwf as ((HL & Hnd & Hch) & Hb).
    apply chain_app in Hch as [_ (na & Ha & Hap & Han & Hch)].
    cbn [remove_if_from hd_ptr]. unfold_prims. run. rewrite Han.
    rewrite (holds_preserved m a Hdata (mk_is_Some _ _ Ha) na Ha).
    unfold survivors. cbn [List.filter].
    destruct (holds p m0 a) eqn:Hpa; cbn [negb].
    + destruct r as [|b r].
      * exists m. split; [done|]. left. exists [], a.
        split_and!; [done..| |done]. cbn [hd_ptr]. unfold erase, throw. done.
      * destruct Hch as (nb & Hb' & Hbp & _). cbn [hd_ptr]. run. rewrite Hbp.
        destruct (erase_wf m l ks a (b :: r) Hwf) as (m1 & Herase & Hwf1 & _ & _ & Hdata1 & _).
        rewrite Herase.
        destruct (IH ks m1 fuel) as (m' & Hdata' & Hcase); [|done|simpl in *; lia|].
        { intros x. by rewrite Hdata1. }
        exists m'. split; [done|]. cbn [hd_ptr] in Hcase.
        destruct Hcase as [(r' & t & Hr & Ht & Hrun & Hwf')|(Hlast & Hrun & Hwf')].
        -- left. exists (a :: r'), t. rewrite Hr. split_and!; [done..|].
           cbn [List.filter]. by rewrite Hpa.
        -- right. split_and!; [|done..]. intros t Ht. apply Hlast. exact Ht.
    + destruct (IH (ks ++ [a]) m fuel) as (m' & Hdata' & Hcase); [done| |lia|].
      { by rewrite <- app_assoc. }
      exists m'. split; [done|].
      destruct Hcase as [(r' & t & Hr & Ht & Hrun & Hwf')|(Hlast & Hrun & Hwf')].
      * left. exists (a :: r'), t. subst r. split_and!; [done..|].
        cbn [List.filter]. rewrite Hpa. cbn [negb]. by rewrite <- app_assoc in Hwf'.
      * right. split_and!; [|done|by rewrite <- app_assoc in Hwf'].
        intros t Ht. destruct r as [|b r]; [by simplify_eq/=|]. by apply Hlast.
Qed.
End RemoveIf.

(** ** pop_front and pop_back *)

Lemma wf_bound_shrink (n k : nat) : Z.of_nat n < size_max → (k ≤ n)%nat → Z.of_nat k < size_max.
Proof. lia. Qed.

Lemma pop_front_wf m l a xs :
  wf_list m l (a :: xs) →
  ∃ m', pop_front l m = Ok tt m' ∧
        wf_list m' l xs ∧
        hook <$> nodes m' !! a = Some (mkHook None None) ∧
        (∀ b, b ∉ a :: xs → nodes m' !! b = nodes m !! b) ∧
        (∀ b, data <$> nodes m' !! b = data <$> nodes m !! b) ∧
        (∀ l', l' ≠ l → lists m' !! l' = lists m !! l').
Proof.
  intros ((HL & Hnd & Hch) & Hb).
  destruct Hch as ([[pa nx] d] & Ha & Hap & Han & Hch).
  cbn [prev next hook] in Hap, Han. subst pa nx.
  apply NoDup_cons in Hnd as [Hax Hnx].
  assert (wrap (Z.of_nat (length (a :: xs)) - 1) = Z.of_nat (length xs)) as Hlen.
  { cbn [length] in *. rewrite wrap_small; lia. }
  unfold pop_front. unfold_prims. run.
  assert ((Z.of_nat (length (a :: xs)) =? 0) = false) as -> by (simpl; lia).
  cbn [head] in *. run.
  destruct xs as [|y xs]; cbn [hd_ptr] in *.
  - run. rewrite !insert_insert_eq.
    eexists. split; [reflexivity|]. cbn [nodes lists]. split_and!.
    + split; [split_and!|]; try done. cbn [lists]. by rewrite lookup_insert_eq, Hlen.
    + by rewrite lookup_insert_eq.
    + intros b Hb'. rewrite lookup_insert_ne; [done|set_solver].
    + intros b. destruct (decide (b = a)) as [->|?];
        [by rewrite lookup_insert_eq, Ha | by rewrite lookup_insert_ne].
    + intros l' ?. by rewrite lookup_insert_ne.
  - destruct (chain_is_Some _ _ _ _ y Hch) as [ny Hy]; [left|].
    assert (a ≠ y) by (intros ->; apply Hax; left).
    run. rewrite !insert_insert_eq.
    eexists. split; [reflexivity|]. cbn [nodes lists]. split_and!.
    + split; [split_and!|]; try done.
      * cbn [lists]. by rewrite lookup_insert_eq, Hlen.
      * cbn [nodes]. chain_peel.
      * cbn [length] in *. lia.
    + by rewrite lookup_insert_eq.
    + intros b Hb'. rewrite !lookup_insert_ne; [done|set_solver..].
    + intros b. rewrite !lookup_insert. repeat case_decide; subst; by rewrite ?Ha, ?Hy.
    + intros l' ?. by rewrite lookup_insert_ne.
Qed.

Lemma pop_back_wf m l xs t :
  wf_list m l (xs ++ [t]) →
  ∃ m', pop_back l m = Ok tt m' ∧
        (xs ≠ [] → wf_list m' l xs) ∧
        (xs = [] → lists m' !! l = Some (mkList (Some t) None 0)) ∧
        hook <$> nodes m' !! t = Some (mkHook None None) ∧
        (∀ b, b ∉ xs ++ [t] → nodes m' !! b = nodes m !! b) ∧
        (∀ b, b ∈ xs → hook <$> nodes m !! b = Some (mkHook None None) →
              hook <$> nodes m' !! b = Some (mkHook None None)) ∧
        (∀ b, data <$> nodes m' !! b = data <$> nodes m !! b) ∧
        (∀ l', l' ≠ l → lists m' !! l' = lists m !! l').
Proof.
  intros ((HL & Hnd & Hch) & Hb).
  apply chain_app in Hch as [Hch ([[pa nx] d] & Ht & Htp & Htn & _)].
  cbn [prev next hook hd_ptr] in Htp, Htn, Hch. subst pa nx.
  apply NoDup_app in Hnd as (Hnx & Hd & _).
  assert (t ∉ xs) as Htx by (intros Hin; apply (Hd t Hin); left).
  assert (wrap (Z.of_nat (length (xs ++ [t])) - 1) = Z.of_nat (length xs)) as Hlen.
  { rewrite length_app in Hb |- *. cbn [length] in Hb |- *. rewrite wrap_small; lia. }
  rewrite last_snoc in HL.
  unfold pop_back. unfold_prims. run.
  assert ((Z.of_nat (length (xs ++ [t])) =? 0) = false) as ->
    by (apply Z.eqb_neq; rewrite length_app; cbn [length]; lia).
  cbn [orb negb nonnull]. run.
  destruct xs as [|q xs _] using rev_ind.
  - cbn [last_ptr last app head] in *. run. rewrite !insert_insert_eq.
    eexists. split; [reflexivity|]. cbn [nodes lists]. split_and!.
    + done.
    + intros _. by rewrite lookup_insert_eq, Hlen.
    + by rewrite lookup_insert_eq.
    + intros b Hb'. rewrite lookup_insert_ne; [done|set_solver].
    + intros b Hb'. inversion Hb'.
    + intros b. destruct (decide (b = t)) as [->|?];
        [by rewrite lookup_insert_eq, Ht | by rewrite lookup_insert_ne].
    + intros l' ?. by rewrite lookup_insert_ne.
  - rewrite last_ptr_snoc in *.
    destruct (chain_is_Some _ _ _ _ q Hch) as [nq Hq]; [set_solver|].
    assert (t ≠ q) by (intros ->; apply Htx; set_solver).
    assert (last (xs ++ [q]) = Some q) as Hlq by apply last_snoc.
    run. rewrite !insert_insert_eq.
    eexists. split; [reflexivity|]. cbn [nodes lists]. split_and!.
    + intros _. split; [split_and!|]; try done.
      * cbn [lists]. rewrite lookup_insert_eq, Hlen, last_snoc.
        by assert (head ((xs ++ [q]) ++ [t]) = head (xs ++ [q])) as -> by by destruct xs.
      * cbn [nodes]. chain_peel.
      * rewrite !length_app in *. cbn [length] in *. lia.
    + intros Hnil. by destruct xs.
    + by rewrite lookup_insert_eq.
    + intros b Hb'. rewrite !lookup_insert_ne; [done|set_solver..].
    + intros b Hbin Hbh. rewrite lookup_insert_ne by (intros ->; done).
      destruct (decide (b = q)) as [->|?].
      * rewrite lookup_insert_eq. rewrite Hq in Hbh. simplify_eq/=.
        destruct nq as [[??]?]. by simplify_eq/=.
      * by rewrite lookup_insert_ne.
    + intros b. rewrite !lookup_insert. repeat case_decide; subst; by rewrite ?Ht, ?Hq.
    + intros l' ?. by rewrite lookup_insert_ne.
Qed.

(** ** clear *)

(** X5.  [clear()] on a list that satisfies the invariant returns; every
    element's hook is [{nullptr, nullptr}]; the tail is null and the count
    0, and the head is still the old first element, null only when the
    list was empty; nothing outside the list, no payload and no other list
    is written. *)
Theorem clear_spec m l xs fuel :
  wf_list m l xs → (length xs < fuel)%nat →
  ∃ m', clear fuel l m = Ok tt m' ∧
        lists m' !! l = Some (mkList (head xs) None 0) ∧
        (∀ a, a ∈ xs → hook <$> nodes m' !! a = Some (mkHook None None)) ∧
        (∀ b, b ∉ xs → nodes m' !! b = nodes m !! b) ∧
        (∀ b, data <$> nodes m' !! b = data <$> nodes m !! b) ∧
        (∀ l', l' ≠ l → lists m' !! l' = lists m !! l').
Proof.
  revert m fuel. induction xs as [|t xs IH] using rev_ind; intros m fuel Hwf Hfuel.
  - destruct fuel as [|fuel]; [simpl in Hfuel; lia|].
    destruct Hwf as ((HL & _) & _). exists m.
    cbn [clear]. unfold_prims. run. split_and!; try done.
    intros a Ha. inversion Ha.
  - destruct fuel as [|fuel]; [simpl in Hfuel; lia|].
    rewrite length_app in Hfuel. cbn [length] in Hfuel.
    destruct (pop_back_wf m l xs t Hwf)
      as (m1 & Hpop & Hwf1 & Hsole & Ht & Hfr & _ & Hdata & Hls).
    pose proof Hwf as ((HL & _) & Hb).
    assert (clear (S fuel) l m = clear fuel l m1) as ->.
    { cbn [clear]. unfold empty, get_size, load_list, bind, ret. rewrite HL.
      cbn [m_size]. rewrite (proj2 (Z.eqb_neq _ 0)); [by rewrite Hpop|].
      rewrite length_app. cbn [length]. lia. }
    destruct (decide (xs = [])) as [->|Hne].
    + exists m1. destruct fuel as [|fuel]; [simpl in Hfuel; lia|].
      cbn [clear]. unfold_prims. rewrite (Hsole eq_refl). cbn [m_size].
      split_and!; try done.
      intros a Ha. apply list_elem_of_singleton in Ha as ->. done.
    + destruct (IH m1 fuel (Hwf1 Hne)) as (m' & Hrun & HL' & Hun & Hfr' & Hdata' & Hls');
        [lia|].
      exists m'. split_and!.
      * done.
      * rewrite HL'. by destruct xs.
      * intros a Ha. apply elem_of_app in Ha as [Ha|Ha]; [by apply Hun|].
        apply list_elem_of_singleton in Ha as ->.
        rewrite Hfr'; [done|].
        destruct Hwf as ((_ & Hnd & _) & _). apply NoDup_app in Hnd as (_ & Hd & _).
        intros Hin. apply (Hd t Hin). left.
      * intros b Hb'. rewrite Hfr' by set_solver. by apply Hfr.
      * intros b. by rewrite Hdata'.
      * intros l' Hl'. rewrite Hls' by done. by apply Hls.
Qed.

(** ** push_back, push_front and insert *)

Lemma push_back_wf m l xs e :
  wf_list m l xs → e ∉ xs → fresh m e →
  Z.of_nat (length xs) + 1 < size_max →
  ∃ m', push_back l e m = Ok tt m' ∧
        wf_list m' l (xs ++ [e]) ∧
        (∀ a, a ∉ xs → a ≠ e → nodes m' !! a = nodes m !! a) ∧
        (∀ l', l' ≠ l → lists m' !! l' = lists m !! l').
Proof.
  intros (Hth & Hb) He Hfresh Hroom.
  destruct (push_back_threads m l xs _ e Hth He Hfresh) as (m' & Hrun & Hth' & Hfr & Hls).
  exists m'. split_and!; try done. split.
  - rewrite wrap_small in Hth' by lia.
    by replace (Z.of_nat (length (xs ++ [e]))) with (Z.of_nat (length xs) + 1)
      by (rewrite length_app; simpl; lia).
  - rewrite length_app. simpl. lia.
Qed.

Lemma push_front_wf m l xs e :
  wf_list m l xs → e ∉ xs → fresh m e →
  Z.of_nat (length xs) + 1 < size_max →
  ∃ m', push_front l e m = Ok tt m' ∧
        wf_list m' l (e :: xs) ∧
        (∀ a, a ∉ xs → a ≠ e → nodes m' !! a = nodes m !! a) ∧
        (∀ l', l' ≠ l → lists m' !! l' = lists m !! l').
Proof.
  intros ((HL & Hnd & Hch) & Hb) He (nd & Hnode & Hhook) Hroom.
  assert (NoDup (e :: xs)) as Hnd' by by apply NoDup_cons.
  assert (wrap (Z.of_nat (length xs) + 1) = Z.of_nat (length (e :: xs))) as Hlen.
  { cbn [length]. rewrite wrap_small; lia. }
  unfold push_front. unfold_prims. run. rewrite Hhook. run.
  destruct xs as [|y xs].
  - cbn [head last length] in *. run. rewrite !insert_insert_eq.
    eexists. split; [reflexivity|]. split_and!.
    + split; [split_and!|]; try done; cbn [nodes lists length];
        first [ by rewrite lookup_insert_eq, Hlen
              | by (eexists; rewrite lookup_insert_eq)
              | lia ].
    + intros a _ Ha. cbn [nodes]. by rewrite lookup_insert_ne.
    + intros l' Hl'. cbn [lists]. by rewrite lookup_insert_ne.
  - cbn [head] in *.
    destruct (chain_is_Some _ _ _ _ y Hch) as [ny Hy]; [left|].
    assert (e ≠ y) by (intros ->; apply He; left).
    assert (head (y :: xs) = Some y) as Hhy by done.
    destruct (last (y :: xs)) as [t|] eqn:Hlt; [|by apply last_None in Hlt].
    run. rewrite !insert_insert_eq.
    eexists. split; [reflexivity|]. split_and!.
    + split; [split_and!|]; try done.
      * cbn [lists]. rewrite lookup_insert_eq, Hlen.
        change (last (e :: y :: xs)) with (last (y :: xs)). by rewrite Hlt.
      * cbn [nodes]. eexists. rewrite lookup_insert_ne by done. rewrite lookup_insert_eq.
        split_and!; [done..|]. chain_peel.
      * cbn [length] in *. lia.
    + intros a Ha Hae. cbn [nodes].
      assert (y ≠ a) by (intros ->; apply Ha; left).
      by rewrite !lookup_insert_ne.
    + intros l' Hl'. cbn [lists]. by rewrite lookup_insert_ne.
Qed.

Lemma insert_wf m l xs1 xs2 e :
  wf_list m l (xs1 ++ xs2) → e ∉ xs1 ++ xs2 → fresh m e →
  Z.of_nat (length (xs1 ++ xs2)) + 1 < size_max →
  ∃ m', insert l (hd_ptr xs2 None) e m = Ok tt m' ∧
        wf_list m' l (xs1 ++ e :: xs2) ∧
        (∀ a, a ∉ xs1 ++ xs2 → a ≠ e → nodes m' !! a = nodes m !! a) ∧
        (∀ l', l' ≠ l → lists m' !! l' = lists m !! l').
Proof.
  intros Hwf He Hfresh Hroom.
  pose proof Hwf as ((HL & Hnd & Hch) & Hb).
  pose proof Hfresh as (nd & Hnode & Hhook).
  destruct xs1 as [|h xs1].
  - cbn [app] in *.
    destruct (push_front_wf m l xs2 e Hwf He Hfresh Hroom) as (m' & Hrun & Hrest).
    exists m'. split; [|done]. rewrite <- Hrun.
    unfold insert. unfold_prims. run. rewrite Hhook. run.
    assert (hd_ptr xs2 None = head xs2) as -> by by destruct xs2.
    by rewrite bool_decide_eq_true_2.
  - destruct xs2 as [|ph xs2].
    + rewrite app_nil_r in *.
      destruct (push_back_wf m l (h :: xs1) e Hwf He Hfresh Hroom) as (m' & Hrun & Hrest).
      exists m'. split; [|done]. rewrite <- Hrun.
      unfold insert. unfold_prims. run. rewrite Hhook. run.
      cbn [hd_ptr head]. by rewrite bool_decide_eq_false_2.
    + assert (ph ≠ h) as Hphh.
      { apply NoDup_cons in Hnd as [Hh _]. intros ->. apply Hh. set_solver. }
      assert (∃ q xs0, h :: xs1 = xs0 ++ [q]) as (q & xs0 & Hsnoc).
      { destruct (h :: xs1) as [|? ? _] eqn:E using rev_ind; [done|eauto]. }
      assert (head ((h :: xs1) ++ ph :: xs2) = Some h) as Hhead by done.
      assert (head ((h :: xs1) ++ e :: ph :: xs2) = Some h) as Hhead' by done.
      rewrite Hsnoc in *. clear Hsnoc.
      apply chain_app in Hch as [Hch1 Hch2]. cbn [hd_ptr] in Hch1.
      rewrite last_ptr_snoc in Hch2.
      pose proof Hch2 as (nph & Hph & Hphp & _).
      destruct (chain_is_Some _ _ _ _ q Hch1) as [nq Hq]; [set_solver|].
      assert (NoDup (xs0 ++ [q]) ∧ NoDup (ph :: xs2) ∧ (q ∉ ph :: xs2) ∧ (ph ∉ xs0 ++ [q]))
        as (Hn1 & Hn2 & Hq2 & Hph1).
      { apply NoDup_app in Hnd as (? & Hd & ?). split_and!; [done..| |].
        - apply Hd. set_solver.
        - intros Hin. apply (Hd ph Hin). left. }
      assert ((e ∉ xs0 ++ [q]) ∧ (e ∉ ph :: xs2)) as [He1 He2] by set_solver.
      assert (e ≠ q ∧ e ≠ ph ∧ q ≠ ph) as (? & ? & ?).
      { split_and!; [set_solver..|]. intros ->. apply Hq2. left. }
      assert (last (xs0 ++ [q]) = Some q) as Hlq by apply last_snoc.
      assert (head (ph :: xs2) = Some ph) as Hhph by done.
      unfold insert. unfold_prims. run. rewrite Hhook. run.
      rewrite Hhead. cbn [hd_ptr]. rewrite bool_decide_eq_false_2 by congruence.
      run. rewrite Hphp. run. rewrite !insert_insert_eq.
      eexists. split; [reflexivity|]. split_and!.
      * split; [split_and!|].
        -- cbn [lists]. rewrite lookup_insert_eq, Hhead', Hhead.
           assert (last ((xs0 ++ [q]) ++ e :: ph :: xs2)
                   = last ((xs0 ++ [q]) ++ ph :: xs2)) as -> by by rewrite !last_app.
           rewrite wrap_small by lia. do 2 f_equal.
           rewrite !length_app. cbn [length]. lia.
        -- apply NoDup_app. split_and!; [done| |by apply NoDup_cons].
           apply NoDup_app in Hnd as (_ & Hd & _).
           intros x Hx Hin. apply elem_of_cons in Hin as [->|Hin]; [done|by apply (Hd x)].
        -- cbn [nodes]. apply chain_app. rewrite last_ptr_snoc. cbn [hd_ptr].
           split; [chain_peel|].
           eexists. rewrite lookup_insert_ne by done. rewrite lookup_insert_ne by done.
           rewrite lookup_insert_eq. split_and!; [done..|]. chain_peel.
        -- rewrite !length_app in *. cbn [length] in *. lia.
      * intros a Ha Hae. cbn [nodes]. rewrite !lookup_insert_ne; [done|set_solver..].
      * intros l' Hl'. cbn [lists]. by rewrite lookup_insert_ne.
Qed.

(** ** unique *)

Lemma payload_preserved m m' a :
  (∀ b, data <$> nodes m' !! b = data <$> nodes m !! b) →
  payload m' a = payload m a.
Proof.
  intros Hdata. unfold payload. specialize (Hdata a).
  destruct (nodes m' !! a), (nodes m !! a); by simplify_eq/=.
Qed.

Lemma collapse_after_ext m m' k xs :
  (∀ b, data <$> nodes m' !! b = data <$> nodes m !! b) →
  collapse_after m' k xs = collapse_after m k xs.
Proof.
  intros Hdata. revert k. induction xs as [|x xs IH]; intros k; [done|].
  cbn [collapse_after]. rewrite (payload_preserved m m' x Hdata).
  by rewrite !IH.
Qed.

Lemma unique_from_spec m0 l r ks c m fuel :
  (∀ b, data <$> nodes m !! b = data <$> nodes m0 !! b) →
  wf_list m l (ks ++ c :: r) → (length r < fuel)%nat →
  ∃ m', unique_from fuel l (Some c) (hd_ptr r None) m = Ok tt m' ∧
        wf_list m' l (ks ++ c :: collapse_after m0 (payload m0 c) r) ∧
        (∀ b, data <$> nodes m' !! b = data <$> nodes m0 !! b) ∧
        (∀ b, b ∉ ks ++ c :: r → nodes m' !! b = nodes m !! b) ∧
        (∀ l', l' ≠ l → lists m' !! l' = lists m !! l').
Proof.
  revert ks c m fuel. induction r as [|b r IH]; intros ks c m fuel Hdata Hwf Hfuel.
  - destruct fuel; [simpl in Hfuel; lia|]. exists m. by split_and!.
  - destruct fuel as [|fuel]; [simpl in Hfuel; lia|]. cbn [length] in Hfuel.
    pose proof Hwf as ((HL & Hnd & Hch) & Hb).
    apply chain_app in Hch as [_ (nc & Hc & _ & Hcn & (nb & Hb' & _ & Hbn & _))].
    cbn [hd_ptr] in Hcn.
    cbn [unique_from hd_ptr collapse_after]. unfold load_node_at. unfold_prims. run.
    assert (payload m0 c = data nc) as Hpc.
    { rewrite <- (payload_preserved m0 m c Hdata). unfold payload. by rewrite Hc. }
    assert (payload m0 b = data nb) as Hpb.
    { rewrite <- (payload_preserved m0 m b Hdata). unfold payload. by rewrite Hb'. }
    unfold node_eq. rewrite <- Hpc, <- Hpb.
    destruct (payload m0 c =? payload m0 b) eqn:Heq.
    + assert (ks ++ c :: b :: r = (ks ++ [c]) ++ b :: r) as Hre by by rewrite <- app_assoc.
      rewrite Hre in Hwf.
      destruct (erase_wf m l (ks ++ [c]) b r Hwf) as (m1 & Herase & Hwf1 & _ & Hfr1 & Hdata1 & Hls1).
      rewrite Herase. rewrite <- app_assoc in Hwf1.
      destruct (IH ks c m1 fuel) as (m' & Hrun & Hwf' & Hdata' & Hfr' & Hls');
        [by intros x; rewrite Hdata1|done|lia|].
      exists m'. split_and!; [done..| |].
      * intros x Hx. rewrite Hfr' by set_solver. apply Hfr1. by rewrite <- Hre.
      * intros l' Hl'. rewrite Hls' by done. by apply Hls1.
    + run. rewrite Hcn. run. rewrite Hbn.
      assert (ks ++ c :: b :: r = (ks ++ [c]) ++ b :: r) as Hre by by rewrite <- app_assoc.
      rewrite Hre in Hwf.
      destruct (IH (ks ++ [c]) b m fuel) as (m' & Hrun & Hwf' & Hdata' & Hfr' & Hls');
        [done..|lia|].
      rewrite <- app_assoc in Hwf'.
      exists m'. split_and!; [done..| |done].
      intros x Hx. apply Hfr'. by rewrite <- Hre.
Qed.

(** X10.  [unique()] on a list that satisfies the invariant returns; the
    list satisfies the invariant over the old chain with every run of
    adjacent elements of equal payload cut down to its first; no payload,
    nothing outside the old chain and no other list is written. *)
Theorem unique_spec m l xs fuel :
  wf_list m l xs → (length xs < fuel)%nat →
  ∃ m', unique fuel l m = Ok tt m' ∧
        wf_list m' l (collapse m xs) ∧
        (∀ b, data <$> nodes m' !! b = data <$> nodes m !! b) ∧
        (∀ b, b ∉ xs → nodes m' !! b = nodes m !! b) ∧
        (∀ l', l' ≠ l → lists m' !! l' = lists m !! l').
Proof.
  intros Hwf Hfuel. pose proof Hwf as ((HL & Hnd & Hch) & Hb).
  destruct xs as [|c r].
  - unfold unique. unfold_prims. run. exists m. by split_and!.
  - assert ((Z.of_nat (length (c :: r)) =? 0) = false) as Hnz
      by (apply Z.eqb_neq; cbn [length]; lia).
    cbn [head] in HL. destruct Hch as (nc & Hc & _ & Hcn & _).
    unfold unique. unfold_prims. run. rewrite Hnz. run. rewrite Hcn.
    destruct (unique_from_spec m l r [] c m fuel) as (m' & Hrun & Hrest);
      [done|done|simpl in Hfuel; lia|].
    exists m'. by split.
Qed.

(** ** swap, front and back *)

Lemma wf_list_transport m m' l l' xs :
  nodes m' = nodes m → lists m' !! l' = lists m !! l →
  wf_list m l xs → wf_list m' l' xs.
Proof.
  intros Hn Hl ((HL & Hnd & Hch) & Hb). split; [split_and!|]; try done.
  - by rewrite Hl.
  - by rewrite Hn.
Qed.

Lemma swap_run m this other A B :
  lists m !! this = Some A → lists m !! other = Some B →
  swap this other m = Ok tt (mkMem (nodes m) (<[other := A]> (<[this := B]> (lists m)))).
Proof.
  intros HA HB. destruct A as [ha ta sa], B as [hb tb sb].
  unfold swap. unfold_prims. run.
  destruct (decide (this = other)) as [->|Hne].
  - simplify_eq. run. by rewrite !insert_insert_eq.
  - run. apply Ok_mem_eq; [done|].
    apply map_eq. intros k. rewrite !lookup_insert.
    repeat case_decide; simplify_eq; done.
Qed.

(** X11.  [swap(other)], for two lists that satisfy the invariant: it
    returns, no node is written, each list satisfies the invariant over
    the other's old chain, no third list is written, and a second [swap]
    gives back the memory before the first. *)
Theorem swap_spec m this other xs ys :
  wf_list m this xs → wf_list m other ys →
  ∃ m', swap this other m = Ok tt m' ∧
        nodes m' = nodes m ∧
        wf_list m' this ys ∧ wf_list m' other xs ∧
        (∀ l, l ≠ this → l ≠ other → lists m' !! l = lists m !! l) ∧
        swap this other m' = Ok tt m.
Proof.
  intros Hx Hy. pose proof Hx as ((HA & _) & _). pose proof Hy as ((HB & _) & _).
  eexists. split; [by apply swap_run|]. cbn [nodes lists].
  split_and!.
  - done.
  - eapply wf_list_transport; [| |exact Hy]; [done|]. cbn [lists].
    destruct (decide (other = this)) as [->|?].
    + rewrite lookup_insert_eq. by rewrite HA.
    + rewrite lookup_insert_ne by done. by rewrite lookup_insert_eq.
  - eapply wf_list_transport; [| |exact Hx]; [done|]. cbn [lists].
    by rewrite lookup_insert_eq.
  - intros l ? ?. by rewrite !lookup_insert_ne.
  - destruct m as [h ls]. cbn [nodes lists] in *.
    destruct (decide (this = other)) as [->|Hne].
    + simplify_eq. rewrite insert_insert_eq.
      erewrite swap_run; cbn [nodes lists]; [|by rewrite lookup_insert_eq..].
      rewrite ?insert_insert_eq. rewrite insert_id; done.
    + erewrite swap_run; cbn [nodes lists];
        [|by rewrite lookup_insert_ne, lookup_insert_eq | by rewrite lookup_insert_eq].
      f_equal. f_equal. apply map_eq. intros k. rewrite !lookup_insert.
      repeat case_decide; simplify_eq; done.
Qed.

(** X12.  On a list that satisfies the invariant, [front()] and [back()]
    throw when the list is empty, and otherwise return the first and the
    last element of the chain; they write nothing. *)
Theorem front_back_spec m l xs :
  wf_list m l xs →
  (xs = [] → front l m = Throw EmptyContainer m ∧ back l m = Throw EmptyContainer m) ∧
  (∀ a, head xs = Some a → front l m = Ok a m) ∧
  (∀ t, last xs = Some t → back l m = Ok t m).
Proof.
  intros ((HL & _) & _). unfold front, back. unfold_prims. run.
  destruct xs as [|x xs].
  - split_and!; done.
  - assert ((Z.of_nat (length (x :: xs)) =? 0) = false) as ->
      by (apply Z.eqb_neq; cbn [length]; lia).
    split_and!; [done| |].
    + intros a Ha. cbn [head] in *. run. by simplify_eq.
    + intros t Ht. run. by rewrite Ht.
Qed.

(** ** The single-element splice *)

(** The first half of the single-element splice: the element leaves the
    chain of [other]; its own hook is not written. *)
Lemma splice_one_detach m other ys1 e ys2 (K : M unit) :
  wf_list m other (ys1 ++ e :: ys2) →
  ∃ m1,
    ((h <- load_hook e ;;
      match prev h with
      | Some q => set_next q (next h)
      | None => set_head other (next h)
      end) ;;;
     (h <- load_hook e ;;
      match next h with
      | Some q => set_prev q (prev h)
      | None => set_tail other (prev h)
      end) ;;;
     decr_size other ;;; K) m = K m1 ∧
    wf_list m1 other (ys1 ++ ys2) ∧
    nodes m1 !! e = nodes m !! e ∧
    (∀ b, b ∉ ys1 ++ e :: ys2 → nodes m1 !! b = nodes m !! b) ∧
    (∀ b, data <$> nodes m1 !! b = data <$> nodes m !! b) ∧
    (∀ l', l' ≠ other → lists m1 !! l' = lists m !! l').
Proof.
  intros Hwf. pose proof (wf_length_pos _ _ _ _ _ Hwf) as Hlen.
  destruct Hwf as ((HL & Hnd & Hch) & Hb).
  apply chain_app in Hch as [Hch1 Hch2]. cbn [hd_ptr] in Hch1.
  destruct Hch2 as ([[pa nx] d] & Ha & Hap & Han & Hch2).
  cbn [prev next hook] in Hap, Han. subst pa nx.
  assert (NoDup ys1 ∧ NoDup ys2 ∧ (e ∉ ys1) ∧ (e ∉ ys2) ∧ ys1 ## ys2)
    as (Hnx & Hny & Hax & Hay & Hxy).
  { apply NoDup_app in Hnd as (? & Hd & Hn). apply NoDup_cons in Hn as [? ?].
    split_and!; try done.
    - intros Hin. apply (Hd e Hin). left.
    - intros x Hx Hy. apply (Hd x Hx). by right. }
  assert (NoDup (ys1 ++ ys2)) as Hnd' by (apply NoDup_app; split_and!; [done|set_solver|done]).
  assert (Z.of_nat (length (ys1 ++ ys2)) < size_max) as Hb'.
  { rewrite !length_app in *. cbn [length] in Hb. lia. }
  unfold_prims. run.
  destruct ys1 as [|q ys1 _] using rev_ind; destruct ys2 as [|y ys2].
  - cbn [last_ptr last hd_ptr app head length] in *. run.
    rewrite !insert_insert_eq.
    eexists. split; [reflexivity|]. cbn [nodes lists]. split_and!; try done.
    + split; [split_and!|]; try done. cbn [lists]. by rewrite lookup_insert_eq, Hlen.
    + intros l' ?. by rewrite lookup_insert_ne.
  - cbn [last_ptr last hd_ptr app head] in *.
    destruct (chain_is_Some _ _ _ _ y Hch2) as [ny Hy]; [left|].
    assert (e ≠ y) by (intros ->; apply Hay; left).
    run. rewrite !insert_insert_eq.
    eexists. split; [reflexivity|]. cbn [nodes lists]. split_and!.
    + split; [split_and!|]; try done.
      * cbn [lists]. by rewrite lookup_insert_eq, Hlen.
      * cbn [nodes]. chain_peel.
    + by rewrite lookup_insert_ne.
    + intros b Hbn. rewrite !lookup_insert_ne; [done|set_solver..].
    + intros b. rewrite !lookup_insert. repeat case_decide; subst; by rewrite ?Ha, ?Hy.
    + intros l' ?. by rewrite lookup_insert_ne.
  - rewrite last_ptr_snoc in *. rewrite !app_nil_r in *. cbn [hd_ptr] in *.
    rewrite last_snoc in HL.
    destruct (chain_is_Some _ _ _ _ q Hch1) as [nq Hq]; [set_solver|].
    assert (e ≠ q) by (intros ->; apply Hax; set_solver).
    assert (last (ys1 ++ [q]) = Some q) as Hlq by apply last_snoc.
    run. rewrite !insert_insert_eq.
    eexists. split; [reflexivity|]. cbn [nodes lists]. split_and!.
    + split; [split_and!|]; try done.
      * cbn [lists]. rewrite lookup_insert_eq, Hlen, last_snoc.
        by assert (head ((ys1 ++ [q]) ++ [e]) = head (ys1 ++ [q])) as -> by by destruct ys1.
      * cbn [nodes]. chain_peel.
    + by rewrite lookup_insert_ne.
    + intros b Hbn. rewrite !lookup_insert_ne; [done|set_solver..].
    + intros b. rewrite !lookup_insert. repeat case_decide; subst; by rewrite ?Ha, ?Hq.
    + intros l' ?. by rewrite lookup_insert_ne.
  - rewrite last_ptr_snoc in *. cbn [hd_ptr] in *.
    destruct (chain_is_Some _ _ _ _ q Hch1) as [nq Hq]; [set_solver|].
    destruct (chain_is_Some _ _ _ _ y Hch2) as [ny Hy]; [left|].
    assert (e ≠ q) by (intros ->; apply Hax; set_solver).
    assert (e ≠ y) by (intros ->; apply Hay; left).
    assert (q ≠ y) by (intros ->; apply (Hxy y); set_solver).
    assert (q ∉ y :: ys2) by (intros ?; apply (Hxy q); set_solver).
    assert (y ∉ ys1 ++ [q]) by (intros ?; apply (Hxy y); set_solver).
    assert (last (ys1 ++ [q]) = Some q) as Hlq by apply last_snoc.
    run. rewrite ?insert_insert_eq.
    eexists. split; [reflexivity|]. cbn [nodes lists]. split_and!.
    + split; [split_and!|]; try done.
      * cbn [lists]. rewrite lookup_insert_eq, Hlen.
        assert (head ((ys1 ++ [q]) ++ e :: y :: ys2) = head ((ys1 ++ [q]) ++ y :: ys2)) as ->
          by by destruct ys1.
        assert (last ((ys1 ++ [q]) ++ e :: y :: ys2) = last ((ys1 ++ [q]) ++ y :: ys2)) as ->
          by by rewrite !last_app.
        done.
      * cbn [nodes]. apply chain_app. rewrite last_ptr_snoc. cbn [hd_ptr].
        split; chain_peel.
    + by rewrite !lookup_insert_ne.
    + intros b Hbn. rewrite !lookup_insert_ne; [done|set_solver..].
    + intros b. rewrite !lookup_insert. repeat case_decide; subst; by rewrite ?Ha, ?Hq, ?Hy.
    + intros l' ?. by rewrite lookup_insert_ne.
Qed.

(** The second half: the hook is linked before [pos], whatever it held. *)
Lemma splice_one_attach m this xs1 xs2 e :
  wf_list m this (xs1 ++ xs2) → e ∉ xs1 ++ xs2 → is_Some (nodes m !! e) →
  Z.of_nat (length (xs1 ++ xs2)) + 1 < size_max →
  ∃ m',
    ((match hd_ptr xs2 None with
      | None =>
          (tl <- get_tail this ;; set_prev e tl) ;;;
          set_next e None ;;;
          (tl <- get_tail this ;;
           match tl with
           | Some t => set_next t (Some e)
           | None => ret tt
           end) ;;;
          set_tail this (Some e) ;;;
          (hd <- get_head this ;;
           match hd with
           | Some _ => ret tt
           | None => set_head this (Some e)
           end)
      | Some posHook =>
          set_next e (Some posHook) ;;;
          (ph <- load_hook posHook ;; set_prev e (prev ph)) ;;;
          (ph <- load_hook posHook ;;
           match prev ph with
           | Some q => set_next q (Some e)
           | None => set_head this (Some e)
           end) ;;;
          set_prev posHook (Some e)
      end) ;;;
     incr_size this) m = Ok tt m' ∧
    wf_list m' this (xs1 ++ e :: xs2) ∧
    (∀ b, b ∉ xs1 ++ xs2 → b ≠ e → nodes m' !! b = nodes m !! b) ∧
    (∀ b, data <$> nodes m' !! b = data <$> nodes m !! b) ∧
    (∀ l', l' ≠ this → lists m' !! l' = lists m !! l').
Proof.
  intros ((HL & Hnd & Hch) & Hb) He [nd Hnode] Hroom.
  assert (NoDup (xs1 ++ e :: xs2)) as Hnd'.
  { apply NoDup_app in Hnd as (? & Hd & ?).
    apply NoDup_app. split_and!; [done| |apply NoDup_cons; split; [set_solver|done]].
    intros x Hx Hin. apply elem_of_cons in Hin as [->|Hin]; [set_solver|by apply (Hd x)]. }
  assert (wrap (Z.of_nat (length (xs1 ++ xs2)) + 1) = Z.of_nat (length (xs1 ++ e :: xs2))) as Hlen.
  { rewrite wrap_small by lia. rewrite !length_app. cbn [length]. lia. }
  assert (Z.of_nat (length (xs1 ++ e :: xs2)) < size_max) as Hb'.
  { rewrite !length_app in *. cbn [length]. lia. }
  destruct xs2 as [|ph xs2]; cbn [hd_ptr].
  - rewrite app_nil_r in *. unfold_prims. run.
    destruct xs1 as [|t xs1 _] using rev_ind.
    + cbn [head last app] in *. run. rewrite !insert_insert_eq.
      eexists. split; [reflexivity|]. cbn [nodes lists]. split_and!.
      * split; [split_and!|]; try done.
        -- cbn [lists]. by rewrite lookup_insert_eq, Hlen.
        -- cbn [nodes]. eexists. by rewrite lookup_insert_eq.
      * intros b _ ?. by rewrite lookup_insert_ne.
      * intros b. rewrite !lookup_insert. repeat case_decide; subst; by rewrite ?Hnode.
      * intros l' ?. by rewrite lookup_insert_ne.
    + rewrite last_snoc in HL. rewrite ?last_snoc.
      destruct (chain_is_Some _ _ _ _ t Hch) as [nt Hnt]; [set_solver|].
      assert (t ≠ e) by set_solver.
      assert (last (xs1 ++ [t]) = Some t) as Hlt by apply last_snoc.
      assert (NoDup (xs1 ++ [t])) as Hn1 by done.
      run.
      destruct (head (xs1 ++ [t])) as [hd|] eqn:Hhead; [|by destruct xs1].
      run. rewrite !insert_insert_eq.
      eexists. split; [reflexivity|]. cbn [nodes lists]. split_and!.
      * split; [split_and!|]; try done.
        -- cbn [lists]. rewrite lookup_insert_eq, Hlen, last_snoc.
           by assert (head ((xs1 ++ [t]) ++ [e]) = Some hd) as -> by by destruct xs1.
        -- cbn [nodes]. apply chain_app. rewrite last_ptr_snoc. cbn [hd_ptr]. split.
           ++ chain_peel.
           ++ eexists. rewrite lookup_insert_ne by done. by rewrite lookup_insert_eq.
      * intros b Hbn ?. rewrite !lookup_insert_ne; [done|set_solver..].
      * intros b. rewrite !lookup_insert. repeat case_decide; subst; by rewrite ?Hnode, ?Hnt.
      * intros l' ?. by rewrite lookup_insert_ne.
  - apply chain_app in Hch as [Hch1 Hch2]. cbn [hd_ptr] in Hch1.
    pose proof Hch2 as (nph & Hph & Hphp & _).
    assert (NoDup xs1 ∧ NoDup (ph :: xs2) ∧ (ph ∉ xs1)) as (Hn1 & Hn2 & Hph1).
    { apply NoDup_app in Hnd as (? & Hd & ?). split_and!; [done..|].
      intros Hin. apply (Hd ph Hin). left. }
    assert ((e ∉ xs1) ∧ (e ∉ ph :: xs2) ∧ e ≠ ph) as (He1 & He2 & ?) by set_solver.
    assert (head (ph :: xs2) = Some ph) as Hhph by done.
    unfold_prims. run. rewrite Hphp.
    destruct xs1 as [|q xs1 _] using rev_ind.
    + cbn [last_ptr last app head] in *. run. rewrite !insert_insert_eq.
      eexists. split; [reflexivity|]. cbn [nodes lists]. split_and!.
      * split; [split_and!|]; try done.
        -- cbn [lists]. rewrite lookup_insert_eq, Hlen.
           change (last (e :: ph :: xs2)) with (last (ph :: xs2)). done.
        -- cbn [nodes]. eexists. rewrite lookup_insert_ne by done. rewrite lookup_insert_eq.
           split_and!; [done..|]. chain_peel.
      * intros b Hbn ?. rewrite !lookup_insert_ne; [done|set_solver..].
      * intros b. rewrite !lookup_insert. repeat case_decide; subst; by rewrite ?Hnode, ?Hph.
      * intros l' ?. by rewrite lookup_insert_ne.
    + rewrite last_ptr_snoc in *.
      destruct (chain_is_Some _ _ _ _ q Hch1) as [nq Hq]; [set_solver|].
      assert (q ∉ ph :: xs2) as Hq2.
      { apply NoDup_app in Hnd as (_ & Hd & _). apply Hd. set_solver. }
      assert (e ≠ q ∧ q ≠ ph) as [? ?].
      { split; [set_solver|]. intros ->. apply Hq2. left. }
      assert (last (xs1 ++ [q]) = Some q) as Hlq by apply last_snoc.
      run. rewrite !insert_insert_eq.
      eexists. split; [reflexivity|]. cbn [nodes lists]. split_and!.
      * split; [split_and!|]; try done.
        -- cbn [lists]. rewrite lookup_insert_eq, Hlen. do 2 f_equal.
           ++ by destruct xs1.
           ++ by rewrite !last_app.
        -- cbn [nodes]. apply chain_app. rewrite last_ptr_snoc. cbn [hd_ptr].
           split; [chain_peel|].
           eexists. rewrite lookup_insert_ne by done. rewrite lookup_insert_ne by done.
           rewrite lookup_insert_eq. split_and!; [done..|]. chain_peel.
      * intros b Hbn ?. rewrite !lookup_insert_ne; [done|set_solver..].
      * intros b. rewrite !lookup_insert.
        repeat case_decide; subst; by rewrite ?Hnode, ?Hph, ?Hq.
      * intros l' ?. by rewrite lookup_insert_ne.
Qed.

Lemma wf_list_frame m m' l xs :
  (∀ b, b ∈ xs → nodes m' !! b = nodes m !! b) →
  lists m' !! l = lists m !! l →
  wf_list m l xs → wf_list m' l xs.
Proof.
  intros Hn Hl ((HL & Hnd & Hch) & Hb). split; [split_and!|]; try done.
  - by rewrite Hl.
  - by eapply chain_ext.
Qed.

Lemma splice_one_wf m this other xs1 xs2 ys1 e ys2 :
  this ≠ other →
  wf_list m this (xs1 ++ xs2) → wf_list m other (ys1 ++ e :: ys2) →
  (xs1 ++ xs2) ## (ys1 ++ e :: ys2) →
  Z.of_nat (length (xs1 ++ xs2)) + 1 < size_max →
  ∃ m', splice_one this (hd_ptr xs2 None) other (Some e) m = Ok tt m' ∧
        wf_list m' this (xs1 ++ e :: xs2) ∧
        wf_list m' other (ys1 ++ ys2) ∧
        (∀ b, data <$> nodes m' !! b = data <$> nodes m !! b) ∧
        (∀ b, b ∉ xs1 ++ xs2 → b ∉ ys1 ++ e :: ys2 → nodes m' !! b = nodes m !! b) ∧
        (∀ l, l ≠ this → l ≠ other → lists m' !! l = lists m !! l).
Proof.
  intros Hne Hx Hy Hdisj Hroom.
  unfold splice_one.
  match goal with
  | |- context [ bind (decr_size other) (fun _ => ?K) ] =>
      destruct (splice_one_detach m other ys1 e ys2 K Hy)
        as (m1 & Hrun1 & Hy1 & He1 & Hfr1 & Hdata1 & Hls1)
  end.
  rewrite Hrun1.
  assert (e ∉ xs1 ++ xs2) as Hex by (intros Hin; apply (Hdisj e Hin); set_solver).
  assert (wf_list m1 this (xs1 ++ xs2)) as Hx1.
  { eapply wf_list_frame; [| |exact Hx].
    - intros b Hb. apply Hfr1. intros Hin. by apply (Hdisj b).
    - by apply Hls1. }
  assert (is_Some (nodes m1 !! e)) as HeS.
  { rewrite He1. destruct Hy as ((_ & _ & Hch) & _).
    eapply chain_is_Some; [done|]. set_solver. }
  destruct (splice_one_attach m1 this xs1 xs2 e Hx1 Hex HeS Hroom)
    as (m' & Hrun2 & Hx' & Hfr2 & Hdata2 & Hls2).
  exists m'. split_and!.
  - done.
  - done.
  - eapply wf_list_frame; [| |exact Hy1].
    + intros b Hb. apply Hfr2.
      * intros Hin. apply (Hdisj b Hin). set_solver.
      * intros ->. destruct Hy as ((_ & Hnd & _) & _).
        apply NoDup_app in Hnd as (_ & Hd & Hn). apply NoDup_cons in Hn as [? _].
        apply elem_of_app in Hb as [Hb|Hb]; [|done]. apply (Hd e Hb). left.
    + by apply Hls2.
  - intros b. by rewrite Hdata2.
  - intros b Hb1 Hb2. rewrite Hfr2; [by apply Hfr1|done|]. intros ->. set_solver.
  - intros l ? ?. rewrite Hls2 by done. by apply Hls1.
Qed.

Lemma splice_one_end m this pos other :
  splice_one this pos other end_ m = Throw InvalidPosition m.
Proof. done. Qed.

(** ** The range splice *)

Lemma hd_ptr_app xs ys n : hd_ptr (xs ++ ys) n = hd_ptr xs (hd_ptr ys n).
Proof. by destruct xs. Qed.

Lemma last_app_cons (xs : list positive) y ys : last (xs ++ y :: ys) = last (y :: ys).
Proof.
  rewrite last_app. by destruct (last (y :: ys)) eqn:E; [|apply last_None in E].
Qed.

Lemma block_tail_seg m p run n fuel bt :
  chain (nodes m) p run n → (∀ x, x ∈ run → Some x ≠ n) → (length run < fuel)%nat →
  block_tail fuel (hd_ptr run n) n bt m = Ok (last_ptr bt run) m.
Proof.
  revert p fuel bt. induction run as [|x run IH]; intros p fuel bt Hch Hn Hfuel.
  - destruct fuel; [simpl in Hfuel; lia|]. cbn [block_tail hd_ptr].
    by rewrite bool_decide_eq_true_2.
  - destruct fuel as [|fuel]; [simpl in Hfuel; lia|].
    destruct Hch as (nd & Hx & _ & Hnx & Hrest).
    cbn [block_tail hd_ptr]. rewrite bool_decide_eq_false_2 by (apply Hn; left).
    unfold_prims. run. rewrite Hnx, last_ptr_cons.
    apply (IH (Some x)); [done| |simpl in Hfuel; lia].
    intros y Hy. apply Hn. by right.
Qed.

Lemma count_run_seg m p run n fuel c :
  chain (nodes m) p run n → (∀ x, x ∈ run → Some x ≠ n) → (length run < fuel)%nat →
  0 ≤ c → c + Z.of_nat (length run) < size_max →
  count_run fuel (hd_ptr run n) n c m = Ok (c + Z.of_nat (length run)) m.
Proof.
  revert p fuel c. induction run as [|x run IH]; intros p fuel c Hch Hn Hfuel Hc Hbound.
  - destruct fuel; [simpl in Hfuel; lia|]. cbn [count_run hd_ptr].
    rewrite bool_decide_eq_true_2 by done. unfold ret. f_equal. simpl. lia.
  - destruct fuel as [|fuel]; [simpl in Hfuel; lia|].
    destruct Hch as (nd & Hx & _ & Hnx & Hrest).
    cbn [count_run hd_ptr]. rewrite bool_decide_eq_false_2 by (apply Hn; left).
    unfold_prims. run. rewrite Hnx.
    cbn [length] in Hbound, Hfuel.
    rewrite (IH (Some x)); [|done| |lia|..].
    + f_equal. rewrite wrap_small by lia. cbn [length]. lia.
    + intros y Hy. apply Hn. by right.
    + rewrite wrap_small; lia.
    + rewrite wrap_small; lia.
Qed.

(** The first half of the range splice, after the walk to the block's
    tail: the run leaves the chain of [other], and is counted. *)
Lemma splice_range_detach m other ys1 f run ys2 fuel (K : Z → M unit) :
  wf_list m other (ys1 ++ (f :: run) ++ ys2) → (length (f :: run) < fuel)%nat →
  ∃ m1,
    ((fh <- load_hook_at (Some f) ;;
      match prev fh with
      | Some q => set_next q (hd_ptr ys2 None)
      | None => set_head other (hd_ptr ys2 None)
      end) ;;;
     (match hd_ptr ys2 None with
      | Some lh => fh <- load_hook_at (Some f) ;; set_prev lh (prev fh)
      | None => fh <- load_hook_at (Some f) ;; set_tail other (prev fh)
      end) ;;;
     count <- count_run fuel (Some f) (hd_ptr ys2 None) 0 ;;
     (osz <- get_size other ;; set_size other (wrap (osz - count))) ;;;
     K count) m = K (Z.of_nat (length (f :: run))) m1 ∧
    wf_list m1 other (ys1 ++ ys2) ∧
    (∀ b, b ∈ f :: run → nodes m1 !! b = nodes m !! b) ∧
    (∀ b, b ∉ ys1 ++ (f :: run) ++ ys2 → nodes m1 !! b = nodes m !! b) ∧
    (∀ b, data <$> nodes m1 !! b = data <$> nodes m !! b) ∧
    (∀ l', l' ≠ other → lists m1 !! l' = lists m !! l').
Proof.
  intros ((HL & Hnd & Hch) & Hb) Hfuel.
  pose proof Hch as Hch0.
  apply chain_app in Hch as [Hch1 Hch2]. rewrite hd_ptr_app in Hch1. cbn [hd_ptr] in Hch1.
  apply chain_app in Hch2 as [Hchr Hch2].
  pose proof Hchr as (nf & Hf & Hfp & _).
  assert (NoDup ys1 ∧ NoDup (f :: run) ∧ NoDup ys2 ∧ ys1 ## (f :: run) ∧ ys1 ## ys2
          ∧ (f :: run) ## ys2) as (Hn1 & Hnr & Hn2 & H1r & H12 & Hr2).
  { apply NoDup_app in Hnd as (? & Hd & Hn). apply NoDup_app in Hn as (? & Hd' & ?).
    split_and!; [done..| | |done].
    - intros x Hx Hin. apply (Hd x Hx). set_solver.
    - intros x Hx Hin. apply (Hd x Hx). set_solver. }
  assert (NoDup (ys1 ++ ys2)) as Hnd' by (apply NoDup_app; split_and!; done).
  assert (Z.of_nat (length (ys1 ++ (f :: run) ++ ys2)) - Z.of_nat (length (f :: run))
          = Z.of_nat (length (ys1 ++ ys2))) as Hlen.
  { rewrite !length_app. lia. }
  assert (Z.of_nat (length (ys1 ++ ys2)) < size_max) as Hb'.
  { rewrite !length_app in *. lia. }
  assert (Z.of_nat (length (f :: run)) < size_max) as Hbr.
  { rewrite !length_app in *. lia. }
  assert (∀ x, x ∈ f :: run → Some x ≠ hd_ptr ys2 None) as Hnl.
  { intros x Hx. destruct ys2 as [|y ys2]; [done|]. cbn [hd_ptr]. intros [= ->].
    apply (Hr2 y Hx). left. }
  assert (∀ h ls, (∀ b, b ∈ f :: run → h !! b = nodes m !! b) →
            count_run fuel (Some f) (hd_ptr ys2 None) 0 (mkMem h ls)
            = Ok (Z.of_nat (length (f :: run))) (mkMem h ls)) as Hcount.
  { intros h ls Hagree.
    change (Some f) with (hd_ptr (f :: run) (hd_ptr ys2 None)).
    rewrite (count_run_seg (mkMem h ls) (last_ptr None ys1) (f :: run) _ fuel 0);
      [done| |done..|lia|lia].
    cbn [nodes]. by eapply chain_ext. }
  unfold_prims. run. rewrite Hfp.
  destruct ys1 as [|q ys1 _] using rev_ind; destruct ys2 as [|y ys2].
  - cbn [last_ptr last hd_ptr] in *. rewrite !app_nil_r in *. cbn [app] in *. run.
    rewrite Hfp. rewrite Hcount by done. run.
    rewrite !insert_insert_eq.
    eexists. split; [reflexivity|]. cbn [nodes lists]. split_and!; try done.
    + split; [split_and!|]; try done. cbn [lists].
      by rewrite lookup_insert_eq, Z.sub_diag.
    + intros l' ?. by rewrite lookup_insert_ne.
  - cbn [last_ptr last hd_ptr] in *. cbn [app] in *.
    destruct (chain_is_Some _ _ _ _ y Hch2) as [ny Hy]; [left|].
    assert (y ∉ f :: run) as Hyr by (intros Hin; apply (Hr2 y Hin); left).
    assert (head (y :: ys2) = Some y) as Hhy by done.
    run. rewrite Hfp.
    rewrite Hcount by (intros b Hb0; rewrite lookup_insert_ne; [done|by intros ->]).
    run. rewrite !insert_insert_eq.
    eexists. split; [reflexivity|]. cbn [nodes lists]. split_and!.
    + split; [split_and!|]; try done.
      * cbn [lists]. rewrite lookup_insert_eq, Hlen.
        rewrite wrap_small by (split; [lia|exact Hb']). do 2 f_equal.
        apply (last_app_cons (f :: run)).
      * cbn [nodes]. chain_peel.
    + intros b Hb0. rewrite lookup_insert_ne; [done|by intros ->].
    + intros b Hb0. rewrite lookup_insert_ne; [done|]. intros ->. apply Hb0. set_solver.
    + intros b. rewrite !lookup_insert. repeat case_decide; subst; by rewrite ?Hy.
    + intros l' ?. by rewrite lookup_insert_ne.
  - rewrite last_ptr_snoc in *. rewrite !app_nil_r in *. cbn [hd_ptr] in *.
    destruct (chain_is_Some _ _ _ _ q Hch1) as [nq Hq]; [set_solver|].
    assert (q ∉ f :: run) as Hqr by (intros Hin; apply (H1r q); set_solver).
    assert (q ≠ f) as Hqf by (intros ->; apply Hqr; left).
    assert (last (ys1 ++ [q]) = Some q) as Hlq by apply last_snoc.
    run. rewrite Hfp.
    rewrite Hcount by (intros b Hb0; rewrite lookup_insert_ne; [done|by intros ->]).
    run. rewrite !insert_insert_eq.
    eexists. split; [reflexivity|]. cbn [nodes lists]. split_and!.
    + split; [split_and!|]; try done.
      * cbn [lists]. rewrite lookup_insert_eq, Hlen, last_snoc.
        rewrite wrap_small by (split; [lia|exact Hb']). do 2 f_equal.
        by destruct ys1.
      * cbn [nodes]. chain_peel.
    + intros b Hb0. rewrite lookup_insert_ne; [done|by intros ->].
    + intros b Hb0. rewrite lookup_insert_ne; [done|]. intros ->. apply Hb0. set_solver.
    + intros b. rewrite !lookup_insert. repeat case_decide; subst; by rewrite ?Hq.
    + intros l' ?. by rewrite lookup_insert_ne.
  - rewrite last_ptr_snoc in *. cbn [hd_ptr] in *.
    destruct (chain_is_Some _ _ _ _ q Hch1) as [nq Hq]; [set_solver|].
    destruct (chain_is_Some _ _ _ _ y Hch2) as [ny Hy]; [left|].
    assert (q ∉ f :: run) as Hqr by (intros Hin; apply (H1r q); set_solver).
    assert (q ≠ f) as Hqf by (intros ->; apply Hqr; left).
    assert (y ∉ f :: run) as Hyr by (intros Hin; apply (Hr2 y Hin); left).
    assert (q ≠ y) by (intros ->; apply (H12 y); set_solver).
    assert (q ∉ y :: ys2) by (intros ?; apply (H12 q); set_solver).
    assert (y ∉ ys1 ++ [q]) by (intros ?; apply (H12 y); set_solver).
    assert (last (ys1 ++ [q]) = Some q) as Hlq by apply last_snoc.
    assert (head (y :: ys2) = Some y) as Hhy by done.
    run. rewrite Hfp.
    rewrite Hcount by (intros b Hb0; rewrite !lookup_insert_ne; [done|by intros ->..]).
    run. rewrite ?insert_insert_eq.
    eexists. split; [reflexivity|]. cbn [nodes lists]. split_and!.
    + split; [split_and!|]; try done.
      * cbn [lists]. rewrite lookup_insert_eq, Hlen.
        rewrite wrap_small by (split; [lia|exact Hb']). do 2 f_equal.
        -- by destruct ys1.
        -- rewrite (last_app_cons (ys1 ++ [q]) y ys2), (app_assoc (ys1 ++ [q])).
           apply last_app_cons.
      * cbn [nodes]. apply chain_app. rewrite last_ptr_snoc. cbn [hd_ptr].
        split; chain_peel.
    + intros b Hb0. rewrite !lookup_insert_ne; [done|by intros ->..].
    + intros b Hb0. rewrite !lookup_insert_ne; [done|intros ->; apply Hb0; set_solver..].
    + intros b. rewrite !lookup_insert. repeat case_decide; subst; by rewrite ?Hq, ?Hy.
    + intros l' ?. by rewrite lookup_insert_ne.
Qed.

Lemma data_insert (h h0 : gmap positive Node) a nd nd' :
  (∀ b, data <$> h !! b = data <$> h0 !! b) → h !! a = Some nd → data nd' = data nd →
  ∀ b, data <$> <[a := nd']> h !! b = data <$> h0 !! b.
Proof.
  intros Hh Ha Hd b. destruct (decide (b = a)) as [->|Hne].
  - by rewrite lookup_insert_eq, <- Hh, Ha; simpl; f_equal.
  - by rewrite lookup_insert_ne.
Qed.

Ltac data_peel :=
  repeat (eapply data_insert; [ | solve_lookup | reflexivity ]); done.

(** The second half of the range splice: the run is linked before [pos]. *)
Lemma splice_range_attach m this xs1 xs2 ys p0 n0 f bt :
  wf_list m this (xs1 ++ xs2) → chain (nodes m) p0 ys n0 → NoDup ys →
  head ys = Some f → last ys = Some bt →
  (xs1 ++ xs2) ## ys →
  Z.of_nat (length (xs1 ++ xs2)) + Z.of_nat (length ys) < size_max →
  ∃ m',
    ((match hd_ptr xs2 None with
      | None =>
          (tl <- get_tail this ;;
           match tl with
           | Some t =>
               set_next t (Some f) ;;;
               (tl' <- get_tail this ;; set_prev_at (Some f) tl')
           | None =>
               set_head this (Some f) ;;;
               set_prev_at (Some f) None
           end) ;;;
          set_tail this (Some bt) ;;;
          set_next_at (Some bt) None
      | Some ph =>
          h <- load_hook ph ;;
          let prv := prev h in
          (match prv with
           | Some q =>
               set_next q (Some f) ;;;
               set_prev_at (Some f) prv
           | None =>
               set_head this (Some f) ;;;
               set_prev_at (Some f) None
           end) ;;;
          set_prev ph (Some bt) ;;;
          set_next_at (Some bt) (Some ph)
      end) ;;;
     (sz <- get_size this ;; set_size this (wrap (sz + Z.of_nat (length ys))))) m
    = Ok tt m' ∧
    wf_list m' this (xs1 ++ ys ++ xs2) ∧
    (∀ b, b ∉ xs1 ++ xs2 → b ∉ ys → nodes m' !! b = nodes m !! b) ∧
    (∀ b, data <$> nodes m' !! b = data <$> nodes m !! b) ∧
    (∀ l', l' ≠ this → lists m' !! l' = lists m !! l').
Proof.
  intros ((HL & Hndx & Hch) & Hb) Hchy Hndy Hhd Hlt Hdisj Hroom.
  pose proof (head_elem_of _ _ Hhd) as Hfin.
  pose proof (last_elem_of _ _ Hlt) as Hbtin.
  pose proof (chain_is_Some _ _ _ _ _ Hchy Hfin) as HfS.
  pose proof (chain_is_Some _ _ _ _ _ Hchy Hbtin) as HbtS.
  assert (NoDup (xs1 ++ ys ++ xs2)) as Hnd.
  { apply NoDup_app in Hndx as (Hnd1 & Hd & Hnd2).
    apply NoDup_app. split_and!; [done|set_solver|].
    apply NoDup_app. split_and!; [done|set_solver|done]. }
  assert (wrap (Z.of_nat (length (xs1 ++ xs2)) + Z.of_nat (length ys))
          = Z.of_nat (length (xs1 ++ ys ++ xs2))) as Hlen.
  { rewrite wrap_small by lia. rewrite !length_app. lia. }
  assert (Z.of_nat (length (xs1 ++ ys ++ xs2)) < size_max) as Hb'.
  { rewrite !length_app in *. lia. }
  assert (NoDup xs1 ∧ NoDup xs2) as [Hnd1 Hnd2].
  { by apply NoDup_app in Hndx as (? & _ & ?). }
  destruct xs2 as [|ph xs2]; cbn [hd_ptr].
  - rewrite !app_nil_r in *. unfold_prims. run.
    destruct xs1 as [|t xs1 _] using rev_ind.
    + cbn [head last app] in *. run. step_lookup. run. step_lookup. run.
      rewrite ?insert_insert_eq.
      eexists. split; [reflexivity|]. cbn [nodes lists]. split_and!.
      * split; [split_and!|]; try done.
        -- cbn [lists]. by rewrite lookup_insert_eq, Hlen, Hhd, Hlt.
        -- cbn [nodes]. chain_peel.
      * intros b _ Hbn. rewrite !lookup_insert_ne; [done|set_solver..].
      * data_peel.
      * intros l' ?. by rewrite lookup_insert_ne.
    + rewrite last_snoc in HL. rewrite ?last_snoc.
      destruct (chain_is_Some _ _ _ _ t Hch) as [nt Hnt]; [set_solver|].
      assert (t ∉ ys) as Hty by (intros Hin; apply (Hdisj t); set_solver).
      assert (t ≠ f ∧ t ≠ bt) as [? ?] by (split; intros ->; done).
      assert ((f ∉ xs1 ++ [t]) ∧ (bt ∉ xs1 ++ [t])) as [? ?].
      { split; intros Hin; by apply (Hdisj _ Hin). }
      assert (last (xs1 ++ [t]) = Some t) as Hlst by apply last_snoc.
      run. step_lookup. run. step_lookup. run.
      rewrite ?insert_insert_eq.
      eexists. split; [reflexivity|]. cbn [nodes lists]. split_and!.
      * split; [split_and!|]; try done.
        -- cbn [lists]. rewrite lookup_insert_eq, Hlen. do 2 f_equal.
           ++ by destruct xs1.
           ++ rewrite last_app, Hlt. done.
        -- cbn [nodes]. apply chain_app. rewrite last_ptr_snoc, (hd_ptr_Some _ _ _ Hhd).
           split; chain_peel.
      * intros b Hbn Hby. rewrite !lookup_insert_ne; [done|set_solver..].
      * data_peel.
      * intros l' ?. by rewrite lookup_insert_ne.
  - apply chain_app in Hch as [Hch1 Hch2]. cbn [hd_ptr] in Hch1.
    pose proof Hch2 as (nph & Hph & Hphp & _).
    assert (ph ∉ xs1) as Hph1.
    { apply NoDup_app in Hndx as (? & Hd & ?). intros Hin. apply (Hd ph Hin). left. }
    assert (ph ∉ ys) as Hphy by (intros Hin; apply (Hdisj ph); set_solver).
    assert (ph ≠ f ∧ ph ≠ bt) as [? ?] by (split; intros ->; done).
    assert ((f ∉ xs1) ∧ (bt ∉ xs1) ∧ (f ∉ ph :: xs2) ∧ (bt ∉ ph :: xs2)) as (? & ? & ? & ?).
    { split_and!; intros Hin.
      - apply (Hdisj f); [apply elem_of_app; by left|done].
      - apply (Hdisj bt); [apply elem_of_app; by left|done].
      - apply (Hdisj f); [apply elem_of_app; by right|done].
      - apply (Hdisj bt); [apply elem_of_app; by right|done]. }
    assert (head (ph :: xs2) = Some ph) as Hhph by done.
    assert (last (xs1 ++ ys ++ ph :: xs2) = last (xs1 ++ ph :: xs2)) as Hlast.
    { by rewrite app_assoc, !last_app_cons. }
    unfold_prims. run. rewrite Hphp.
    destruct xs1 as [|q xs1 _] using rev_ind.
    + cbn [last_ptr last app head] in *. run. step_lookup. run. step_lookup. run.
      rewrite ?insert_insert_eq.
      eexists. split; [reflexivity|]. cbn [nodes lists]. split_and!.
      * split; [split_and!|]; try done.
        -- cbn [lists]. rewrite lookup_insert_eq, Hlen, Hlast. do 2 f_equal.
           by destruct ys.
        -- cbn [nodes]. apply chain_app. cbn [hd_ptr]. rewrite (last_ptr_Some _ _ _ Hlt).
           split; chain_peel.
      * intros b Hbn Hby. rewrite !lookup_insert_ne; [done|set_solver..].
      * data_peel.
      * intros l' ?. by rewrite lookup_insert_ne.
    + rewrite last_ptr_snoc in *.
      destruct (chain_is_Some _ _ _ _ q Hch1) as [nq Hq]; [set_solver|].
      assert (q ∉ ph :: xs2) as Hq2.
      { apply NoDup_app in Hndx as (_ & Hd & _). apply Hd. set_solver. }
      assert (q ∉ ys) as Hqy by (intros Hin; apply (Hdisj q); set_solver).
      assert (q ≠ ph ∧ q ≠ f ∧ q ≠ bt) as (? & ? & ?).
      { split_and!; intros ->; [apply Hq2; left|done..]. }
      assert (last (xs1 ++ [q]) = Some q) as Hlq by apply last_snoc.
      run. step_lookup. run. step_lookup. run.
      rewrite ?insert_insert_eq.
      eexists. split; [reflexivity|]. cbn [nodes lists]. split_and!.
      * split; [split_and!|]; try done.
        -- cbn [lists]. rewrite lookup_insert_eq, Hlen, Hlast. do 2 f_equal.
           by destruct xs1.
        -- cbn [nodes]. apply chain_app. rewrite last_ptr_snoc.
           assert (hd_ptr (ys ++ ph :: xs2) None = Some f) as -> by by destruct ys.
           split; [chain_peel|].
           apply chain_app. cbn [hd_ptr]. rewrite (last_ptr_Some _ _ _ Hlt).
           split; chain_peel.
      * intros b Hbn Hby. rewrite !lookup_insert_ne; [done|set_solver..].
      * data_peel.
      * intros l' ?. by rewrite lookup_insert_ne.
Qed.

(** The range splice moves the run [first .. last) of [other] before [pos]
    in [this], keeping both lists well formed. *)
Lemma splice_range_wf m this other xs1 xs2 ys1 f run ys2 fuel :
  this ≠ other →
  wf_list m this (xs1 ++ xs2) → wf_list m other (ys1 ++ (f :: run) ++ ys2) →
  (xs1 ++ xs2) ## (ys1 ++ (f :: run) ++ ys2) →
  Z.of_nat (length (xs1 ++ xs2)) + Z.of_nat (length (f :: run)) < size_max →
  (length (f :: run) < fuel)%nat →
  ∃ m', splice_range fuel this (hd_ptr xs2 None) other (Some f) (hd_ptr ys2 None) m
          = Ok tt m' ∧
        wf_list m' this (xs1 ++ (f :: run) ++ xs2) ∧
        wf_list m' other (ys1 ++ ys2) ∧
        (∀ b, data <$> nodes m' !! b = data <$> nodes m !! b) ∧
        (∀ b, b ∉ xs1 ++ xs2 → b ∉ ys1 ++ (f :: run) ++ ys2 →
              nodes m' !! b = nodes m !! b) ∧
        (∀ l, l ≠ this → l ≠ other → lists m' !! l = lists m !! l).
Proof.
  intros Hne Hx Hy Hdisj Hroom Hfuel.
  destruct (last (f :: run)) as [bt|] eqn:Hlt; [|by apply last_None in Hlt].
  pose proof Hy as ((_ & Hndy & Hchy) & _).
  apply chain_app in Hchy as [_ Hchy]. apply chain_app in Hchy as [Hchr _].
  assert (NoDup (f :: run) ∧ ys1 ## (f :: run) ∧ (f :: run) ## ys2) as (Hndr & H1r & Hr2).
  { apply NoDup_app in Hndy as (? & Hd & Hn). apply NoDup_app in Hn as (? & Hd' & ?).
    split_and!; [done| |done]. intros x Hx1 Hin. apply (Hd x Hx1). set_solver. }
  assert (∀ x, x ∈ f :: run → Some x ≠ hd_ptr ys2 None) as Hnl.
  { intros x Hx0. destruct ys2 as [|y ys2]; [done|]. cbn [hd_ptr]. intros [= ->].
    apply (Hr2 y Hx0). left. }
  set (K := fun count : Z =>
    ((match hd_ptr xs2 None with
      | None =>
          (tl <- get_tail this ;;
           match tl with
           | Some t =>
               set_next t (Some f) ;;;
               (tl' <- get_tail this ;; set_prev_at (Some f) tl')
           | None =>
               set_head this (Some f) ;;;
               set_prev_at (Some f) None
           end) ;;;
          set_tail this (Some bt) ;;;
          set_next_at (Some bt) None
      | Some ph =>
          h <- load_hook ph ;;
          let prv := prev h in
          (match prv with
           | Some q =>
               set_next q (Some f) ;;;
               set_prev_at (Some f) prv
           | None =>
               set_head this (Some f) ;;;
               set_prev_at (Some f) None
           end) ;;;
          set_prev ph (Some bt) ;;;
          set_next_at (Some bt) (Some ph)
      end) ;;;
     (sz <- get_size this ;; set_size this (wrap (sz + count))))).
  destruct (splice_range_detach m other ys1 f run ys2 fuel K Hy Hfuel)
    as (m1 & Hrun1 & Hy1 & Hrun_same & Hfr1 & Hdata1 & Hls1).
  assert (splice_range fuel this (hd_ptr xs2 None) other (Some f) (hd_ptr ys2 None) m
          = K (Z.of_nat (length (f :: run))) m1) as ->.
  { rewrite <- Hrun1. unfold splice_range.
    rewrite bool_decide_eq_false_2 by (apply Hnl; left).
    unfold bind at 1.
    change (Some f) with (hd_ptr (f :: run) (hd_ptr ys2 None)) at 1.
    rewrite (block_tail_seg m (last_ptr None ys1) (f :: run) _ fuel None) by done.
    rewrite (last_ptr_Some _ _ _ Hlt). reflexivity. }
  assert (wf_list m1 this (xs1 ++ xs2)) as Hx1.
  { eapply wf_list_frame; [| |exact Hx].
    - intros b Hb. apply Hfr1. intros Hin. by apply (Hdisj b).
    - by apply Hls1. }
  assert ((xs1 ++ xs2) ## (f :: run)) as Hdr.
  { intros x Hx0 Hin. apply (Hdisj x Hx0). set_solver. }
  destruct (splice_range_attach m1 this xs1 xs2 (f :: run) (last_ptr None ys1)
              (hd_ptr ys2 None) f bt) as (m' & Hrun2 & Hx' & Hfr2 & Hdata2 & Hls2);
    [done| |done|done|done|done|done|].
  { eapply chain_ext; [|exact Hchr]. intros x Hx0. by apply Hrun_same. }
  exists m'. split_and!.
  - exact Hrun2.
  - done.
  - eapply wf_list_frame; [| |exact Hy1].
    + intros b Hb. apply Hfr2.
      * intros Hin. apply (Hdisj b Hin). set_solver.
      * intros Hin. apply elem_of_app in Hb as [Hb|Hb]; [by apply (H1r b)|by apply (Hr2 b)].
    + by apply Hls2.
  - intros b. by rewrite Hdata2.
  - intros b Hb1 Hb2. rewrite Hfr2; [by apply Hfr1|done|]. intros Hin. apply Hb2. set_solver.
  - intros l ? ?. rewrite Hls2 by done. by apply Hls1.
Qed.

(** ** Cursors and walks *)

(** The hook of the element at index [i] of a chain. *)
Lemma chain_lookup h p xs n i a :
  chain h p xs n → xs !! i = Some a →
  ∃ nd, h !! a = Some nd ∧
        prev (hook nd) = match i with O => p | S j => xs !! j end ∧
        next (hook nd) = match xs !! S i with Some b => Some b | None => n end.
Proof.
  revert p i. induction xs as [|x xs IH]; intros p i Hch Hi; [done|].
  destruct Hch as (nd & Hx & Hp & Hn & Hrest).
  destruct i as [|i]; simplify_eq/=.
  - exists nd. split_and!; [done..|]. rewrite Hn. by destruct xs.
  - destruct (IH (Some x) i Hrest Hi) as (nd' & Ha & Hp' & Hn').
    exists nd'. split_and!; [done| |done].
    rewrite Hp'. by destruct i.
Qed.

Lemma cursor_step m l xs i a :
  wf_list m l xs → xs !! i = Some a →
  incr (Some a) m = Ok (xs !! S i) m ∧
  decr (Some a) m = Ok (match i with O => None | S j => xs !! j end) m.
Proof.
  intros ((_ & _ & Hch) & _) Hi.
  destruct (chain_lookup _ _ _ _ _ _ Hch Hi) as (nd & Ha & Hp & Hn).
  unfold_prims. rewrite Ha, Hp, Hn. split; [|done]. by destruct (xs !! S i).
Qed.

(** X15.  [++] and [--] on a list that satisfies the invariant: [++] takes
    the cursor of the element at index [i] to the element at [i + 1], to
    the end cursor after the last; [--] takes it to the element at
    [i - 1], to the null cursor before the first.  A step forward and
    back, or back and forward, between two neighbours returns to the same
    element; from the last element, [++] then [--] ends at the end cursor. *)
Theorem cursor_moves m l xs i a :
  wf_list m l xs → xs !! i = Some a →
  incr (Some a) m = Ok (xs !! S i) m ∧
  decr (Some a) m = Ok (match i with O => None | S j => xs !! j end) m ∧
  (∀ b, xs !! S i = Some b →
        (c <- incr (Some a) ;; decr c) m = Ok (Some a) m ∧
        (c <- decr (Some b) ;; incr c) m = Ok (Some b) m) ∧
  (xs !! S i = None → (c <- incr (Some a) ;; decr c) m = Ok end_ m).
Proof.
  intros Hwf Ha.
  destruct (cursor_step m l xs i a Hwf Ha) as [Hia Hda].
  split_and!; [done..| |].
  - intros b Hb. destruct (cursor_step m l xs (S i) b Hwf Hb) as [Hib Hdb].
    unfold bind. by rewrite Hia, Hb, Hdb, Ha, Hia, Hb.
  - intros Hend. unfold bind. by rewrite Hia, Hend.
Qed.

(** X16.  On a list that satisfies the invariant: [size()] is the length
    of the chain; [empty()] holds exactly when the chain is empty; the
    loop from [begin()] to [end()] passes the chain in order; the loop
    that starts at the last element and decrements passes it reversed.
    None of them writes. *)
Theorem walk_spec m l xs fuel :
  wf_list m l xs → (length xs < fuel)%nat →
  size l m = Ok (Z.of_nat (length xs)) m ∧
  empty l m = Ok (bool_decide (xs = [])) m ∧
  (b <- begin l ;; forward_from fuel b) m = Ok xs m ∧
  (b <- begin l ;; c <- advance (length xs - 1) b ;; backward_from fuel c) m
    = Ok (rev xs) m.
Proof.
  intros ((HL & _ & Hch) & Hb) Hfuel.
  unfold size, empty, begin, get_size, get_head, load_list, bind, ret. rewrite HL.
  cbn [m_size m_head]. split_and!.
  - done.
  - f_equal. destruct xs; [done|]. cbn [length]. rewrite bool_decide_eq_false_2 by done.
    apply Z.eqb_neq. lia.
  - assert (head xs = hd_ptr xs None) as -> by by destruct xs.
    by eapply forward_from_chain.
  - assert (head xs = hd_ptr xs None) as -> by by destruct xs.
    destruct xs as [|e xs _] using rev_ind.
    + simpl. destruct fuel; [simpl in Hfuel; lia|]. done.
    + rewrite length_app. simpl.
      rewrite (advance_chain m None (xs ++ [e]) None _ e Hch).
      * rewrite <- (last_ptr_snoc None xs e). by eapply backward_from_chain.
      * rewrite lookup_app_r by lia. by replace (_ - _)%nat with 0%nat by lia.
Qed.

(** X9.  An element of a list of two or more that satisfies the invariant
    is refused by [push_front], [push_back] and [insert], into any list
    and at any position: each throws and writes nothing. *)
Theorem member_rejected m l xs a l' pos :
  wf_list m l xs → a ∈ xs → (2 ≤ length xs)%nat →
  push_front l' a m = Throw AlreadyLinked m ∧
  push_back l' a m = Throw AlreadyLinked m ∧
  insert l' pos a m = Throw AlreadyLinked m.
Proof.
  intros ((_ & _ & Hch) & _) Ha Hlen.
  apply list_elem_of_lookup in Ha as [i Hi].
  destruct (chain_lookup _ _ _ _ _ _ Hch Hi) as (nd & Hnd & Hp & Hn).
  apply (linked_element_rejected m l' pos a nd Hnd).
  unfold is_linked. destruct i as [|i].
  - rewrite Hn. destruct xs as [|x [|y xs]]; simpl in *; [lia..|]. by rewrite orb_true_r.
  - rewrite Hp. apply lookup_lt_Some in Hi.
    destruct (lookup_lt_is_Some_2 xs i) as [b ->]; [lia|]. done.
Qed.

(** X17.  The static [remove(e)] of an element that is neither the first
    nor the last of a list that satisfies the invariant: it returns, the
    hook of [e] is [{nullptr, nullptr}], and head and tail still thread
    the chain without [e]; but the count of the list is not decremented:
    [size()] reports one more than the walk from [begin()] passes. *)
Theorem remove_inner m l xs a ys fuel :
  wf_list m l (xs ++ a :: ys) → xs ≠ [] → ys ≠ [] →
  (length (xs ++ ys) < fuel)%nat →
  ∃ m', remove a m = Ok tt m' ∧
        threads m' l (xs ++ ys) (Z.of_nat (length (xs ++ ys)) + 1) ∧
        hook <$> nodes m' !! a = Some (mkHook None None) ∧
        size l m' = Ok (Z.of_nat (length (xs ++ ys)) + 1) m' ∧
        (b <- begin l ;; forward_from fuel b) m' = Ok (xs ++ ys) m'.
Proof.
  intros ((HL & Hnd & Hch) & Hb) Hxs Hys Hfuel.
  assert (∃ m', remove a m = Ok tt m' ∧
        threads m' l (xs ++ ys) (Z.of_nat (length (xs ++ ys)) + 1) ∧
        hook <$> nodes m' !! a = Some (mkHook None None)) as (m' & Hrun & Hth & Hhook).
  { apply chain_app in Hch as [Hch1 Hch2]. cbn [hd_ptr] in Hch1.
    destruct Hch2 as ([[pa nx] d] & Ha & Hap & Han & Hch2).
    cbn [prev next hook] in Hap, Han. subst pa nx.
    assert (NoDup xs ∧ NoDup ys ∧ (a ∉ xs) ∧ (a ∉ ys) ∧ xs ## ys)
      as (Hnx & Hny & Hax & Hay & Hxy).
    { apply NoDup_app in Hnd as (? & Hd & Hn). apply NoDup_cons in Hn as [? ?].
      split_and!; try done.
      - intros Hin. apply (Hd a Hin). left.
      - intros x Hx Hy. apply (Hd x Hx). by right. }
    assert (NoDup (xs ++ ys)) as Hnd' by (apply NoDup_app; split_and!; [done|set_solver|done]).
    destruct xs as [|q xs _] using rev_ind; [done|]. destruct ys as [|y ys]; [done|].
    rewrite last_ptr_snoc in *. cbn [hd_ptr] in *.
    destruct (chain_is_Some _ _ _ _ q Hch1) as [nq Hq]; [set_solver|].
    destruct (chain_is_Some _ _ _ _ y Hch2) as [ny Hy]; [left|].
    assert (a ≠ q) by (intros ->; apply Hax; set_solver).
    assert (a ≠ y) by (intros ->; apply Hay; left).
    assert (q ≠ y) by (intros ->; apply (Hxy y); set_solver).
    assert (q ∉ y :: ys) by (intros ?; apply (Hxy q); set_solver).
    assert (y ∉ xs ++ [q]) by (intros ?; apply (Hxy y); set_solver).
    assert (last (xs ++ [q]) = Some q) as Hlq by apply last_snoc.
    unfold remove. unfold_prims. run. rewrite ?insert_insert_eq.
    eexists. split; [reflexivity|]. split; [split_and!|]; cbn [nodes lists].
    - rewrite HL. do 2 f_equal.
      + by destruct xs.
      + by rewrite !last_app.
      + rewrite !length_app. cbn [length]. lia.
    - done.
    - apply chain_app. rewrite last_ptr_snoc. cbn [hd_ptr]. split; chain_peel.
    - by rewrite lookup_insert_eq. }
  exists m'. split_and!; [done..| |].
  - destruct Hth as (HL' & _). unfold size, get_size, load_list, bind, ret. by rewrite HL'.
  - destruct Hth as (HL' & _ & Hch').
    unfold begin, get_head, load_list, bind, ret. rewrite HL'. cbn [m_head].
    assert (head (xs ++ ys) = hd_ptr (xs ++ ys) None) as -> by by destruct (xs ++ ys).
    by eapply forward_from_chain.
Qed.


(** ** Payloads *)

Lemma keeps_ret {A} (a : A) : keeps_payloads (ret a).
Proof. by intros m b. Qed.

Lemma keeps_throw {A} e : keeps_payloads (@throw A e).
Proof. by intros m b. Qed.

Lemma keeps_undefined {A} : keeps_payloads (@undefined A).
Proof. by intros m. Qed.

Lemma keeps_diverge {A} : keeps_payloads (@diverge A).
Proof. by intros m. Qed.

Lemma keeps_bind {A B} (c : M A) (k : A → M B) :
  keeps_payloads c → (∀ a, keeps_payloads (k a)) → keeps_payloads (bind c k).
Proof.
  intros Hc Hk m. unfold bind. specialize (Hc m).
  destruct (c m) as [a m1|e m1| |]; [|done..].
  specialize (Hk a m1). destruct (k a m1) as [b m2|e m2| |]; [| |done..].
  - intros x. by rewrite Hk.
  - intros x. by rewrite Hk.
Qed.

Lemma keeps_load_node p : keeps_payloads (load_node p).
Proof. intros m. unfold load_node. by destruct (nodes m !! p). Qed.

Lemma keeps_load_list l : keeps_payloads (load_list l).
Proof. intros m. unfold load_list. by destruct (lists m !! l). Qed.

Lemma keeps_store_list l f : keeps_payloads (store_list l f).
Proof. intros m. unfold store_list. by destruct (lists m !! l). Qed.

Lemma keeps_store_node p f :
  (∀ nd, data (f nd) = data nd) → keeps_payloads (store_node p f).
Proof.
  intros Hf m. unfold store_node. destruct (nodes m !! p) as [nd|] eqn:Hp; [|done].
  intros b. cbn [nodes]. destruct (decide (b = p)) as [->|Hne].
  - by rewrite lookup_insert_eq, Hp; simpl; rewrite Hf.
  - by rewrite lookup_insert_ne.
Qed.

Ltac keeps :=
  repeat first
    [ assumption
    | match goal with IH : ∀ _, _ |- _ => apply IH end
    | apply keeps_ret | apply keeps_throw | apply keeps_undefined | apply keeps_diverge
    | apply keeps_load_node | apply keeps_load_list | apply keeps_store_list
    | apply keeps_store_node; by intros []
    | apply keeps_bind; [|intros ?]
    | match goal with
      | |- keeps_payloads (match ?x with _ => _ end) => destruct x
      | |- keeps_payloads (if ?x then _ else _) => destruct x
      end ].

Ltac unfold_ops :=
  unfold incr_size, decr_size, begin, empty, size, set_head, set_tail, set_size,
    get_head, get_tail, get_size, get_value, incr, decr,
    set_prev_at, set_next_at, load_hook_at, set_prev, set_next, load_hook in *.

Lemma keeps_push_front l e : keeps_payloads (push_front l e).
Proof. unfold push_front. unfold_ops. keeps. Qed.

Lemma keeps_push_back l e : keeps_payloads (push_back l e).
Proof. unfold push_back. unfold_ops. keeps. Qed.

Lemma keeps_insert l pos e : keeps_payloads (insert l pos e).
Proof.
  pose proof (keeps_push_front l e). pose proof (keeps_push_back l e).
  unfold insert. unfold_ops. keeps.
Qed.

Lemma keeps_Ok {A} (c : M A) m a m' :
  keeps_payloads c → c m = Ok a m' → ∀ b, data <$> nodes m' !! b = data <$> nodes m !! b.
Proof. intros Hc Hrun. specialize (Hc m). by rewrite Hrun in Hc. Qed.

Lemma node_eq_parts (o o' : option Node) :
  hook <$> o' = hook <$> o → data <$> o' = data <$> o → o' = o.
Proof. destruct o as [[]|], o' as [[]|]; simpl; congruence. Qed.

Lemma chain_hooks h h' p xs n :
  chain h p xs n → chain h' p xs n → ∀ x, x ∈ xs → hook <$> h' !! x = hook <$> h !! x.
Proof.
  revert p. induction xs as [|y xs IH]; intros p Hc Hc' x Hx; [by inversion Hx|].
  destruct Hc as ([[a b] d] & Hy & Hp & Hn & Hrest).
  destruct Hc' as ([[a' b'] d'] & Hy' & Hp' & Hn' & Hrest').
  apply elem_of_cons in Hx as [->|Hx]; [|by eapply IH].
  rewrite Hy, Hy'. simpl in *. congruence.
Qed.

(** Two memories in which the same list satisfies the invariant over the
    same chain, with the same payloads and the same hooks and list objects
    elsewhere, are one memory. *)
Lemma wf_list_restored m m' l xs :
  wf_list m l xs → wf_list m' l xs →
  (∀ b, data <$> nodes m' !! b = data <$> nodes m !! b) →
  (∀ b, b ∉ xs → hook <$> nodes m' !! b = hook <$> nodes m !! b) →
  (∀ l', l' ≠ l → lists m' !! l' = lists m !! l') →
  m' = m.
Proof.
  intros ((HL & _ & Hch) & _) ((HL' & _ & Hch') & _) Hdata Hout Hls.
  destruct m as [h ls], m' as [h' ls']. cbn [nodes lists] in *. f_equal.
  - apply map_eq. intros b. apply node_eq_parts; [|done].
    destruct (decide (b ∈ xs)) as [Hin|Hnin]; [by eapply chain_hooks|by apply Hout].
  - apply map_eq. intros l'. destruct (decide (l' = l)) as [->|Hne]; [congruence|by apply Hls].
Qed.

Lemma fresh_hook m e : fresh m e → hook <$> nodes m !! e = Some (mkHook None None).
Proof. intros (nd & -> & Hh). simpl. by rewrite Hh. Qed.

(** X20.  [insert(pos, e)] then [erase] at [e], on a list that satisfies
    the invariant, for a freshly constructed [e] and any [pos]: [erase]
    returns [pos], and the memory is the one before. *)
Theorem insert_erase m l xs1 xs2 e :
  wf_list m l (xs1 ++ xs2) → e ∉ xs1 ++ xs2 → fresh m e →
  Z.of_nat (length (xs1 ++ xs2)) + 1 < size_max →
  (insert l (hd_ptr xs2 None) e ;;; erase l (Some e)) m = Ok (hd_ptr xs2 None) m.
Proof.
  intros Hwf He Hfresh Hroom.
  destruct (insert_wf m l xs1 xs2 e Hwf He Hfresh Hroom) as (m1 & Hrun1 & Hwf1 & Hfr1 & Hls1).
  destruct (erase_wf m1 l xs1 e xs2 Hwf1) as (m2 & Hrun2 & Hwf2 & Hhook & Hfr2 & Hdata2 & Hls2).
  unfold bind. rewrite Hrun1, Hrun2. f_equal.
  apply (wf_list_restored m m2 l (xs1 ++ xs2)); [done..| | |].
  - intros b. rewrite Hdata2. by apply (keeps_Ok _ _ _ _ (keeps_insert _ _ _) Hrun1).
  - intros b Hb. destruct (decide (b = e)) as [->|Hne].
    + by rewrite Hhook, fresh_hook.
    + rewrite Hfr2, Hfr1; [done..|]. set_solver.
  - intros l' Hl'. rewrite Hls2, Hls1; done.
Qed.

(** X21.  [push_front(e)] then [pop_front()], on a list that satisfies the
    invariant, for a freshly constructed [e]: the memory is the one
    before. *)
Theorem push_front_pop_front m l xs e :
  wf_list m l xs → e ∉ xs → fresh m e →
  Z.of_nat (length xs) + 1 < size_max →
  (push_front l e ;;; pop_front l) m = Ok tt m.
Proof.
  intros Hwf He Hfresh Hroom.
  destruct (push_front_wf m l xs e Hwf He Hfresh Hroom) as (m1 & Hrun1 & Hwf1 & Hfr1 & Hls1).
  destruct (pop_front_wf m1 l e xs Hwf1) as (m2 & Hrun2 & Hwf2 & Hhook & Hfr2 & Hdata2 & Hls2).
  unfold bind. rewrite Hrun1, Hrun2. f_equal.
  apply (wf_list_restored m m2 l xs); [done..| | |].
  - intros b. rewrite Hdata2. by apply (keeps_Ok _ _ _ _ (keeps_push_front _ _) Hrun1).
  - intros b Hb. destruct (decide (b = e)) as [->|Hne].
    + by rewrite Hhook, fresh_hook.
    + rewrite Hfr2, Hfr1; [done..|]. set_solver.
  - intros l' Hl'. rewrite Hls2, Hls1; done.
Qed.

(** X22.  [push_back(e)] then [pop_back()], on a list that satisfies the
    invariant and is not empty, for a freshly constructed [e]: the memory
    is the one before. *)
Theorem push_back_pop_back m l xs e :
  wf_list m l xs → xs ≠ [] → e ∉ xs → fresh m e →
  Z.of_nat (length xs) + 1 < size_max →
  (push_back l e ;;; pop_back l) m = Ok tt m.
Proof.
  intros Hwf Hne He Hfresh Hroom.
  destruct (push_back_wf m l xs e Hwf He Hfresh Hroom) as (m1 & Hrun1 & Hwf1 & Hfr1 & Hls1).
  destruct (pop_back_wf m1 l xs e Hwf1)
    as (m2 & Hrun2 & Hwf2 & _ & Hhook & Hfr2 & _ & Hdata2 & Hls2).
  unfold bind. rewrite Hrun1, Hrun2. f_equal.
  apply (wf_list_restored m m2 l xs); [done|by apply Hwf2| | |].
  - intros b. rewrite Hdata2. by apply (keeps_Ok _ _ _ _ (keeps_push_back _ _) Hrun1).
  - intros b Hb. destruct (decide (b = e)) as [->|Hnee].
    + by rewrite Hhook, fresh_hook.
    + rewrite Hfr2, Hfr1; [done..|]. set_solver.
  - intros l' Hl'. rewrite Hls2, Hls1; done.
Qed.

Lemma memory_eq_parts m m' :
  (∀ b, hook <$> nodes m' !! b = hook <$> nodes m !! b) →
  (∀ b, data <$> nodes m' !! b = data <$> nodes m !! b) →
  (∀ l, lists m' !! l = lists m !! l) →
  m' = m.
Proof.
  intros Hh Hd Hl. destruct m as [h ls], m' as [h' ls']. cbn [nodes lists] in *. f_equal.
  - apply map_eq. intros b. by apply node_eq_parts.
  - by apply map_eq.
Qed.

Lemma wf_list_header m m' l xs :
  wf_list m l xs → wf_list m' l xs → lists m' !! l = lists m !! l.
Proof. intros ((HL & _) & _) ((HL' & _) & _). congruence. Qed.

Lemma wf_list_hooks m m' l xs b :
  wf_list m l xs → wf_list m' l xs → b ∈ xs →
  hook <$> nodes m' !! b = hook <$> nodes m !! b.
Proof. intros ((_ & _ & Hch) & _) ((_ & _ & Hch') & _). by eapply chain_hooks. Qed.

(** X23.  [splice(pos, other, it)] then the splice of the same element
    back before its old successor, for two distinct lists that satisfy the
    invariant and share no element: the memory is the one before. *)
Theorem splice_one_back m this other xs1 xs2 ys1 e ys2 :
  this ≠ other →
  wf_list m this (xs1 ++ xs2) → wf_list m other (ys1 ++ e :: ys2) →
  (xs1 ++ xs2) ## (ys1 ++ e :: ys2) →
  Z.of_nat (length (xs1 ++ xs2)) + 1 < size_max →
  (splice_one this (hd_ptr xs2 None) other (Some e) ;;;
   splice_one other (hd_ptr ys2 None) this (Some e)) m = Ok tt m.
Proof.
  intros Hne Hx Hy Hdisj Hroom.
  destruct (splice_one_wf m this other xs1 xs2 ys1 e ys2 Hne Hx Hy Hdisj Hroom)
    as (m1 & Hrun1 & Hx1 & Hy1 & Hdata1 & Hfr1 & Hls1).
  assert (Z.of_nat (length (ys1 ++ ys2)) + 1 < size_max) as Hroom'.
  { destruct Hy as (_ & Hb). rewrite !length_app in *. cbn [length] in Hb. lia. }
  assert ((ys1 ++ ys2) ## (xs1 ++ e :: xs2)) as Hdisj'.
  { destruct Hy as ((_ & Hnd & _) & _).
    apply NoDup_app in Hnd as (_ & Hd & Hn). apply NoDup_cons in Hn as [He2 _].
    intros b Hb Hb'. apply elem_of_app in Hb' as [Hb'|Hb'].
    - apply (Hdisj b); set_solver.
    - apply elem_of_cons in Hb' as [->|Hb']; [|apply (Hdisj b); set_solver].
      apply elem_of_app in Hb as [Hb|Hb]; [|done]. apply (Hd e Hb). left. }
  destruct (splice_one_wf m1 other this ys1 ys2 xs1 e xs2) as
    (m2 & Hrun2 & Hy2 & Hx2 & Hdata2 & Hfr2 & Hls2); [done..|].
  unfold bind. rewrite Hrun1, Hrun2. f_equal.
  apply memory_eq_parts.
  - intros b. destruct (decide (b ∈ xs1 ++ xs2)) as [Hbx|Hbx];
      [by apply (wf_list_hooks m m2 this (xs1 ++ xs2))|].
    destruct (decide (b ∈ ys1 ++ e :: ys2)) as [Hby|Hby];
      [by apply (wf_list_hooks m m2 other (ys1 ++ e :: ys2))|].
    rewrite Hfr2, Hfr1; [done..| |]; set_solver.
  - intros b. by rewrite Hdata2.
  - intros l. destruct (decide (l = this)) as [->|?];
      [by apply (wf_list_header m m2 this (xs1 ++ xs2))|].
    destruct (decide (l = other)) as [->|?];
      [by apply (wf_list_header m m2 other (ys1 ++ e :: ys2))|].
    rewrite Hls2, Hls1; done.
Qed.

(** X24.  On a list that satisfies the invariant and is not empty,
    [pop_front()] and [erase(begin())] leave the same memory. *)
Theorem pop_front_is_erase_begin m l a xs :
  wf_list m l (a :: xs) →
  pop_front l m = (b <- begin l ;; erase l b ;;; ret tt) m.
Proof.
  intros Hwf.
  destruct (pop_front_wf m l a xs Hwf) as (m1 & Hrun1 & Hwf1 & Hhook1 & Hfr1 & Hdata1 & Hls1).
  destruct (erase_wf m l [] a xs Hwf) as (m2 & Hrun2 & Hwf2 & Hhook2 & Hfr2 & Hdata2 & Hls2).
  assert (begin l m = Ok (Some a) m) as Hbegin.
  { destruct Hwf as ((HL & _) & _). unfold begin, get_head, load_list, bind, ret.
    by rewrite HL. }
  unfold bind at 1. rewrite Hbegin. unfold bind. rewrite Hrun1, Hrun2. unfold ret. f_equal.
  apply (wf_list_restored m2 m1 l xs); [done..| | |].
  - intros b. by rewrite Hdata1, Hdata2.
  - intros b Hb. destruct (decide (b = a)) as [->|Hne].
    + by rewrite Hhook1, Hhook2.
    + rewrite Hfr1, Hfr2; [done|set_solver..].
  - intros l' Hl'. rewrite Hls1, Hls2; done.
Qed.

(** X25.  On a list of two or more that satisfies the invariant,
    [pop_back()] and [erase] at the last element leave the same memory. *)
Theorem pop_back_is_erase_last m l xs t :
  wf_list m l (xs ++ [t]) → xs ≠ [] →
  pop_back l m = (erase l (Some t) ;;; ret tt) m.
Proof.
  intros Hwf Hne.
  destruct (pop_back_wf m l xs t Hwf)
    as (m1 & Hrun1 & Hwf1 & _ & Hhook1 & Hfr1 & _ & Hdata1 & Hls1).
  destruct (erase_wf m l xs t [] Hwf) as (m2 & Hrun2 & Hwf2 & Hhook2 & Hfr2 & Hdata2 & Hls2).
  rewrite app_nil_r in Hwf2.
  unfold bind. rewrite Hrun1, Hrun2. unfold ret. f_equal.
  apply (wf_list_restored m2 m1 l xs); [done|by apply Hwf1| | |].
  - intros b. by rewrite Hdata1, Hdata2.
  - intros b Hb. destruct (decide (b = t)) as [->|Hnet].
    + by rewrite Hhook1, Hhook2.
    + rewrite Hfr1, Hfr2; [done|set_solver..].
  - intros l' Hl'. rewrite Hls1, Hls2; done.
Qed.

Lemma keeps_merge this other : keeps_payloads (merge this other).
Proof. unfold merge. unfold_ops. keeps. Qed.

Lemma keeps_splice this pos other : keeps_payloads (splice this pos other).
Proof. unfold splice. unfold_ops. keeps. Qed.

Lemma two_lists_unique m1 m2 this other xs ys :
  wf_list m1 this xs → wf_list m2 this xs →
  wf_list m1 other ys → wf_list m2 other ys →
  (∀ b, data <$> nodes m1 !! b = data <$> nodes m2 !! b) →
  (∀ b, b ∉ xs → b ∉ ys → nodes m1 !! b = nodes m2 !! b) →
  (∀ l, l ≠ this → l ≠ other → lists m1 !! l = lists m2 !! l) →
  m1 = m2.
Proof.
  intros Hx1 Hx2 Hy1 Hy2 Hdata Hfr Hls. apply memory_eq_parts; [|done|].
  - intros b. destruct (decide (b ∈ xs)) as [Hbx|Hbx];
      [by apply (wf_list_hooks m2 m1 this xs)|].
    destruct (decide (b ∈ ys)) as [Hby|Hby];
      [by apply (wf_list_hooks m2 m1 other ys)|].
    by rewrite Hfr.
  - intros l. destruct (decide (l = this)) as [->|?];
      [by apply (wf_list_header m2 m1 this xs)|].
    destruct (decide (l = other)) as [->|?];
      [by apply (wf_list_header m2 m1 other ys)|].
    by apply Hls.
Qed.

(** X26.  For two distinct lists that satisfy the invariant and share no
    element, whose counts add up within [size_type], [splice(end(), other)]
    and [merge(other)] leave the same memory. *)
Theorem splice_at_end_is_merge m this other xs ys :
  this ≠ other →
  wf_list m this xs → wf_list m other ys → xs ## ys →
  Z.of_nat (length xs + length ys) < size_max →
  splice this end_ other m = merge this other m.
Proof.
  intros Hne Hx Hy Hdisj Hroom.
  destruct (merge_wf m this other xs ys) as (m1 & Hrun1 & Hx1 & Hy1 & Hfr1 & Hls1); [done..|].
  destruct (splice_wf m this other xs [] ys) as (m2 & Hrun2 & Hx2 & Hy2 & Hfr2 & Hls2);
    rewrite ?app_nil_r in *; [done..|].
  cbn [hd_ptr] in Hrun2. unfold end_. rewrite Hrun1, Hrun2. f_equal.
  apply (two_lists_unique m2 m1 this other (xs ++ ys) []); [done..| | |].
  - intros b. rewrite (keeps_Ok _ _ _ _ (keeps_merge _ _) Hrun1).
    by rewrite (keeps_Ok _ _ _ _ (keeps_splice _ _ _) Hrun2).
  - intros b Hb _. rewrite Hfr1, Hfr2; [done|set_solver..].
  - intros l ? ?. rewrite Hls1, Hls2; done.
Qed.

(** X27.  For two distinct lists that satisfy the invariant and share no
    element, the range splice of the one-element run [it .. next of it)
    and the single-element splice of [it] leave the same memory. *)
Theorem splice_range_one_is_splice_one m this other xs1 xs2 ys1 e ys2 fuel :
  this ≠ other →
  wf_list m this (xs1 ++ xs2) → wf_list m other (ys1 ++ e :: ys2) →
  (xs1 ++ xs2) ## (ys1 ++ e :: ys2) →
  Z.of_nat (length (xs1 ++ xs2)) + 1 < size_max →
  (1 < fuel)%nat →
  splice_range fuel this (hd_ptr xs2 None) other (Some e) (hd_ptr ys2 None) m
  = splice_one this (hd_ptr xs2 None) other (Some e) m.
Proof.
  intros Hne Hx Hy Hdisj Hroom Hfuel.
  destruct (splice_one_wf m this other xs1 xs2 ys1 e ys2 Hne Hx Hy Hdisj Hroom)
    as (m1 & Hrun1 & Hx1 & Hy1 & Hdata1 & Hfr1 & Hls1).
  destruct (splice_range_wf m this other xs1 xs2 ys1 e [] ys2 fuel)
    as (m2 & Hrun2 & Hx2 & Hy2 & Hdata2 & Hfr2 & Hls2); [done..|].
  rewrite Hrun1, Hrun2. f_equal.
  apply (two_lists_unique m2 m1 this other (xs1 ++ e :: xs2) (ys1 ++ ys2)); [done..| | |].
  - intros b. by rewrite Hdata1, Hdata2.
  - intros b Hbx Hby.
    destruct (decide (b = e)) as [->|Hbe]; [exfalso; apply Hbx; set_solver|].
    rewrite Hfr1, Hfr2; [done|set_solver..].
  - intros l ? ?. rewrite Hls1, Hls2; done.
Qed.

Lemma keeps_pop_front l : keeps_payloads (pop_front l).
Proof. unfold pop_front. unfold_ops. keeps. Qed.

Lemma keeps_pop_back l : keeps_payloads (pop_back l).
Proof. unfold pop_back. unfold_ops. keeps. Qed.

Lemma keeps_erase l pos : keeps_payloads (erase l pos).
Proof. unfold erase. unfold_ops. keeps. Qed.

Lemma keeps_remove e : keeps_payloads (remove e).
Proof. unfold remove. unfold_ops. keeps. Qed.

Lemma keeps_swap this other : keeps_payloads (swap this other).
Proof. unfold swap. unfold_ops. keeps. Qed.

Lemma keeps_splice_one this pos other it : keeps_payloads (splice_one this pos other it).
Proof. unfold splice_one. unfold_ops. keeps. Qed.

Lemma keeps_clear fuel l : keeps_payloads (clear fuel l).
Proof.
  pose proof (keeps_pop_back l).
  induction fuel as [|fuel IH]; cbn [clear]; unfold_ops; keeps.
Qed.

Lemma keeps_block_tail fuel it last bt : keeps_payloads (block_tail fuel it last bt).
Proof.
  revert it bt. induction fuel as [|fuel IH]; intros it bt; cbn [block_tail]; unfold_ops;
    keeps.
Qed.

Lemma keeps_count_run fuel it last c : keeps_payloads (count_run fuel it last c).
Proof.
  revert it c. induction fuel as [|fuel IH]; intros it c; cbn [count_run]; unfold_ops;
    keeps.
Qed.

Lemma keeps_splice_range fuel this pos other first last :
  keeps_payloads (splice_range fuel this pos other first last).
Proof.
  pose proof (keeps_block_tail fuel first last None).
  pose proof (keeps_count_run fuel first last 0).
  unfold splice_range. unfold_ops. keeps.
Qed.

Lemma keeps_remove_if fuel l p : keeps_payloads (remove_if fuel l p).
Proof.
  unfold remove_if. apply keeps_bind; [unfold_ops; keeps|]. intros it. revert it.
  induction fuel as [|fuel IH]; intros it; cbn [remove_if_from]; [keeps|].
  destruct it as [a|]; [|keeps].
  apply keeps_bind; [keeps|]. intros value.
  apply keeps_bind; [unfold_ops; keeps|]. intros it1.
  apply keeps_bind; [|intros; apply IH].
  destruct (p value); [|keeps].
  apply keeps_bind; [unfold_ops; keeps|]. intros it2.
  apply keeps_bind; [apply keeps_erase|]. intros. keeps.
Qed.

Lemma keeps_unique fuel l : keeps_payloads (unique fuel l).
Proof.
  unfold unique. apply keeps_bind; [unfold_ops; keeps|]. intros e.
  destruct e; [keeps|].
  apply keeps_bind; [unfold_ops; keeps|]. intros it.
  apply keeps_bind; [unfold_ops; keeps|]. intros nextIt. revert it nextIt.
  induction fuel as [|fuel IH]; intros it nextIt; cbn [unique_from]; [keeps|].
  destruct nextIt as [b|]; [|keeps].
  apply keeps_bind; [unfold load_node_at; unfold_ops; keeps|]. intros na.
  apply keeps_bind; [unfold load_node_at; unfold_ops; keeps|]. intros nb.
  destruct (node_eq na nb).
  - apply keeps_bind; [apply keeps_erase|]. intros. apply IH.
  - apply keeps_bind; [unfold_ops; keeps|]. intros.
    apply keeps_bind; [unfold_ops; keeps|]. intros. apply IH.
Qed.

(** X19.  No operation of the list writes a payload, creates a node or
    destroys one, from whatever memory it starts and whether it returns or
    throws: [push_front], [push_back], [insert], [pop_front], [pop_back],
    [erase], the static [remove], [clear], [swap], [merge], the three
    [splice]s, [remove_if] and [unique]. *)
Theorem payloads_are_kept :
  (∀ l e, keeps_payloads (push_front l e)) ∧
  (∀ l e, keeps_payloads (push_back l e)) ∧
  (∀ l pos e, keeps_payloads (insert l pos e)) ∧
  (∀ l, keeps_payloads (pop_front l)) ∧
  (∀ l, keeps_payloads (pop_back l)) ∧
  (∀ l pos, keeps_payloads (erase l pos)) ∧
  (∀ e, keeps_payloads (remove e)) ∧
  (∀ fuel l, keeps_payloads (clear fuel l)) ∧
  (∀ this other, keeps_payloads (swap this other)) ∧
  (∀ this other, keeps_payloads (merge this other)) ∧
  (∀ this pos other, keeps_payloads (splice this pos other)) ∧
  (∀ this pos other it, keeps_payloads (splice_one this pos other it)) ∧
  (∀ fuel this pos other first last,
     keeps_payloads (splice_range fuel this pos other first last)) ∧
  (∀ fuel l p, keeps_payloads (remove_if fuel l p)) ∧
  (∀ fuel l, keeps_payloads (unique fuel l)).
Proof.
  split_and!; intros.
  - apply keeps_push_front.
  - apply keeps_push_back.
  - apply keeps_insert.
  - apply keeps_pop_front.
  - apply keeps_pop_back.
  - apply keeps_erase.
  - apply keeps_remove.
  - apply keeps_clear.
  - apply keeps_swap.
  - apply keeps_merge.
  - apply keeps_splice.
  - apply keeps_splice_one.
  - apply keeps_splice_range.
  - apply keeps_remove_if.
  - apply keeps_unique.
Qed.

(** ** The operations on lists that satisfy the invariant *)

Lemma spare_wf : wf_list spare 1 [1; 2; 3]%positive ∧ wf_list spare 2 [].
Proof. split; concrete_wf. Qed.

(** X1.  [erase(pos)] at any element of a list that satisfies the
    invariant returns the cursor of the next element, the end cursor after
    the last; the list satisfies the invariant without that element; the
    element's hook is [{nullptr, nullptr}]; nothing outside the list, no
    payload and no other list is written.  At the end cursor it throws and
    writes nothing. *)
Theorem erase_unlinks_one m l xs a ys :
  wf_list m l (xs ++ a :: ys) →
  (∃ m', erase l (Some a) m = Ok (hd_ptr ys None) m' ∧
         wf_list m' l (xs ++ ys) ∧
         hook <$> nodes m' !! a = Some (mkHook None None) ∧
         (∀ b, b ∉ xs ++ a :: ys → nodes m' !! b = nodes m !! b) ∧
         (∀ b, data <$> nodes m' !! b = data <$> nodes m !! b) ∧
         (∀ l', l' ≠ l → lists m' !! l' = lists m !! l')) ∧
  erase l end_ m = Throw InvalidPosition m.
Proof. intros Hwf. split; [by apply erase_wf|done]. Qed.

(** X2.  [remove_if(p)], for a predicate of the payload, on a list that
    satisfies the invariant: when the last element satisfies [p] it throws,
    having removed every other element that satisfies [p] and kept the
    last; otherwise it returns, having removed exactly the elements that
    satisfy [p].  Either way the list satisfies the invariant over what is
    left, in the old order, and no payload is written. *)
Theorem remove_if_outcome m l p xs fuel :
  (∀ n n', data n = data n' → p n = p n') →
  wf_list m l xs → (length xs < fuel)%nat →
  ∃ m', (∀ b, data <$> nodes m' !! b = data <$> nodes m !! b) ∧
    ((∃ r' t, xs = r' ++ [t] ∧ holds p m t = true ∧
              remove_if fuel l p m = Throw InvalidPosition m' ∧
              wf_list m' l (survivors p m r' ++ [t])) ∨
     ((∀ t, last xs = Some t → holds p m t = false) ∧
      remove_if fuel l p m = Ok tt m' ∧
      wf_list m' l (survivors p m xs))).
Proof.
  intros Hp Hwf Hfuel.
  destruct (remove_if_from_spec p l m Hp xs [] m fuel) as (m' & Hdata & Hcase);
    [done..|].
  assert (remove_if fuel l p m = remove_if_from fuel l p (hd_ptr xs None) m) as ->.
  { destruct Hwf as ((HL & _) & _).
    unfold remove_if, begin, get_head, load_list, bind, ret. rewrite HL.
    cbn [m_head]. by destruct xs. }
  exists m'. split; [done|]. exact Hcase.
Qed.

(** X3.  [pop_front()] on a list that satisfies the invariant and is not
    empty: it returns, the list satisfies the invariant without its first
    element, whose hook is [{nullptr, nullptr}]; nothing outside the list,
    no payload and no other list is written. *)
Theorem pop_front_drops_first m l a xs :
  wf_list m l (a :: xs) →
  ∃ m', pop_front l m = Ok tt m' ∧
        wf_list m' l xs ∧
        hook <$> nodes m' !! a = Some (mkHook None None) ∧
        (∀ b, b ∉ a :: xs → nodes m' !! b = nodes m !! b) ∧
        (∀ b, data <$> nodes m' !! b = data <$> nodes m !! b) ∧
        (∀ l', l' ≠ l → lists m' !! l' = lists m !! l').
Proof. apply pop_front_wf. Qed.

(** X4.  [pop_back()] on a list that satisfies the invariant and is not
    empty: it returns and the last element's hook is
    [{nullptr, nullptr}].  With other elements before it the list
    satisfies the invariant without it; when it was the only one the list
    object is left with the tail null, the count 0 and the head still at
    the element.  Nothing outside the list, no payload and no other list
    is written. *)
Theorem pop_back_drops_last m l xs t :
  wf_list m l (xs ++ [t]) →
  ∃ m', pop_back l m = Ok tt m' ∧
        (xs ≠ [] → wf_list m' l xs) ∧
        (xs = [] → lists m' !! l = Some (mkList (Some t) None 0)) ∧
        hook <$> nodes m' !! t = Some (mkHook None None) ∧
        (∀ b, b ∉ xs ++ [t] → nodes m' !! b = nodes m !! b) ∧
        (∀ b, data <$> nodes m' !! b = data <$> nodes m !! b) ∧
        (∀ l', l' ≠ l → lists m' !! l' = lists m !! l').
Proof.
  intros Hwf.
  destruct (pop_back_wf m l xs t Hwf)
    as (m' & Hrun & Hwf' & Hsole & Hhook & Hfr & _ & Hdata & Hls).
  exists m'. by split_and!.
Qed.

(** X6.  [push_back(e)] of a freshly constructed element that is not in
    the list, on a list that satisfies the invariant and has room for one
    more: it returns and the list satisfies the invariant with [e] after
    its old chain; nothing outside the list and [e], no payload and no
    other list is written. *)
Theorem push_back_appends m l xs e :
  wf_list m l xs → e ∉ xs → fresh m e →
  Z.of_nat (length xs) + 1 < size_max →
  ∃ m', push_back l e m = Ok tt m' ∧
        wf_list m' l (xs ++ [e]) ∧
        (∀ a, a ∉ xs → a ≠ e → nodes m' !! a = nodes m !! a) ∧
        (∀ b, data <$> nodes m' !! b = data <$> nodes m !! b) ∧
        (∀ l', l' ≠ l → lists m' !! l' = lists m !! l').
Proof.
  intros Hwf He Hfresh Hroom.
  destruct (push_back_wf m l xs e Hwf He Hfresh Hroom) as (m' & Hrun & Hwf' & Hfr & Hls).
  exists m'. split_and!; [done..| |done].
  by apply (keeps_Ok _ _ _ _ (keeps_push_back _ _) Hrun).
Qed.

(** X7.  [push_front(e)], under the same conditions: it returns and the
    list satisfies the invariant with [e] before its old chain; nothing
    outside the list and [e], no payload and no other list is written. *)
Theorem push_front_prepends m l xs e :
  wf_list m l xs → e ∉ xs → fresh m e →
  Z.of_nat (length xs) + 1 < size_max →
  ∃ m', push_front l e m = Ok tt m' ∧
        wf_list m' l (e :: xs) ∧
        (∀ a, a ∉ xs → a ≠ e → nodes m' !! a = nodes m !! a) ∧
        (∀ b, data <$> nodes m' !! b = data <$> nodes m !! b) ∧
        (∀ l', l' ≠ l → lists m' !! l' = lists m !! l').
Proof.
  intros Hwf He Hfresh Hroom.
  destruct (push_front_wf m l xs e Hwf He Hfresh Hroom) as (m' & Hrun & Hwf' & Hfr & Hls).
  exists m'. split_and!; [done..| |done].
  by apply (keeps_Ok _ _ _ _ (keeps_push_front _ _) Hrun).
Qed.

(** X8.  [insert(pos, e)], under the same conditions, for [pos] the end
    cursor or the cursor of any element: it returns and the list satisfies
    the invariant with [e] just before [pos]; nothing outside the list and
    [e], no payload and no other list is written. *)
Theorem insert_places_before m l xs1 xs2 e :
  wf_list m l (xs1 ++ xs2) → e ∉ xs1 ++ xs2 → fresh m e →
  Z.of_nat (length (xs1 ++ xs2)) + 1 < size_max →
  ∃ m', insert l (hd_ptr xs2 None) e m = Ok tt m' ∧
        wf_list m' l (xs1 ++ e :: xs2) ∧
        (∀ a, a ∉ xs1 ++ xs2 → a ≠ e → nodes m' !! a = nodes m !! a) ∧
        (∀ b, data <$> nodes m' !! b = data <$> nodes m !! b) ∧
        (∀ l', l' ≠ l → lists m' !! l' = lists m !! l').
Proof.
  intros Hwf He Hfresh Hroom.
  destruct (insert_wf m l xs1 xs2 e Hwf He Hfresh Hroom) as (m' & Hrun & Hwf' & Hfr & Hls).
  exists m'. split_and!; [done..| |done].
  by apply (keeps_Ok _ _ _ _ (keeps_insert _ _ _) Hrun).
Qed.

(** X13.  [splice(pos, other, it)], for two distinct lists that satisfy
    the invariant and share no element, [it] at any element of [other],
    [pos] the end cursor or the cursor of any element of the destination,
    which has room for one more: it returns, the destination satisfies the
    invariant with the element just before [pos], and [other] satisfies it
    without the element; no payload, nothing outside the two lists and no
    third list is written.  With [it] the end cursor it throws and writes
    nothing. *)
Theorem splice_one_moves m this other xs1 xs2 ys1 e ys2 :
  this ≠ other →
  wf_list m this (xs1 ++ xs2) → wf_list m other (ys1 ++ e :: ys2) →
  (xs1 ++ xs2) ## (ys1 ++ e :: ys2) →
  Z.of_nat (length (xs1 ++ xs2)) + 1 < size_max →
  (∃ m', splice_one this (hd_ptr xs2 None) other (Some e) m = Ok tt m' ∧
         wf_list m' this (xs1 ++ e :: xs2) ∧
         wf_list m' other (ys1 ++ ys2) ∧
         (∀ b, data <$> nodes m' !! b = data <$> nodes m !! b) ∧
         (∀ b, b ∉ xs1 ++ xs2 → b ∉ ys1 ++ e :: ys2 → nodes m' !! b = nodes m !! b) ∧
         (∀ l, l ≠ this → l ≠ other → lists m' !! l = lists m !! l)) ∧
  splice_one this (hd_ptr xs2 None) other end_ m = Throw InvalidPosition m.
Proof. intros. split; [by apply splice_one_wf|done]. Qed.

(** X14.  [splice(pos, other, first, last)], for two distinct lists that
    satisfy the invariant and share no element, [first .. last) a run of
    one or more elements of [other], [pos] the end cursor or the cursor of
    any element of the destination, which has room for the run: it
    returns, the destination satisfies the invariant with the run, in its
    order, just before [pos], and [other] satisfies it without the run;
    no payload, nothing outside the two lists and no third list is
    written.  With [first = last] it returns and writes nothing. *)
Theorem splice_range_moves m this other xs1 xs2 ys1 f run ys2 fuel :
  this ≠ other →
  wf_list m this (xs1 ++ xs2) → wf_list m other (ys1 ++ (f :: run) ++ ys2) →
  (xs1 ++ xs2) ## (ys1 ++ (f :: run) ++ ys2) →
  Z.of_nat (length (xs1 ++ xs2)) + Z.of_nat (length (f :: run)) < size_max →
  (length (f :: run) < fuel)%nat →
  (∃ m', splice_range fuel this (hd_ptr xs2 None) other (Some f) (hd_ptr ys2 None) m
           = Ok tt m' ∧
         wf_list m' this (xs1 ++ (f :: run) ++ xs2) ∧
         wf_list m' other (ys1 ++ ys2) ∧
         (∀ b, data <$> nodes m' !! b = data <$> nodes m !! b) ∧
         (∀ b, b ∉ xs1 ++ xs2 → b ∉ ys1 ++ (f :: run) ++ ys2 →
               nodes m' !! b = nodes m !! b) ∧
         (∀ l, l ≠ this → l ≠ other → lists m' !! l = lists m !! l)) ∧
  (∀ pos it, splice_range fuel this pos other it it m = Ok tt m).
Proof.
  intros. split; [by apply splice_range_wf|].
  intros pos it. unfold splice_range. by rewrite bool_decide_eq_true_2.
Qed.

(** X28.  On an empty list [pop_front()], [pop_back()], [clear()],
    [unique()] and [remove_if(p)] return and write nothing; [merge] and
    [splice] from an empty list return and write nothing, whatever the
    destination; [begin()] is [end()]. *)
Theorem empty_list_edges m l this pos p fuel :
  lists m !! l = Some empty_list → (0 < fuel)%nat →
  pop_front l m = Ok tt m ∧ pop_back l m = Ok tt m ∧ clear fuel l m = Ok tt m ∧
  unique fuel l m = Ok tt m ∧ remove_if fuel l p m = Ok tt m ∧
  merge this l m = Ok tt m ∧ splice this pos l m = Ok tt m ∧
  begin l m = Ok end_ m.
Proof.
  intros HL Hfuel. destruct fuel as [|fuel]; [lia|].
  unfold pop_front, pop_back, unique, remove_if, merge, splice. cbn [clear remove_if_from].
  unfold_prims. repeat (rewrite HL; cbn). by split_and!.
Qed.

(** ** The operations at work on the concrete lists *)

Lemma erase_unlinks_one_witness :
  (∃ m' : Memory,
  erase 1 (Some 2%positive) shuffled = Ok (hd_ptr [3%positive; 4%positive] None) m'
  ∧ wf_list m' 1 ([1%positive] ++ [3%positive; 4%positive])
  ∧ hook <$> nodes m' !! 2%positive = Some {| prev := None; next := None |}
  ∧ (∀ b : positive,
  b ∉ [1%positive] ++ [2%positive; 3%positive; 4%positive]
  → nodes m' !! b = nodes shuffled !! b)
  ∧ (∀ b : positive, data <$> nodes m' !! b = data <$> nodes shuffled !! b)
  ∧ ∀ l' : positive, l' ≠ 1%positive → lists m' !! l' = lists shuffled !! l')
  ∧ erase 1 end_ shuffled = Throw InvalidPosition shuffled.
Proof.
  apply (erase_unlinks_one shuffled 1 [1%positive] 2 [3; 4]%positive).
  - exact shuffled_wf.
Defined.

Lemma remove_if_outcome_witness :
  ∃ m' : Memory,
  (∀ b : positive, data <$> nodes m' !! b = data <$> nodes shuffled !! b)
  ∧ ((∃ (r' : list positive) (t : positive),
  [1%positive; 2%positive; 3%positive; 4%positive] = r' ++ [t]
  ∧ holds (λ n : Node, data n =? 10) shuffled t = true
  ∧ remove_if 5 1 (λ n : Node, data n =? 10) shuffled =
  Throw InvalidPosition m'
  ∧ wf_list m' 1 (survivors (λ n : Node, data n =? 10) shuffled r' ++ [t]))
  ∨ (∀ t : positive,
  last [1%positive; 2%positive; 3%positive; 4%positive] = Some t
  → holds (λ n : Node, data n =? 10) shuffled t = false)
  ∧ remove_if 5 1 (λ n : Node, data n =? 10) shuffled = Ok tt m'
  ∧ wf_list m' 1
  (survivors (λ n : Node, data n =? 10) shuffled
  [1%positive; 2%positive; 3%positive; 4%positive])).
Proof.
  apply (remove_if_outcome shuffled 1 (fun n => data n =? 10) [1; 2; 3; 4]%positive 5).
  - by intros n n' ->.
  - exact shuffled_wf.
  - simpl; lia.
Defined.

Lemma pop_front_drops_first_witness :
  ∃ m' : Memory,
  pop_front 1 shuffled = Ok tt m'
  ∧ wf_list m' 1 [2%positive; 3%positive; 4%positive]
  ∧ hook <$> nodes m' !! 1%positive = Some {| prev := None; next := None |}
  ∧ (∀ b : positive,
  b ∉ [1%positive; 2%positive; 3%positive; 4%positive]
  → nodes m' !! b = nodes shuffled !! b)
  ∧ (∀ b : positive, data <$> nodes m' !! b = data <$> nodes shuffled !! b)
  ∧ ∀ l' : positive, l' ≠ 1%positive → lists m' !! l' = lists shuffled !! l'.
Proof.
  apply (pop_front_drops_first shuffled 1 1 [2; 3; 4]%positive).
  - exact shuffled_wf.
Defined.

Lemma pop_back_drops_last_witness :
  ∃ m' : Memory,
  pop_back 1 shuffled = Ok tt m'
  ∧ ([1%positive; 2%positive; 3%positive] ≠ []
  → wf_list m' 1 [1%positive; 2%positive; 3%positive])
  ∧ ([1%positive; 2%positive; 3%positive] = []
  → lists m' !! 1%positive =
  Some {| m_head := Some 4%positive; m_tail := None; m_size := 0 |})
  ∧ hook <$> nodes m' !! 4%positive = Some {| prev := None; next := None |}
  ∧ (∀ b : positive,
  b ∉ [1%positive; 2%positive; 3%positive] ++ [4%positive]
  → nodes m' !! b = nodes shuffled !! b)
  ∧ (∀ b : positive, data <$> nodes m' !! b = data <$> nodes shuffled !! b)
  ∧ ∀ l' : positive, l' ≠ 1%positive → lists m' !! l' = lists shuffled !! l'.
Proof.
  apply (pop_back_drops_last shuffled 1 [1; 2; 3]%positive 4).
  - exact shuffled_wf.
Defined.

Lemma clear_spec_witness :
  ∃ m' : Memory,
  clear 5 1 shuffled = Ok tt m'
  ∧ lists m' !! 1%positive =
  Some
  {|
  m_head := head [1%positive; 2%positive; 3%positive; 4%positive];
  m_tail := None;
  m_size := 0
  |}
  ∧ (∀ a : positive,
  a ∈ [1%positive; 2%positive; 3%positive; 4%positive]
  → hook <$> nodes m' !! a = Some {| prev := None; next := None |})
  ∧ (∀ b : positive,
  b ∉ [1%positive; 2%positive; 3%positive; 4%positive]
  → nodes m' !! b = nodes shuffled !! b)
  ∧ (∀ b : positive, data <$> nodes m' !! b = data <$> nodes shuffled !! b)
  ∧ ∀ l' : positive, l' ≠ 1%positive → lists m' !! l' = lists shuffled !! l'.
Proof.
  apply (clear_spec shuffled 1 [1; 2; 3; 4]%positive 5).
  - exact shuffled_wf.
  - simpl; lia.
Defined.

Lemma push_back_appends_witness :
  ∃ m' : Memory,
  push_back 1 4 spare = Ok tt m'
  ∧ wf_list m' 1 ([1%positive; 2%positive; 3%positive] ++ [4%positive])
  ∧ (∀ a : positive,
  a ∉ [1%positive; 2%positive; 3%positive]
  → a ≠ 4%positive → nodes m' !! a = nodes spare !! a)
  ∧ (∀ b : positive, data <$> nodes m' !! b = data <$> nodes spare !! b)
  ∧ ∀ l' : positive, l' ≠ 1%positive → lists m' !! l' = lists spare !! l'.
Proof.
  apply (push_back_appends spare 1 [1; 2; 3]%positive 4).
  - exact (proj1 spare_wf).
  - by apply (bool_decide_unpack _).
  - by eexists.
  - by vm_compute.
Defined.

Lemma push_front_prepends_witness :
  ∃ m' : Memory,
  push_front 1 4 spare = Ok tt m'
  ∧ wf_list m' 1 [4%positive; 1%positive; 2%positive; 3%positive]
  ∧ (∀ a : positive,
  a ∉ [1%positive; 2%positive; 3%positive]
  → a ≠ 4%positive → nodes m' !! a = nodes spare !! a)
  ∧ (∀ b : positive, data <$> nodes m' !! b = data <$> nodes spare !! b)
  ∧ ∀ l' : positive, l' ≠ 1%positive → lists m' !! l' = lists spare !! l'.
Proof.
  apply (push_front_prepends spare 1 [1; 2; 3]%positive 4).
  - exact (proj1 spare_wf).
  - by apply (bool_decide_unpack _).
  - by eexists.
  - by vm_compute.
Defined.

Lemma insert_places_before_witness :
  ∃ m' : Memory,
  insert 1 (hd_ptr [2%positive; 3%positive] None) 4 spare = Ok tt m'
  ∧ wf_list m' 1 ([1%positive] ++ [4%positive; 2%positive; 3%positive])
  ∧ (∀ a : positive,
  a ∉ [1%positive] ++ [2%positive; 3%positive]
  → a ≠ 4%positive → nodes m' !! a = nodes spare !! a)
  ∧ (∀ b : positive, data <$> nodes m' !! b = data <$> nodes spare !! b)
  ∧ ∀ l' : positive, l' ≠ 1%positive → lists m' !! l' = lists spare !! l'.
Proof.
  apply (insert_places_before spare 1 [1%positive] [2; 3]%positive 4).
  - exact (proj1 spare_wf).
  - by apply (bool_decide_unpack _).
  - by eexists.
  - by vm_compute.
Defined.

Lemma member_rejected_witness :
  push_front 1 2 shuffled = Throw AlreadyLinked shuffled
  ∧ push_back 1 2 shuffled = Throw AlreadyLinked shuffled
  ∧ insert 1 None 2 shuffled = Throw AlreadyLinked shuffled.
Proof.
  apply (member_rejected shuffled 1 [1; 2; 3; 4]%positive 2 1 None).
  - exact shuffled_wf.
  - by apply (bool_decide_unpack _).
  - simpl; lia.
Defined.

Lemma unique_spec_witness :
  ∃ m' : Memory,
  unique 4 1 spare = Ok tt m'
  ∧ wf_list m' 1 (collapse spare [1%positive; 2%positive; 3%positive])
  ∧ (∀ b : positive, data <$> nodes m' !! b = data <$> nodes spare !! b)
  ∧ (∀ b : positive,
  b ∉ [1%positive; 2%positive; 3%positive] → nodes m' !! b = nodes spare !! b)
  ∧ ∀ l' : positive, l' ≠ 1%positive → lists m' !! l' = lists spare !! l'.
Proof.
  apply (unique_spec spare 1 [1; 2; 3]%positive 4).
  - exact (proj1 spare_wf).
  - simpl; lia.
Defined.

Lemma swap_spec_witness :
  ∃ m' : Memory,
  swap 1 2 two_lists = Ok tt m'
  ∧ nodes m' = nodes two_lists
  ∧ wf_list m' 1 [3%positive; 4%positive]
  ∧ wf_list m' 2 [1%positive; 2%positive]
  ∧ (∀ l : positive,
  l ≠ 1%positive → l ≠ 2%positive → lists m' !! l = lists two_lists !! l)
  ∧ swap 1 2 m' = Ok tt two_lists.
Proof.
  apply (swap_spec two_lists 1 2 [1; 2]%positive [3; 4]%positive).
  - exact (proj1 two_lists_wf).
  - exact (proj2 two_lists_wf).
Defined.

Lemma front_back_spec_witness :
  ([1%positive; 2%positive; 3%positive; 4%positive] = []
  → front 1 shuffled = Throw EmptyContainer shuffled
  ∧ back 1 shuffled = Throw EmptyContainer shuffled)
  ∧ (∀ a : positive,
  head [1%positive; 2%positive; 3%positive; 4%positive] = Some a
  → front 1 shuffled = Ok a shuffled)
  ∧ ∀ t : positive,
  last [1%positive; 2%positive; 3%positive; 4%positive] = Some t
  → back 1 shuffled = Ok t shuffled.
Proof.
  apply (front_back_spec shuffled 1 [1; 2; 3; 4]%positive).
  - exact shuffled_wf.
Defined.

Lemma splice_one_moves_witness :
  (∃ m' : Memory,
  splice_one 1 (hd_ptr [2%positive] None) 2 (Some 4%positive) two_lists = Ok tt m'
  ∧ wf_list m' 1 ([1%positive] ++ [4%positive; 2%positive])
  ∧ wf_list m' 2 ([3%positive] ++ [])
  ∧ (∀ b : positive, data <$> nodes m' !! b = data <$> nodes two_lists !! b)
  ∧ (∀ b : positive,
  b ∉ [1%positive] ++ [2%positive]
  → b ∉ [3%positive] ++ [4%positive]
  → nodes m' !! b = nodes two_lists !! b)
  ∧ ∀ l : positive,
  l ≠ 1%positive → l ≠ 2%positive → lists m' !! l = lists two_lists !! l)
  ∧ splice_one 1 (hd_ptr [2%positive] None) 2 end_ two_lists =
  Throw InvalidPosition two_lists.
Proof.
  apply (splice_one_moves two_lists 1 2 [1%positive] [2%positive] [3%positive] 4 []).
  - done.
  - exact (proj1 two_lists_wf).
  - exact (proj2 two_lists_wf).
  - simpl; set_solver.
  - by vm_compute.
Defined.

Lemma splice_range_moves_witness :
  (∃ m' : Memory,
  splice_range 2 1 (hd_ptr [2%positive] None) 2 (Some 3%positive)
  (hd_ptr [4%positive] None) two_lists =
  Ok tt m'
  ∧ wf_list m' 1 ([1%positive] ++ [3%positive] ++ [2%positive])
  ∧ wf_list m' 2 ([] ++ [4%positive])
  ∧ (∀ b : positive, data <$> nodes m' !! b = data <$> nodes two_lists !! b)
  ∧ (∀ b : positive,
  b ∉ [1%positive] ++ [2%positive]
  → b ∉ [] ++ [3%positive] ++ [4%positive]
  → nodes m' !! b = nodes two_lists !! b)
  ∧ ∀ l : positive,
  l ≠ 1%positive → l ≠ 2%positive → lists m' !! l = lists two_lists !! l)
  ∧ ∀ pos it : option positive, splice_range 2 1 pos 2 it it two_lists = Ok tt two_lists.
Proof.
  apply (splice_range_moves two_lists 1 2 [1%positive] [2%positive] [] 3 [] [4%positive] 2).
  - done.
  - exact (proj1 two_lists_wf).
  - exact (proj2 two_lists_wf).
  - simpl; set_solver.
  - by vm_compute.
  - simpl; lia.
Defined.

Lemma cursor_moves_witness :
  incr (Some 2%positive) shuffled =
  Ok ([1%positive; 2%positive; 3%positive; 4%positive] !! 2%nat) shuffled
  ∧ decr (Some 2%positive) shuffled =
  Ok
  match 1%nat with
  | 0%nat => None
  | S j => [1%positive; 2%positive; 3%positive; 4%positive] !! j
  end shuffled
  ∧ (∀ b : positive,
  [1%positive; 2%positive; 3%positive; 4%positive] !! 2%nat = Some b
  → (c <- incr (Some 2%positive);; decr c) shuffled =
  Ok (Some 2%positive) shuffled
  ∧ (c <- decr (Some b);; incr c) shuffled = Ok (Some b) shuffled)
  ∧ ([1%positive; 2%positive; 3%positive; 4%positive] !! 2%nat = None
  → (c <- incr (Some 2%positive);; decr c) shuffled = Ok end_ shuffled).
Proof.
  apply (cursor_moves shuffled 1 [1; 2; 3; 4]%positive 1 2).
  - exact shuffled_wf.
  - reflexivity.
Defined.

Lemma walk_spec_witness :
  size 1 shuffled =
  Ok (Z.of_nat (length [1%positive; 2%positive; 3%positive; 4%positive])) shuffled
  ∧ empty 1 shuffled =
  Ok (bool_decide ([1%positive; 2%positive; 3%positive; 4%positive] = [])) shuffled
  ∧ (b <- begin 1;; forward_from 5 b) shuffled =
  Ok [1%positive; 2%positive; 3%positive; 4%positive] shuffled
  ∧ (b <- begin 1;;
  c <- advance (length [1%positive; 2%positive; 3%positive; 4%positive] - 1) b;;
  backward_from 5 c) shuffled =
  Ok (rev [1%positive; 2%positive; 3%positive; 4%positive]) shuffled.
Proof.
  apply (walk_spec shuffled 1 [1; 2; 3; 4]%positive 5).
  - exact shuffled_wf.
  - simpl; lia.
Defined.

Lemma remove_inner_witness :
  ∃ m' : Memory,
  remove 2 shuffled = Ok tt m'
  ∧ threads m' 1 ([1%positive] ++ [3%positive; 4%positive])
  (Z.of_nat (length ([1%positive] ++ [3%positive; 4%positive])) + 1)
  ∧ hook <$> nodes m' !! 2%positive = Some {| prev := None; next := None |}
  ∧ size 1 m' =
  Ok (Z.of_nat (length ([1%positive] ++ [3%positive; 4%positive])) + 1) m'
  ∧ (b <- begin 1;; forward_from 5 b) m' =
  Ok ([1%positive] ++ [3%positive; 4%positive]) m'.
Proof.
  apply (remove_inner shuffled 1 [1%positive] 2 [3; 4]%positive 5).
  - exact shuffled_wf.
  - done.
  - done.
  - simpl; lia.
Defined.


Lemma insert_erase_witness :
  (insert 1 (hd_ptr [2%positive; 3%positive] None) 4;;; erase 1 (Some 4%positive)) spare =
  Ok (hd_ptr [2%positive; 3%positive] None) spare.
Proof.
  apply (insert_erase spare 1 [1%positive] [2; 3]%positive 4).
  - exact (proj1 spare_wf).
  - by apply (bool_decide_unpack _).
  - by eexists.
  - by vm_compute.
Defined.

Lemma push_front_pop_front_witness :
  (push_front 1 4;;; pop_front 1) spare = Ok tt spare.
Proof.
  apply (push_front_pop_front spare 1 [1; 2; 3]%positive 4).
  - exact (proj1 spare_wf).
  - by apply (bool_decide_unpack _).
  - by eexists.
  - by vm_compute.
Defined.

Lemma push_back_pop_back_witness :
  (push_back 1 4;;; pop_back 1) spare = Ok tt spare.
Proof.
  apply (push_back_pop_back spare 1 [1; 2; 3]%positive 4).
  - exact (proj1 spare_wf).
  - done.
  - by apply (bool_decide_unpack _).
  - by eexists.
  - by vm_compute.
Defined.

Lemma splice_one_back_witness :
  (splice_one 1 (hd_ptr [2%positive] None) 2 (Some 4%positive);;;
  splice_one 2 (hd_ptr [] None) 1 (Some 4%positive)) two_lists =
  Ok tt two_lists.
Proof.
  apply (splice_one_back two_lists 1 2 [1%positive] [2%positive] [3%positive] 4 []).
  - done.
  - exact (proj1 two_lists_wf).
  - exact (proj2 two_lists_wf).
  - simpl; set_solver.
  - by vm_compute.
Defined.

Lemma pop_front_is_erase_begin_witness :
  pop_front 1 shuffled = (b <- begin 1;; erase 1 b;;; ret ()) shuffled.
Proof.
  apply (pop_front_is_erase_begin shuffled 1 1 [2; 3; 4]%positive).
  - exact shuffled_wf.
Defined.

Lemma pop_back_is_erase_last_witness :
  pop_back 1 shuffled = (erase 1 (Some 4%positive);;; ret ()) shuffled.
Proof.
  apply (pop_back_is_erase_last shuffled 1 [1; 2; 3]%positive 4).
  - exact shuffled_wf.
  - done.
Defined.

Lemma splice_at_end_is_merge_witness :
  splice 1 end_ 2 two_lists = merge 1 2 two_lists.
Proof.
  apply (splice_at_end_is_merge two_lists 1 2 [1; 2]%positive [3; 4]%positive).
  - done.
  - exact (proj1 two_lists_wf).
  - exact (proj2 two_lists_wf).
  - simpl; set_solver.
  - by vm_compute.
Defined.

Lemma splice_range_one_is_splice_one_witness :
  splice_range 2 1 (hd_ptr [2%positive] None) 2 (Some 4%positive)
  (hd_ptr [] None) two_lists =
  splice_one 1 (hd_ptr [2%positive] None) 2 (Some 4%positive) two_lists.
Proof.
  apply (splice_range_one_is_splice_one two_lists 1 2 [1%positive] [2%positive] [3%positive] 4 [] 2).
  - done.
  - exact (proj1 two_lists_wf).
  - exact (proj2 two_lists_wf).
  - simpl; set_solver.
  - by vm_compute.
  - simpl; lia.
Defined.

Lemma empty_list_edges_witness :
  pop_front 1 demo = Ok tt demo
  ∧ pop_back 1 demo = Ok tt demo
  ∧ clear 1 1 demo = Ok tt demo
  ∧ unique 1 1 demo = Ok tt demo
  ∧ remove_if 1 1 (λ _ : Node, true) demo = Ok tt demo
  ∧ merge 2 1 demo = Ok tt demo
  ∧ splice 2 None 1 demo = Ok tt demo ∧ begin 1 demo = Ok end_ demo.
Proof.
  apply (empty_list_edges demo 1 2 None (fun _ => true) 1).
  - reflexivity.
  - lia.
Defined.
